(** * A shallow embedding of the mini-React reconciler, its hook store and
      its render scheduler

    Sources embedded here:
    - [packages/react/src/core/elements.ts]   (normalizeNode, createChildPath)
    - [packages/react/src/core/dom.ts]        (setDomProps, updateDomProps,
                                               getDomNodes, getFirstDom, ...;
                                               the file [unnamed/part_000])
    - [packages/react/src/core/hooks.ts]      (cleanupUnusedHooks, useState,
                                               useEffect; lines 79-206 of
                                               [hocs/memo.ts])
    - [packages/react/src/core/reconciler.ts] (mount*, update*, reconcile)
    - [packages/react/src/core/render.ts]     (render, flushEffects)

    JavaScript objects that the code only compares by reference carry a
    numeric identity; closures are represented by what they do when called.
    The [console.log] calls of the source have no effect on any state that
    the program reads back and are left out. *)

From Stdlib Require Import ZArith Lia.
From Stdlib Require Import DecimalString DecimalNat DecimalFacts.
From stdpp Require Import base option list strings gmap.

Set Warnings "-register-all".
Local Open Scope string_scope.

(** ** JavaScript values *)

Module Js.

(** What an effect cleanup closure does when it is called: it leaves
    [cl_id] in the trace and either returns or throws. *)
Record Cleanup := mkCleanup { cl_id : nat; cl_throws : bool }.

(** What an effect body returns: a function (kept as the next cleanup) or
    anything else (dropped by [typeof cleanup === "function"]). *)
Inductive EffectReturn :=
| RetCleanup (c : Cleanup)
| RetOther.

(** An effect closure: it leaves [ef_id] in the trace, then returns
    ([Some]) or throws ([None]). *)
Record Effect := mkEffect { ef_id : nat; ef_result : option EffectReturn }.

(** Values stored in props and in hook slots.  Numbers are integers (no
    NaN, no signed zero).  [VFun] and [VObj] are heap objects known by
    their address, [VObj] a plain object with string-valued fields and no
    [kind] property; [VEffect] is the [EffectHook] object
    [{ kind: "effect", deps, cleanup, effect }] that [useEffect] allocates. *)
Inductive Value :=
| VUndef
| VNull
| VBool (b : bool)
| VNum (z : Z)
| VStr (s : string)
| VFun (addr : nat)
| VObj (addr : nat) (fields : list (string * string))
| VEffect (addr : nat) (deps : option (list Value))
          (cleanup : option Cleanup) (effect : Effect).

(** [Object.is] / [===] on the values above: primitives by value, objects
    by address. *)
Definition Object_is (a b : Value) : bool :=
  match a, b with
  | VUndef, VUndef => true
  | VNull, VNull => true
  | VBool x, VBool y => bool_decide (x = y)
  | VNum x, VNum y => bool_decide (x = y)
  | VStr x, VStr y => bool_decide (x = y)
  | VFun x, VFun y => bool_decide (x = y)
  | VObj x _, VObj y _ => bool_decide (x = y)
  | VEffect x _ _ _, VEffect y _ _ _ => bool_decide (x = y)
  | _, _ => false
  end.

(** JavaScript truthiness. *)
Definition truthy (v : Value) : bool :=
  match v with
  | VUndef | VNull => false
  | VBool b => b
  | VNum z => negb (bool_decide (z = 0%Z))
  | VStr s => negb (bool_decide (s = ""))
  | VFun _ | VObj _ _ | VEffect _ _ _ _ => true
  end.

Definition string_of_nat (n : nat) : string :=
  NilZero.string_of_uint (Nat.to_uint n).

Definition string_of_Z (z : Z) : string :=
  NilZero.string_of_int (Z.to_int z).

(** [String(value)] as used for attribute values and text. *)
Definition String_of (v : Value) : string :=
  match v with
  | VUndef => "undefined"
  | VNull => "null"
  | VBool true => "true"
  | VBool false => "false"
  | VNum z => string_of_Z z
  | VStr s => s
  | VFun _ => "function"
  | VObj _ _ | VEffect _ _ _ _ => "[object Object]"
  end.

(** Modelled from the spec: [shallowEquals] of [utils] on two dependency
    lists, "ordered shallow element comparison": same length and
    position-wise identical elements. *)
Fixpoint shallowEquals (a b : list Value) : bool :=
  match a, b with
  | [], [] => true
  | x :: a', y :: b' => Object_is x y && shallowEquals a' b'
  | _, _ => false
  end.

End Js.
Export Js.

(** ** Canonical nodes ([VNode]) *)

(** [node.type]: the Text marker symbol, the Fragment marker symbol, a host
    tag, or a component function (known by its address [cid]). *)
Inductive NodeType :=
| TText
| TFragment
| THost (tag : string)
| TComponent (cid : nat).

#[global] Instance NodeType_eq_dec : EqDecision NodeType.
Proof. solve_decision. Defined.

(** [props.children] is kept in its own field; [None] is an absent
    [children] property (a component element created without children). *)
Inductive VNode :=
| mkVNode (type : NodeType) (key : option string)
          (props : list (string * Value)) (children : option (list VNode)).

Definition ntype (n : VNode) : NodeType := let 'mkVNode t _ _ _ := n in t.
Definition nkey (n : VNode) : option string := let 'mkVNode _ k _ _ := n in k.
Definition nprops (n : VNode) : list (string * Value) :=
  let 'mkVNode _ _ p _ := n in p.
Definition nchildren (n : VNode) : option (list VNode) :=
  let 'mkVNode _ _ _ c := n in c.

(** [node.props.children || []] *)
Definition children_or_empty (n : VNode) : list VNode :=
  default [] (nchildren n).

(** [props[name]], [undefined] when absent. *)
Fixpoint prop_get (name : string) (props : list (string * Value)) : Value :=
  match props with
  | [] => VUndef
  | (k, v) :: rest => if bool_decide (k = name) then v else prop_get name rest
  end.

(** [name in props] *)
Fixpoint prop_in (name : string) (props : list (string * Value)) : bool :=
  match props with
  | [] => false
  | (k, _) :: rest => bool_decide (k = name) || prop_in name rest
  end.

(** ** elements.ts *)

Module Elements.

(** Anything a component function may return. *)
Inductive RawNode :=
| RNull
| RUndefined
| RBool (b : bool)
| RNum (z : Z)
| RStr (s : string)
| RArray
| RNode (n : VNode).

(** Truthiness of a returned value, for [childNode ? ... : null]. *)
Definition raw_truthy (r : RawNode) : bool :=
  match r with
  | RNull | RUndefined => false
  | RBool b => b
  | RNum z => negb (bool_decide (z = 0%Z))
  | RStr s => negb (bool_decide (s = ""))
  | RArray | RNode _ => true
  end.

(** Modelled from the spec: [isEmptyValue] of [utils], true on "nullish /
    boolean values". *)
Definition isEmptyValue (r : RawNode) : bool :=
  match r with
  | RNull | RUndefined | RBool _ => true
  | _ => false
  end.

Definition text_node (s : string) : VNode :=
  mkVNode TText None [("nodeValue", VStr s)] (Some []).

Definition normalizeNode (node : RawNode) : option VNode :=
  if isEmptyValue node then None
  else match node with
       | RStr s => Some (text_node s)
       | RNum z => Some (text_node (string_of_Z z))
       | RArray => None
       | RNode n => Some n
       | _ => None
       end.

(** The [nodeType] argument of [createChildPath] as JavaScript sees it. *)
Inductive PathType :=
| PAbsent                      (* argument omitted *)
| PString (s : string)
| PSymbol
| PFunction (name : string).   (* [nodeType.name] *)

Definition createChildPath (parentPath : string) (key : option string)
    (index : nat) (nodeType : PathType) : string :=
  match key with
  | Some k => parentPath ++ ".k" ++ k
  | None =>
      let typed (typeName : string) :=
        parentPath ++ ".c" ++ typeName ++ "_" ++ string_of_nat index in
      match nodeType with
      | PAbsent => parentPath ++ ".i" ++ string_of_nat index
      | PString "" => parentPath ++ ".i" ++ string_of_nat index
      | PString s => typed s
      | PSymbol => typed "Unknown"
      | PFunction name => typed (if bool_decide (name = "") then "Component" else name)
      end
  end.

End Elements.
Export Elements.

(** ** Mounted instances *)

Inductive NodeKind := KHost | KFragment | KComponent | KText.

#[global] Instance NodeKind_eq_dec : EqDecision NodeKind.
Proof. solve_decision. Defined.

(** [Instance] objects are mutated in place by the reconciler and compared
    by reference ([Set<Instance>]); [addr] is that reference.  [dom] is a
    handle into the render target. *)
Inductive Instance :=
| mkInstance (addr : nat) (kind : NodeKind) (dom : option nat) (node : VNode)
             (children : list (option Instance)) (key : option string)
             (path : string).

Definition iaddr (i : Instance) : nat := let 'mkInstance a _ _ _ _ _ _ := i in a.
Definition ikind (i : Instance) : NodeKind := let 'mkInstance _ k _ _ _ _ _ := i in k.
Definition idom (i : Instance) : option nat := let 'mkInstance _ _ d _ _ _ _ := i in d.
Definition inode (i : Instance) : VNode := let 'mkInstance _ _ _ n _ _ _ := i in n.
Definition ichildren (i : Instance) : list (option Instance) :=
  let 'mkInstance _ _ _ _ c _ _ := i in c.
Definition ikey (i : Instance) : option string := let 'mkInstance _ _ _ _ _ k _ := i in k.
Definition ipath (i : Instance) : string := let 'mkInstance _ _ _ _ _ _ p := i in p.

Definition set_idom (d : option nat) (i : Instance) : Instance :=
  let 'mkInstance a k _ n c ky p := i in mkInstance a k d n c ky p.
Definition set_inode (n : VNode) (i : Instance) : Instance :=
  let 'mkInstance a k d _ c ky p := i in mkInstance a k d n c ky p.
Definition set_ichildren (c : list (option Instance)) (i : Instance) : Instance :=
  let 'mkInstance a k d n _ ky p := i in mkInstance a k d n c ky p.
Definition set_ipath (p : string) (i : Instance) : Instance :=
  let 'mkInstance a k d n c ky _ := i in mkInstance a k d n c ky p.

(** ** The render target and the process-wide context *)

(** One node of the render target.  Only what the reconciler reads back is
    kept as state: the tree shape and the expando properties written with
    [dom[key] = value] (the [__event] handler slots among them).  Every
    write, these included, is recorded in the mutation log. *)
Record DomNode := mkDomNode {
  dn_tag : option string;            (* [None] for a text node *)
  dn_text : string;                  (* [nodeValue] of a text node *)
  dn_parent : option nat;            (* [parentNode] *)
  dn_children : list nat;            (* [childNodes] *)
  dn_fields : list (string * Value); (* own properties *)
}.

(** The render-target mutations the code can issue. *)
Inductive DomOp :=
| OpInsertBefore (parent node anchor : nat)
| OpAppendChild (parent node : nat)
| OpRemoveChild (parent node : nat)
| OpSetAttribute (node : nat) (name value : string)
| OpRemoveAttribute (node : nat) (name : string)
| OpSetField (node : nat) (name : string) (value : Value)
| OpDeleteField (node : nat) (name : string)
| OpAddEventListener (node : nat) (event : string) (handler : Value)
| OpRemoveEventListener (node : nat) (event : string) (handler : Value)
| OpStyleAssign (node : nat) (entries : list (string * string))
| OpStyleSet (node : nat) (name value : string)
| OpStyleCssText (node : nat) (value : string)
| OpSetNodeValue (node : nat) (value : string).

(** Calls of effect bodies and cleanups, in the order they happen. *)
Inductive Event :=
| EvEffect (id : nat)
| EvCleanup (id : nat).

#[global] Instance Event_eq_dec : EqDecision Event.
Proof. solve_decision. Defined.

(** [context] of [context.ts] together with the render target.
    [hooks_state] is a JavaScript [Map] whose iteration order (insertion
    order) is observable in [cleanupUnusedHooks], hence an association
    list; see [Amap] below. *)
Record State := mkState {
  dom_nodes : gmap nat DomNode;
  dom_next : nat;                            (* next fresh node handle *)
  dom_log : list DomOp;                      (* mutations, oldest first *)
  hooks_state : list (string * list Value);  (* [context.hooks.state] *)
  hooks_cursor : gmap string nat;            (* [context.hooks.cursor] *)
  hooks_visited : gset string;               (* [context.hooks.visited] *)
  hooks_componentStack : list string;        (* [context.hooks.componentStack] *)
  effects_queue : list (string * nat);       (* [context.effects.queue] *)
  heap_next : nat;                           (* next fresh object address *)
  refs : gmap nat nat;                       (* [ref.current] of ref objects *)
  trace : list Event;                        (* closure calls, oldest first *)
  render_scheduled : bool;                   (* a render is pending *)
  render_requests : nat;                     (* calls of [enqueueRender] *)
  flush_scheduled : nat;                     (* [enqueue(flushEffects)] calls *)
  root_container : option nat;
  root_node : option VNode;
  root_instance : option Instance;
}.

Definition upd_dom (f : gmap nat DomNode → gmap nat DomNode) (s : State) : State :=
  mkState (f (dom_nodes s)) (dom_next s) (dom_log s) (hooks_state s)
    (hooks_cursor s) (hooks_visited s) (hooks_componentStack s)
    (effects_queue s) (heap_next s) (refs s) (trace s) (render_scheduled s)
    (render_requests s) (flush_scheduled s) (root_container s) (root_node s)
    (root_instance s).
Definition upd_dom_next (f : nat → nat) (s : State) : State :=
  mkState (dom_nodes s) (f (dom_next s)) (dom_log s) (hooks_state s)
    (hooks_cursor s) (hooks_visited s) (hooks_componentStack s)
    (effects_queue s) (heap_next s) (refs s) (trace s) (render_scheduled s)
    (render_requests s) (flush_scheduled s) (root_container s) (root_node s)
    (root_instance s).
Definition upd_log (f : list DomOp → list DomOp) (s : State) : State :=
  mkState (dom_nodes s) (dom_next s) (f (dom_log s)) (hooks_state s)
    (hooks_cursor s) (hooks_visited s) (hooks_componentStack s)
    (effects_queue s) (heap_next s) (refs s) (trace s) (render_scheduled s)
    (render_requests s) (flush_scheduled s) (root_container s) (root_node s)
    (root_instance s).
Definition upd_hooks_state (f : list (string * list Value) → list (string * list Value))
    (s : State) : State :=
  mkState (dom_nodes s) (dom_next s) (dom_log s) (f (hooks_state s))
    (hooks_cursor s) (hooks_visited s) (hooks_componentStack s)
    (effects_queue s) (heap_next s) (refs s) (trace s) (render_scheduled s)
    (render_requests s) (flush_scheduled s) (root_container s) (root_node s)
    (root_instance s).
Definition upd_cursor (f : gmap string nat → gmap string nat) (s : State) : State :=
  mkState (dom_nodes s) (dom_next s) (dom_log s) (hooks_state s)
    (f (hooks_cursor s)) (hooks_visited s) (hooks_componentStack s)
    (effects_queue s) (heap_next s) (refs s) (trace s) (render_scheduled s)
    (render_requests s) (flush_scheduled s) (root_container s) (root_node s)
    (root_instance s).
Definition upd_visited (f : gset string → gset string) (s : State) : State :=
  mkState (dom_nodes s) (dom_next s) (dom_log s) (hooks_state s)
    (hooks_cursor s) (f (hooks_visited s)) (hooks_componentStack s)
    (effects_queue s) (heap_next s) (refs s) (trace s) (render_scheduled s)
    (render_requests s) (flush_scheduled s) (root_container s) (root_node s)
    (root_instance s).
Definition upd_stack (f : list string → list string) (s : State) : State :=
  mkState (dom_nodes s) (dom_next s) (dom_log s) (hooks_state s)
    (hooks_cursor s) (hooks_visited s) (f (hooks_componentStack s))
    (effects_queue s) (heap_next s) (refs s) (trace s) (render_scheduled s)
    (render_requests s) (flush_scheduled s) (root_container s) (root_node s)
    (root_instance s).
Definition upd_queue (f : list (string * nat) → list (string * nat)) (s : State) : State :=
  mkState (dom_nodes s) (dom_next s) (dom_log s) (hooks_state s)
    (hooks_cursor s) (hooks_visited s) (hooks_componentStack s)
    (f (effects_queue s)) (heap_next s) (refs s) (trace s) (render_scheduled s)
    (render_requests s) (flush_scheduled s) (root_container s) (root_node s)
    (root_instance s).
Definition upd_heap_next (f : nat → nat) (s : State) : State :=
  mkState (dom_nodes s) (dom_next s) (dom_log s) (hooks_state s)
    (hooks_cursor s) (hooks_visited s) (hooks_componentStack s)
    (effects_queue s) (f (heap_next s)) (refs s) (trace s) (render_scheduled s)
    (render_requests s) (flush_scheduled s) (root_container s) (root_node s)
    (root_instance s).
Definition upd_refs (f : gmap nat nat → gmap nat nat) (s : State) : State :=
  mkState (dom_nodes s) (dom_next s) (dom_log s) (hooks_state s)
    (hooks_cursor s) (hooks_visited s) (hooks_componentStack s)
    (effects_queue s) (heap_next s) (f (refs s)) (trace s) (render_scheduled s)
    (render_requests s) (flush_scheduled s) (root_container s) (root_node s)
    (root_instance s).
Definition upd_trace (f : list Event → list Event) (s : State) : State :=
  mkState (dom_nodes s) (dom_next s) (dom_log s) (hooks_state s)
    (hooks_cursor s) (hooks_visited s) (hooks_componentStack s)
    (effects_queue s) (heap_next s) (refs s) (f (trace s)) (render_scheduled s)
    (render_requests s) (flush_scheduled s) (root_container s) (root_node s)
    (root_instance s).
Definition upd_render (pending : bool) (requests : nat) (s : State) : State :=
  mkState (dom_nodes s) (dom_next s) (dom_log s) (hooks_state s)
    (hooks_cursor s) (hooks_visited s) (hooks_componentStack s)
    (effects_queue s) (heap_next s) (refs s) (trace s) pending
    requests (flush_scheduled s) (root_container s) (root_node s)
    (root_instance s).
Definition upd_flush_scheduled (f : nat → nat) (s : State) : State :=
  mkState (dom_nodes s) (dom_next s) (dom_log s) (hooks_state s)
    (hooks_cursor s) (hooks_visited s) (hooks_componentStack s)
    (effects_queue s) (heap_next s) (refs s) (trace s) (render_scheduled s)
    (render_requests s) (f (flush_scheduled s)) (root_container s) (root_node s)
    (root_instance s).
Definition upd_root_instance (i : option Instance) (s : State) : State :=
  mkState (dom_nodes s) (dom_next s) (dom_log s) (hooks_state s)
    (hooks_cursor s) (hooks_visited s) (hooks_componentStack s)
    (effects_queue s) (heap_next s) (refs s) (trace s) (render_scheduled s)
    (render_requests s) (flush_scheduled s) (root_container s) (root_node s)
    i.

Arguments upd_dom _ _ /.
Arguments upd_dom_next _ _ /.
Arguments upd_log _ _ /.
Arguments upd_hooks_state _ _ /.
Arguments upd_cursor _ _ /.
Arguments upd_visited _ _ /.
Arguments upd_stack _ _ /.
Arguments upd_queue _ _ /.
Arguments upd_heap_next _ _ /.
Arguments upd_refs _ _ /.
Arguments upd_trace _ _ /.
Arguments upd_render _ _ _ /.
Arguments upd_flush_scheduled _ _ /.
Arguments upd_root_instance _ _ /.

(** ** The monad of the embedding: state, exceptions, and fuel *)

(** A computation returns ([Done]), throws a JavaScript exception
    ([Raised]), or is cut off because the recursion allowance of
    [reconcile] ran out ([Starved]). *)
Inductive Res (A : Type) :=
| Done (a : A) (s : State)
| Raised (s : State)
| Starved.
Arguments Done {A} a s.
Arguments Raised {A} s.
Arguments Starved {A}.

Definition M (A : Type) : Type := State → Res A.

#[global] Instance M_ret : MRet M := λ A a s, Done a s.
#[global] Instance M_bind : MBind M := λ A B f m s,
  match m s with
  | Done a s' => f a s'
  | Raised s' => Raised s'
  | Starved => Starved
  end.

#[global] Instance M_fmap : FMap M := λ A B f m s,
  match m s with
  | Done a s' => Done (f a) s'
  | Raised s' => Raised s'
  | Starved => Starved
  end.

Definition get : M State := λ s, Done s s.
Definition gets {A} (f : State → A) : M A := λ s, Done (f s) s.
Definition modify (f : State → State) : M unit := λ s, Done tt (f s).
Definition raise {A} : M A := λ s, Raised s.
Definition starve {A} : M A := λ _, Starved.

(** [try { body } finally { fin }] *)
Definition try_finally {A} (body : M A) (fin : M unit) : M A := λ s,
  match body s with
  | Done a s' => match fin s' with
                 | Done _ s'' => Done a s''
                 | Raised s'' => Raised s''
                 | Starved => Starved
                 end
  | Raised s' => match fin s' with
                 | Done _ s'' => Raised s''
                 | Raised s'' => Raised s''
                 | Starved => Starved
                 end
  | Starved => Starved
  end.

(** [for (const x of xs) body(x)] *)
Fixpoint for_each {A} (xs : list A) (body : A → M unit) : M unit :=
  match xs with
  | [] => mret tt
  | x :: rest => _ ← body x; for_each rest body
  end.

Definition when (b : bool) (m : M unit) : M unit := if b then m else mret tt.

(** ** The render-target capability set (the DOM calls the code makes) *)

Module Dom.

Definition blank_node : DomNode := mkDomNode None "" None [] [].

(** Every handle denotes a node; one never written to is a detached blank. *)
Definition node_of (s : State) (n : nat) : DomNode :=
  default blank_node (dom_nodes s !! n).

Definition set_parent (p : option nat) (d : DomNode) : DomNode :=
  mkDomNode (dn_tag d) (dn_text d) p (dn_children d) (dn_fields d).
Definition set_children (c : list nat) (d : DomNode) : DomNode :=
  mkDomNode (dn_tag d) (dn_text d) (dn_parent d) c (dn_fields d).
Definition set_text (t : string) (d : DomNode) : DomNode :=
  mkDomNode (dn_tag d) t (dn_parent d) (dn_children d) (dn_fields d).
Definition set_fields (f : list (string * Value)) (d : DomNode) : DomNode :=
  mkDomNode (dn_tag d) (dn_text d) (dn_parent d) (dn_children d) f.

Definition upd_node (n : nat) (f : DomNode → DomNode) (s : State) : State :=
  upd_dom (λ m, <[n := f (node_of s n)]> m) s.

Definition log_op (op : DomOp) : M unit := modify (upd_log (λ l, (l ++ [op])%list)).

(** [node.parentNode] *)
Definition parentNode (s : State) (n : nat) : option nat := dn_parent (node_of s n).

Fixpoint next_in (n : nat) (l : list nat) : option nat :=
  match l with
  | [] => None
  | x :: rest => if bool_decide (x = n) then head rest else next_in n rest
  end.

Fixpoint prev_in (n : nat) (l : list nat) : option nat :=
  match l with
  | [] => None
  | x :: rest =>
      match rest with
      | y :: _ => if bool_decide (y = n) then Some x else prev_in n rest
      | [] => None
      end
  end.

Definition siblings (s : State) (n : nat) : list nat :=
  match parentNode s n with
  | Some p => dn_children (node_of s p)
  | None => []
  end.

(** [node.nextSibling] and [node.previousSibling] *)
Definition nextSibling (s : State) (n : nat) : option nat := next_in n (siblings s n).
Definition previousSibling (s : State) (n : nat) : option nat := prev_in n (siblings s n).

(** [parent.firstElementChild]: the first child that is an element. *)
Definition firstElementChild (s : State) (p : nat) : option nat :=
  head (filter (λ c, is_Some (dn_tag (node_of s c))) (dn_children (node_of s p))).

Definition createElement (tag : string) : M nat := λ s,
  let n := dom_next s in
  Done n (upd_dom_next S (upd_dom (λ m, <[n := mkDomNode (Some tag) "" None [] []]> m) s)).

Definition createTextNode (text : string) : M nat := λ s,
  let n := dom_next s in
  Done n (upd_dom_next S (upd_dom (λ m, <[n := mkDomNode None text None [] []]> m) s)).

Definition remove_from (n : nat) (l : list nat) : list nat :=
  filter (λ x, x ≠ n) l.

Fixpoint insert_at (n : nat) (anchor : nat) (l : list nat) : list nat :=
  match l with
  | [] => [n]
  | x :: rest =>
      if bool_decide (x = anchor) then n :: x :: rest
      else x :: insert_at n anchor rest
  end.

(** Take [n] out of the child list of its current parent, if it has one. *)
Definition detach (n : nat) (s : State) : State :=
  match parentNode s n with
  | Some p =>
      upd_node n (set_parent None)
        (upd_node p (λ d, set_children (remove_from n (dn_children d)) d) s)
  | None => s
  end.

Definition attach (p n : nat) (anchor : option nat) (s : State) : State :=
  let s1 := detach n s in
  let place l := match anchor with
                 | Some a => insert_at n a l
                 | None => (l ++ [n])%list
                 end in
  upd_node n (set_parent (Some p))
    (upd_node p (λ d, set_children (place (dn_children d)) d) s1).

(** [parent.insertBefore(node, anchor)] with a non-null anchor: throws
    NotFoundError when the anchor is not a child of [parent]; inserting a
    node before itself leaves it where it is (the DOM standard re-targets
    the reference child to the node's next sibling). *)
Definition insertBefore (p n anchor : nat) : M unit := λ s,
  if bool_decide (parentNode s anchor = Some p) then
    let anchor' := if bool_decide (n = anchor) then nextSibling s n else Some anchor in
    Done tt (upd_log (λ l, (l ++ [OpInsertBefore p n anchor])%list) (attach p n anchor' s))
  else Raised s.

(** [parent.appendChild(node)] *)
Definition appendChild (p n : nat) : M unit := λ s,
  Done tt (upd_log (λ l, (l ++ [OpAppendChild p n])%list) (attach p n None s)).

(** [parent.removeChild(node)]: throws NotFoundError when [node] is not a
    child of [parent]. *)
Definition removeChild (p n : nat) : M unit := λ s,
  if bool_decide (parentNode s n = Some p) then
    Done tt (upd_log (λ l, (l ++ [OpRemoveChild p n])%list) (detach n s))
  else Raised s.

Definition setAttribute (n : nat) (name value : string) : M unit :=
  log_op (OpSetAttribute n name value).
Definition removeAttribute (n : nat) (name : string) : M unit :=
  log_op (OpRemoveAttribute n name).
Definition addEventListener (n : nat) (event : string) (h : Value) : M unit :=
  log_op (OpAddEventListener n event h).
Definition removeEventListener (n : nat) (event : string) (h : Value) : M unit :=
  log_op (OpRemoveEventListener n event h).

Fixpoint fields_set (name : string) (v : Value) (f : list (string * Value))
    : list (string * Value) :=
  match f with
  | [] => [(name, v)]
  | (k, w) :: rest =>
      if bool_decide (k = name) then (k, v) :: rest
      else (k, w) :: fields_set name v rest
  end.

Definition fields_delete (name : string) (f : list (string * Value))
    : list (string * Value) :=
  filter (λ kv, kv.1 ≠ name) f.

(** [dom[name]] *)
Definition getField (s : State) (n : nat) (name : string) : Value :=
  prop_get name (dn_fields (node_of s n)).

(** [dom[name] = value] *)
Definition setField (n : nat) (name : string) (v : Value) : M unit :=
  _ ← modify (λ s, upd_node n (λ d, set_fields (fields_set name v (dn_fields d)) d) s);
  log_op (OpSetField n name v).

(** [delete dom[name]] *)
Definition deleteField (n : nat) (name : string) : M unit :=
  _ ← modify (λ s, upd_node n (λ d, set_fields (fields_delete name (dn_fields d)) d) s);
  log_op (OpDeleteField n name).

(** [text.nodeValue = value] *)
Definition setNodeValue (n : nat) (value : string) : M unit :=
  _ ← modify (upd_node n (set_text value));
  log_op (OpSetNodeValue n value).

End Dom.

(** ** dom.ts *)

Definition starts_with (p s : string) : bool := String.prefix p s.

Definition lower_ascii (c : Ascii.ascii) : Ascii.ascii :=
  let n := Ascii.nat_of_ascii c in
  if (65 <=? n)%nat && (n <=? 90)%nat then Ascii.ascii_of_nat (n + 32) else c.

Fixpoint toLowerCase (s : string) : string :=
  match s with
  | EmptyString => EmptyString
  | String c rest => String (lower_ascii c) (toLowerCase rest)
  end.

(** [name.slice(2).toLowerCase()] *)
Definition normalizeEventName (name : string) : string :=
  toLowerCase (String.substring 2 (String.length name - 2) name).

Definition isEventProp (name : string) : bool :=
  starts_with "on" name && bool_decide (2 < String.length name).

(** [typeof v === "object"] ([null] included) and the same with
    [v !== null]. *)
Definition typeof_object (v : Value) : bool :=
  match v with VNull | VObj _ _ | VEffect _ _ _ _ => true | _ => false end.
Definition is_object (v : Value) : bool :=
  match v with VObj _ _ | VEffect _ _ _ _ => true | _ => false end.
Definition typeof_boolean (v : Value) : bool :=
  match v with VBool _ => true | _ => false end.
(** [v != null] *)
Definition not_nullish (v : Value) : bool :=
  match v with VUndef | VNull => false | _ => true end.

(** The enumerable entries of an object used as a style value. *)
Definition style_entries (v : Value) : list (string * string) :=
  match v with VObj _ fields => fields | _ => [] end.

(** [value || ""] *)
Definition or_empty (v : Value) : Value := if truthy v then v else VStr "".

Definition event_slot (eventName : string) : string := "__" ++ eventName.

Definition setDomProp (dom : nat) (key : string) (value : Value) : M unit :=
  if bool_decide (key = "children") then mret tt
  else if isEventProp key then
    let eventName := normalizeEventName key in
    _ ← Dom.setField dom (event_slot eventName) value;
    when (truthy value) (Dom.addEventListener dom eventName value)
  else if bool_decide (key = "style") && is_object value then
    Dom.log_op (OpStyleAssign dom (style_entries value))
  else if bool_decide (key = "className") then
    Dom.setField dom "className" (or_empty value)
  else if starts_with "data-" key then
    Dom.setAttribute dom key (String_of value)
  else if bool_decide (key = "ref") then mret tt
  else match value with
       | VBool true =>
           _ ← Dom.setAttribute dom key "";
           Dom.setField dom key (VBool true)
       | VBool false =>
           _ ← Dom.removeAttribute dom key;
           Dom.setField dom key (VBool false)
       | _ =>
           _ ← Dom.setField dom key value;
           when (not_nullish value) (Dom.setAttribute dom key (String_of value))
       end.

Definition setDomProps (dom : nat) (props : list (string * Value)) : M unit :=
  for_each props (λ kv, setDomProp dom kv.1 kv.2).

(** First loop of [updateDomProps]: one key of [prevProps]. *)
Definition removeOldProp (dom : nat) (prevProps nextProps : list (string * Value))
    (key : string) : M unit :=
  if bool_decide (key = "children") then mret tt
  else if negb (prop_in key nextProps) then
    if isEventProp key then
      let eventName := normalizeEventName key in
      s ← get;
      let prevHandler := Dom.getField s dom (event_slot eventName) in
      if truthy prevHandler then
        _ ← Dom.removeEventListener dom eventName prevHandler;
        Dom.deleteField dom (event_slot eventName)
      else mret tt
    else if bool_decide (key = "style") && typeof_object (prop_get key prevProps) then
      Dom.log_op (OpStyleCssText dom "")
    else if bool_decide (key = "className") then
      Dom.setField dom "className" (VStr "")
    else if starts_with "data-" key then
      Dom.removeAttribute dom key
    else if typeof_boolean (prop_get key prevProps) then
      _ ← Dom.removeAttribute dom key;
      Dom.setField dom key (VBool false)
    else
      _ ← Dom.removeAttribute dom key;
      Dom.deleteField dom key
  else mret tt.

(** Second loop of [updateDomProps]: one entry of [nextProps]. *)
Definition applyNewProp (dom : nat) (prevProps : list (string * Value))
    (key : string) (value : Value) : M unit :=
  if bool_decide (key = "children") then mret tt
  else
    let prevValue := prop_get key prevProps in
    if isEventProp key then
      let eventName := normalizeEventName key in
      s ← get;
      let prevHandler := Dom.getField s dom (event_slot eventName) in
      if negb (Object_is prevHandler value) then
        _ ← when (truthy prevHandler) (Dom.removeEventListener dom eventName prevHandler);
        if truthy value then
          _ ← Dom.addEventListener dom eventName value;
          Dom.setField dom (event_slot eventName) value
        else Dom.deleteField dom (event_slot eventName)
      else mret tt
    else if bool_decide (key = "style") && is_object value then
      _ ← when (is_object prevValue)
            (for_each (style_entries prevValue) (λ kv,
               when (negb (bool_decide (kv.1 ∈ (style_entries value).*1)))
                    (Dom.log_op (OpStyleSet dom kv.1 ""))));
      Dom.log_op (OpStyleAssign dom (style_entries value))
    else if bool_decide (key = "className") then
      when (negb (Object_is prevValue value)) (Dom.setField dom "className" (or_empty value))
    else if starts_with "data-" key then
      when (negb (Object_is prevValue value)) (Dom.setAttribute dom key (String_of value))
    else if bool_decide (key = "ref") then mret tt
    else match value with
         | VBool b =>
             when (negb (Object_is prevValue value))
               (if b then
                  _ ← Dom.setAttribute dom key "";
                  Dom.setField dom key (VBool true)
                else
                  _ ← Dom.removeAttribute dom key;
                  Dom.setField dom key (VBool false))
         | _ =>
             when (negb (Object_is prevValue value))
               (_ ← Dom.setField dom key value;
                if not_nullish value then Dom.setAttribute dom key (String_of value)
                else Dom.removeAttribute dom key)
         end.

Definition updateDomProps (dom : nat) (prevProps nextProps : list (string * Value))
    : M unit :=
  _ ← for_each prevProps (λ kv, removeOldProp dom prevProps nextProps kv.1);
  for_each nextProps (λ kv, applyNewProp dom prevProps kv.1 kv.2).

(** [getDomNodes] on a non-null instance. *)
Fixpoint getDomNodes (instance : Instance) : list nat :=
  let 'mkInstance _ kind dom _ children _ _ := instance in
  match kind with
  | KFragment | KComponent =>
      (fix collect (cs : list (option Instance)) : list nat :=
         match cs with
         | [] => []
         | Some child :: rest => (getDomNodes child ++ collect rest)%list
         | None :: rest => collect rest
         end) children
  | KHost | KText =>
      match dom with
      | Some d => [d]
      | None => []
      end
  end.

(** [getFirstDom] on a non-null instance; the inner loop is
    [getFirstDomFromChildren]. *)
Fixpoint getFirstDom (instance : Instance) : option nat :=
  let 'mkInstance _ _ dom _ children _ _ := instance in
  match dom with
  | Some d => Some d
  | None =>
      (fix fromChildren (cs : list (option Instance)) : option nat :=
         match cs with
         | [] => None
         | Some child :: rest =>
             match getFirstDom child with
             | Some d => Some d
             | None => fromChildren rest
             end
         | None :: rest => fromChildren rest
         end) children
  end.

Fixpoint getFirstDomFromChildren (children : list (option Instance)) : option nat :=
  match children with
  | [] => None
  | Some child :: rest =>
      match getFirstDom child with
      | Some d => Some d
      | None => getFirstDomFromChildren rest
      end
  | None :: rest => getFirstDomFromChildren rest
  end.

(** The removal loop shared by [removeInstance] and the unmount code of the
    reconciler: [if (node.parentNode === parentDom) parentDom.removeChild(node)]. *)
Definition removeNodes (parentDom : nat) (nodes : list nat) : M unit :=
  for_each nodes (λ n,
    s ← get;
    when (bool_decide (Dom.parentNode s n = Some parentDom))
         (Dom.removeChild parentDom n)).

Definition removeInstance (parentDom : nat) (instance : option Instance) : M unit :=
  match instance with
  | None => mret tt
  | Some i => removeNodes parentDom (getDomNodes i)
  end.

Definition insertInstance (parentDom : nat) (instance : option Instance)
    (anchor : option nat) : M unit :=
  match instance with
  | None => mret tt
  | Some i =>
      let nodes := getDomNodes i in
      match anchor with
      | Some a => for_each nodes (λ n, Dom.insertBefore parentDom n a)
      | None => for_each nodes (λ n, Dom.appendChild parentDom n)
      end
  end.

(** ** JavaScript [Map] with observable insertion order *)

Module Amap.
Section Amap.
Context {V : Type}.

Fixpoint get (k : string) (m : list (string * V)) : option V :=
  match m with
  | [] => None
  | (k', v) :: rest => if bool_decide (k' = k) then Some v else get k rest
  end.

Definition has (k : string) (m : list (string * V)) : bool :=
  bool_decide (is_Some (get k m)).

(** [m.set(k, v)]: an existing key keeps its place, a new one goes last. *)
Fixpoint set (k : string) (v : V) (m : list (string * V)) : list (string * V) :=
  match m with
  | [] => [(k, v)]
  | (k', v') :: rest =>
      if bool_decide (k' = k) then (k', v) :: rest
      else (k', v') :: set k v rest
  end.

Definition delete (k : string) (m : list (string * V)) : list (string * V) :=
  filter (λ kv, kv.1 ≠ k) m.
End Amap.
End Amap.

(** ** hooks.ts, with the accessors of context.ts *)

Module Hooks.

(** Modelled from the spec: the [currentPath] accessor of [context.ts],
    the top of the active-path stack; hooks are "callable only during a
    component function's synchronous invocation window", so it throws when
    the stack is empty. *)
Definition currentPath : M string := λ s,
  match last (hooks_componentStack s) with
  | Some p => Done p s
  | None => Raised s
  end.

(** Modelled from the spec: the [currentCursor] accessor of [context.ts],
    the cursor of the current path (zero when none is recorded). *)
Definition currentCursor : M nat :=
  path ← currentPath;
  gets (λ s, default 0 (hooks_cursor s !! path)).

(** Modelled from the spec: the [currentHooks] accessor of [context.ts],
    the slot sequence of the current path (empty when none is stored). *)
Definition currentHooks : M (list Value) :=
  path ← currentPath;
  gets (λ s, default [] (Amap.get path (hooks_state s))).

(** Modelled from the spec: [enqueueRender = withEnqueue(render)], "any
    request to render while one is already pending for the current tick is
    a no-op".  [render_requests] counts the calls. *)
Definition enqueueRender : M unit :=
  modify (λ s, upd_render true (S (render_requests s)) s).

(** [hooks[i]], [undefined] past the end. *)
Definition slot_at (hooks : list Value) (i : nat) : Value :=
  default VUndef (hooks !! i).

(** [hooks[i] = v]: past the end the array grows, the gap reads
    [undefined]. *)
Definition slot_write (hooks : list Value) (i : nat) (v : Value) : list Value :=
  if bool_decide (i < length hooks) then <[i := v]> hooks
  else (hooks ++ replicate (i - length hooks) VUndef ++ [v])%list.

(** The argument of [useState]: a value, or a thunk computing it. *)
Inductive Initial :=
| Eager (v : Value)
| Lazy (thunk : unit → Value).

(** The argument of a state setter: a value, or an updater of the previous
    value. *)
Inductive NextValue :=
| Direct (v : Value)
| Updater (f : Value → Value).

(** The [setState] closure returned by [useState]: it captures [path] and
    [cursor]. *)
Record Setter := mkSetter { set_path : string; set_cursor : nat }.

Definition setState (setter : Setter) (nextValue : NextValue) : M unit :=
  let path := set_path setter in
  let cursor := set_cursor setter in
  hooks ← gets (λ s, default [] (Amap.get path (hooks_state s)));
  let currentValue := slot_at hooks cursor in
  let newValue := match nextValue with
                  | Updater f => f currentValue
                  | Direct v => v
                  end in
  if Object_is currentValue newValue then mret tt
  else
    _ ← modify (upd_hooks_state (Amap.set path (slot_write hooks cursor newValue)));
    enqueueRender.

Definition useState (initialValue : Initial) : M (Value * Setter) :=
  path ← currentPath;
  cursor ← currentCursor;
  hooks ← currentHooks;
  hooks ← (if bool_decide (length hooks ≤ cursor)%nat then
             let value := match initialValue with
                          | Lazy thunk => thunk tt
                          | Eager v => v
                          end in
             let hooks := (hooks ++ [value])%list in
             _ ← modify (upd_hooks_state (Amap.set path hooks));
             mret hooks
           else mret hooks);
  let currentValue := slot_at hooks cursor in
  _ ← modify (upd_cursor (λ m, <[path := cursor + 1]> m));
  mret (currentValue, mkSetter path cursor).

Definition fresh_addr : M nat := λ s,
  Done (heap_next s) (upd_heap_next S s).

(** [shallowEquals(prevHook.deps, deps)] where the stored list may be
    [null]. *)
Definition deps_equal (prev : option (list Value)) (deps : list Value) : bool :=
  match prev with
  | Some p => shallowEquals p deps
  | None => false
  end.

Definition useEffect (effect : Effect) (deps : option (list Value)) : M unit :=
  path ← currentPath;
  cursor ← currentCursor;
  hooks ← currentHooks;
  let prevHook :=
    match hooks !! cursor with
    | Some (VEffect _ pdeps pcleanup _) => Some (pdeps, pcleanup)
    | _ => None
    end in
  let shouldRun :=
    match prevHook, deps with
    | None, _ => true
    | _, None => true
    | Some (pdeps, _), Some d => negb (deps_equal pdeps d)
    end in
  addr ← fresh_addr;
  let effectHook :=
    VEffect addr deps (match prevHook with Some (_, c) => c | None => None end) effect in
  let hooks := if bool_decide (length hooks ≤ cursor)%nat then (hooks ++ [effectHook])%list
               else <[cursor := effectHook]> hooks in
  _ ← modify (upd_hooks_state (Amap.set path hooks));
  _ ← when shouldRun (modify (upd_queue (λ q, (q ++ [(path, cursor)])%list)));
  modify (upd_cursor (λ m, <[path := cursor + 1]> m)).

(** Calling a cleanup closure. *)
Definition call_cleanup (c : Cleanup) : M unit :=
  _ ← modify (upd_trace (λ t, (t ++ [EvCleanup (cl_id c)])%list));
  if cl_throws c then raise else mret tt.

(** Calling an effect closure. *)
Definition call_effect (e : Effect) : M EffectReturn :=
  _ ← modify (upd_trace (λ t, (t ++ [EvEffect (ef_id e)])%list));
  match ef_result e with
  | Some r => mret r
  | None => raise
  end.

(** The inner loop of [cleanupUnusedHooks] on one slot. *)
Definition cleanupHook (hook : Value) : M unit :=
  match hook with
  | VEffect _ _ (Some c) _ => call_cleanup c
  | _ => mret tt
  end.

(** One iteration of the outer loop of [cleanupUnusedHooks]. *)
Definition cleanupEntry (entry : string * list Value) : M unit :=
  let '(path, hooksArray) := entry in
  visited ← gets hooks_visited;
  if bool_decide (path ∈ visited) then mret tt
  else
    _ ← for_each hooksArray cleanupHook;
    _ ← modify (upd_hooks_state (Amap.delete path));
    modify (upd_cursor (λ m, delete path m)).

Definition cleanupUnusedHooks : M unit :=
  entries ← gets hooks_state;
  _ ← for_each entries cleanupEntry;
  modify (upd_visited (λ _, ∅)).

End Hooks.
Export Hooks.

(** ** reconciler.ts *)

Module Reconciler.

(** A component function: its [name] property and what a call does.  The
    body receives [node.props] (the [children] entry apart) and may call the
    hooks. *)
Record Component := mkComponent {
  c_name : string;
  c_body : list (string * Value) → option (list VNode) → M RawNode;
}.

Definition Reconcile : Type :=
  nat → option Instance → option VNode → string → option nat → M (option Instance).

Section Functions.
(** The component functions of the program, by address. *)
Context (components : nat → Component).
(** The recursive calls of [reconcile] made by the functions below. *)
Context (reconcile : Reconcile).

Definition path_type (t : NodeType) : PathType :=
  match t with
  | TText | TFragment => PSymbol
  | THost tag => PString tag
  | TComponent cid => PFunction (c_name (components cid))
  end.

Definition childPathOf (path : string) (i : nat) (childNode : VNode) : string :=
  createChildPath path (nkey childNode) i (path_type (ntype childNode)).

(** The state-migration block of [updateComponent] and [reconcile], run
    when [oldPath !== path]. *)
Definition migrate (oldPath path : string) : M unit :=
  s ← get;
  _ ← match Amap.get oldPath (hooks_state s) with
      | Some oldState =>
          modify (upd_hooks_state (λ m, Amap.delete oldPath (Amap.set path oldState m)))
      | None => mret tt
      end;
  s ← get;
  _ ← match hooks_cursor s !! oldPath with
      | Some oldCursor =>
          modify (upd_cursor (λ m, delete oldPath (<[path := oldCursor]> m)))
      | None => mret tt
      end;
  s ← get;
  when (bool_decide (oldPath ∈ hooks_visited s))
       (modify (upd_visited (λ v, {[path]} ∪ (v ∖ {[oldPath]})))).

(** [ref.current = dom] for a truthy [ref] prop: recorded for an object,
    invisible on a function object, a TypeError on a primitive. *)
Definition set_ref (ref : Value) (dom : nat) : M unit :=
  match ref with
  | VObj addr _ => modify (upd_refs (λ m, <[addr := dom]> m))
  | VFun _ | VEffect _ _ _ _ => mret tt
  | _ => raise
  end.

(** What [reconcile] does when a component function returns a truthy
    value that is not a node object and [mountComponent] passes it on:
    [node.type] is [undefined], so [mountHost] creates an ["undefined"]
    element and [Object.entries(node.props)] throws. *)
Definition reconcile_raw (parentDom : nat) (childNode : RawNode) (path : string)
    (anchor : option nat) : M (option Instance) :=
  match childNode with
  | RNode n => reconcile parentDom None (Some n) path anchor
  | _ => _ ← Dom.createElement "undefined"; raise
  end.

Definition mountComponent (parentDom : nat) (node : VNode) (path : string)
    (anchor : option nat) : M (option Instance) :=
  let Component :=
    match ntype node with
    | TComponent cid => c_body (components cid)
    | _ => λ _ _, raise
    end in
  _ ← modify (upd_stack (λ st, (st ++ [path])%list));
  _ ← modify (upd_cursor (λ m, <[path := 0]> m));
  _ ← modify (upd_visited (λ v, {[path]} ∪ v));
  try_finally
    (childNode ← Component (nprops node) (nchildren node);
     childInstance ← (if raw_truthy childNode
                      then reconcile_raw parentDom childNode (path ++ ".c0") anchor
                      else mret None);
     addr ← fresh_addr;
     let instance :=
       mkInstance addr KComponent None node
         (match childInstance with Some c => [Some c] | None => [] end)
         (nkey node) path in
     mret (Some (set_idom (getFirstDom instance) instance)))
    (modify (upd_stack (λ st, removelast st))).

Definition updateComponent (parentDom : nat) (instance : Instance) (node : VNode)
    (path : string) : M Instance :=
  let Component :=
    match ntype node with
    | TComponent cid => c_body (components cid)
    | _ => λ _ _, raise
    end in
  let oldPath := ipath instance in
  _ ← when (negb (bool_decide (oldPath = path))) (migrate oldPath path);
  _ ← modify (upd_stack (λ st, (st ++ [path])%list));
  prevCursor ← gets (λ s, default 0 (hooks_cursor s !! path));
  _ ← modify (upd_cursor (λ m, <[path := 0]> m));
  _ ← modify (upd_visited (λ v, {[path]} ∪ v));
  try_finally
    (rawChildNode ← Component (nprops node) (nchildren node);
     let childNode := normalizeNode rawChildNode in
     let prevChild := mjoin (head (ichildren instance)) in
     let shouldRemovePrevChild :=
       match childNode with
       | None => true
       | Some cn =>
           match nchildren cn, prevChild with
           | Some [], Some pc => bool_decide (ikind pc = KFragment)
           | _, _ => false
           end
       end in
     childInstance ← (if shouldRemovePrevChild
                      then reconcile parentDom prevChild None (path ++ ".c0") None
                      else reconcile parentDom prevChild childNode (path ++ ".c0") None);
     let instance := set_inode node instance in
     let instance :=
       set_ichildren (match childInstance with Some c => [Some c] | None => [] end)
         instance in
     let instance := set_ipath path instance in
     mret (set_idom (getFirstDom instance) instance))
    (_ ← modify (upd_stack (λ st, removelast st));
     modify (upd_cursor (λ m, <[path := prevCursor]> m))).

Definition host_tag (t : NodeType) : string :=
  match t with THost tag => tag | _ => "undefined" end.

(** The child loop of [mountHost]. *)
Fixpoint mountHostChildren (dom : nat) (path : string) (i : nat)
    (childNodes : list VNode) : M (list (option Instance)) :=
  match childNodes with
  | [] => mret []
  | childNode :: rest =>
      childInstance ← reconcile dom None (Some childNode) (childPathOf path i childNode) None;
      more ← mountHostChildren dom path (S i) rest;
      mret (childInstance :: more)
  end.

Definition mountHost (parentDom : nat) (node : VNode) (path : string)
    (anchor : option nat) : M Instance :=
  dom ← Dom.createElement (host_tag (ntype node));
  _ ← setDomProps dom (nprops node);
  _ ← (let ref := prop_get "ref" (nprops node) in
       when (truthy ref) (set_ref ref dom));
  children ← mountHostChildren dom path 0 (children_or_empty node);
  _ ← match anchor with
      | Some a => Dom.insertBefore parentDom dom a
      | None => Dom.appendChild parentDom dom
      end;
  addr ← fresh_addr;
  mret (mkInstance addr KHost (Some dom) node children (nkey node) path).

(** *** Child matching *)

Definition is_used (used : gset nat) (i : Instance) : bool :=
  bool_decide (iaddr i ∈ used).
Definition mark_used (i : Instance) (used : gset nat) : gset nat :=
  {[iaddr i]} ∪ used.

(** [keyedMap.set(child.key, child)] over the previous children. *)
Fixpoint build_keyedMap (prevChildren : list (option Instance))
    (keyedMap : list (string * Instance)) : list (string * Instance) :=
  match prevChildren with
  | [] => keyedMap
  | Some child :: rest =>
      match ikey child with
      | Some k => build_keyedMap rest (Amap.set k child keyedMap)
      | None => build_keyedMap rest keyedMap
      end
  | None :: rest => build_keyedMap rest keyedMap
  end.

(** Stage one: the first previous child, not yet used, whose path is the
    expected one. *)
Fixpoint find_by_path (expectedPath : string) (used : gset nat)
    (prevChildren : list (option Instance)) : option Instance :=
  match prevChildren with
  | [] => None
  | Some prevChild :: rest =>
      if negb (is_used used prevChild) && bool_decide (ipath prevChild = expectedPath)
      then Some prevChild
      else find_by_path expectedPath used rest
  | None :: rest => find_by_path expectedPath used rest
  end.

Definition is_candidate (type : NodeType) (used : gset nat) (prevChild : Instance) : bool :=
  negb (is_used used prevChild) && bool_decide (ikey prevChild = None)
  && bool_decide (ntype (inode prevChild) = type).

(** Stage two: the unused unkeyed previous children of the same type,
    with their index. *)
Fixpoint candidates_from (j : nat) (type : NodeType) (used : gset nat)
    (prevChildren : list (option Instance)) : list (Instance * nat) :=
  match prevChildren with
  | [] => []
  | Some prevChild :: rest =>
      if is_candidate type used prevChild
      then (prevChild, j) :: candidates_from (S j) type used rest
      else candidates_from (S j) type used rest
  | None :: rest => candidates_from (S j) type used rest
  end.

Fixpoint first_candidate (type : NodeType) (used : gset nat)
    (cs : list (option Instance)) : option Instance :=
  match cs with
  | [] => None
  | Some prevChild :: rest =>
      if is_candidate type used prevChild then Some prevChild
      else first_candidate type used rest
  | None :: rest => first_candidate type used rest
  end.

(** The backwards scan [for (j = prevChildren.length - 1; j >= 0; j--)]. *)
Definition reverse_search (type : NodeType) (used : gset nat)
    (prevChildren : list (option Instance)) : option Instance :=
  first_candidate type used (reverse prevChildren).

(** The fallback after the backwards scan: the candidate of largest
    index ([maxIndex] starts at -1, so the first candidate always wins). *)
Fixpoint max_candidate (best : option (Instance * nat)) (cands : list (Instance * nat))
    : option Instance :=
  match cands with
  | [] => fst <$> best
  | (inst, j) :: rest =>
      match best with
      | Some (_, maxIndex) =>
          if bool_decide (maxIndex < j)%nat then max_candidate (Some (inst, j)) rest
          else max_candidate best rest
      | None => max_candidate (Some (inst, j)) rest
      end
  end.

(** [Math.abs(candidate.index - i)] *)
Definition distance (j i : nat) : nat := if bool_decide (j ≤ i)%nat then i - j else j - i.

Fixpoint nearest (i : nat) (best : Instance * nat) (cands : list (Instance * nat))
    : Instance :=
  match cands with
  | [] => best.1
  | cand :: rest =>
      if bool_decide (distance cand.2 i < distance best.2 i)%nat
      then nearest i cand rest
      else nearest i best rest
  end.

(** The second stage as [updateHost] runs it. *)
Definition match_by_type (i lastIndex : nat) (type : NodeType) (used : gset nat)
    (prevChildren : list (option Instance)) : option Instance :=
  let candidates := candidates_from 0 type used prevChildren in
  match candidates with
  | [] => None
  | first :: _ =>
      if bool_decide (i = lastIndex) then
        match reverse_search type used prevChildren with
        | Some prevChild => Some prevChild
        | None => max_candidate None candidates
        end
      else Some (nearest i first candidates)
  end.

Definition with_used (found : option Instance) (used : gset nat)
    : option Instance * gset nat :=
  match found with
  | Some inst => (Some inst, mark_used inst used)
  | None => (None, used)
  end.

(** One iteration of the matching loop of [updateHost]. *)
Definition matchChildHost (path : string) (prevChildren : list (option Instance))
    (keyedMap : list (string * Instance)) (lastIndex i : nat) (childNode : VNode)
    (used : gset nat) : option Instance * gset nat :=
  match nkey childNode with
  | Some childKey => with_used (Amap.get childKey keyedMap) used
  | None =>
      let expectedPath := createChildPath path None i (path_type (ntype childNode)) in
      match find_by_path expectedPath used prevChildren with
      | Some prevChild => with_used (Some prevChild) used
      | None => with_used (match_by_type i lastIndex (ntype childNode) used prevChildren) used
      end
  end.

(** One iteration of the matching loop of [updateFragment]. *)
Definition matchChildFragment (path : string) (prevChildren : list (option Instance))
    (keyedMap : list (string * Instance)) (i : nat) (childNode : VNode)
    (used : gset nat) : option Instance * gset nat :=
  match nkey childNode with
  | Some childKey => with_used (Amap.get childKey keyedMap) used
  | None =>
      let expectedPath := createChildPath path None i (path_type (ntype childNode)) in
      with_used (find_by_path expectedPath used prevChildren) used
  end.

(** The matching loop: [childInstances] and [usedPrevChildren]. *)
Fixpoint matchChildren (step : nat → VNode → gset nat → option Instance * gset nat)
    (i : nat) (nextChildren : list VNode) (used : gset nat)
    : list (option Instance) * gset nat :=
  match nextChildren with
  | [] => ([], used)
  | childNode :: rest =>
      let '(childInstance, used) := step i childNode used in
      let '(more, used) := matchChildren step (S i) rest used in
      (childInstance :: more, used)
  end.

Definition matchChildrenHost (path : string) (prevChildren : list (option Instance))
    (nextChildren : list VNode) : list (option Instance) * gset nat :=
  matchChildren
    (matchChildHost path prevChildren (build_keyedMap prevChildren [])
       (length nextChildren - 1))
    0 nextChildren ∅.

Definition matchChildrenFragment (path : string) (prevChildren : list (option Instance))
    (nextChildren : list VNode) : list (option Instance) * gset nat :=
  matchChildren (matchChildFragment path prevChildren (build_keyedMap prevChildren []))
    0 nextChildren ∅.

(** *** Anchors *)

(** The first previous child with key [key] whose first render-target
    node is a child of [dom]. *)
Fixpoint find_keyed_dom (s : State) (dom : nat) (key : string)
    (prevChildren : list (option Instance)) : option nat :=
  match prevChildren with
  | [] => None
  | Some prevChild :: rest =>
      if bool_decide (ikey prevChild = Some key) then
        match getFirstDom prevChild with
        | Some prevDom =>
            if bool_decide (Dom.parentNode s prevDom = Some dom) then Some prevDom
            else find_keyed_dom s dom key rest
        | None => find_keyed_dom s dom key rest
        end
      else find_keyed_dom s dom key rest
  | None :: rest => find_keyed_dom s dom key rest
  end.

Definition anchor_by_key (s : State) (dom : nat) (prevChildren : list (option Instance))
    (nextChildKey : option string) (anchor : option nat) : option nat :=
  match nextChildKey with
  | Some k =>
      match find_keyed_dom s dom k prevChildren with
      | Some prevDom => Some prevDom
      | None => anchor
      end
  | None => anchor
  end.

Definition anchor_by_instance (s : State) (dom : nat)
    (nextChildInstance : option Instance) (anchor : option nat) : option nat :=
  match nextChildInstance with
  | Some inst =>
      match getFirstDom inst with
      | Some nextDom =>
          if bool_decide (Dom.parentNode s nextDom = Some dom) then Some nextDom
          else anchor
      | None => anchor
      end
  | None => anchor
  end.

(** [anchors[i]] of [updateHost] from [anchors[i + 1]] ([after]) and slot
    [i + 1] ([None] when [i + 1] is past the end). *)
Definition anchorHost (s : State) (dom : nat) (prevChildren : list (option Instance))
    (after : option nat) (next : option (VNode * option Instance)) : option nat :=
  match next with
  | None => after
  | Some (nextChildNode, nextChildInstance) =>
      let anchor := anchor_by_key s dom prevChildren (nkey nextChildNode) after in
      if bool_decide (anchor = after)
      then anchor_by_instance s dom nextChildInstance anchor
      else anchor
  end.

(** The same for [updateFragment], which looks at the instance first. *)
Definition anchorFragment (s : State) (parentDom : nat)
    (prevChildren : list (option Instance))
    (after : option nat) (next : option (VNode * option Instance)) : option nat :=
  match next with
  | None => after
  | Some (nextChildNode, nextChildInstance) =>
      let anchor := anchor_by_instance s parentDom nextChildInstance after in
      if bool_decide (anchor = after)
      then anchor_by_key s parentDom prevChildren (nkey nextChildNode) anchor
      else anchor
  end.

(** The backwards loop filling [anchors]: the result lists [anchors[0]]
    to [anchors[n]], the last being [null]. *)
Fixpoint compute_anchors
    (step : option nat → option (VNode * option Instance) → option nat)
    (slots : list (VNode * option Instance)) : list (option nat) :=
  match slots with
  | [] => [None]
  | _ :: rest =>
      let anchors := compute_anchors step rest in
      step (mjoin (head anchors)) (head rest) :: anchors
  end.

(** *** updateHost *)

(** The move of a keyed child whose first node [currentDom] is a child of
    [dom] (lines 472-597 of the source). *)
Definition moveKeyedChild (dom i currentDom : nat) (anchor : option nat) : M unit :=
  s ← get;
  let currentNextSibling := Dom.nextSibling s currentDom in
  match anchor with
  | Some a =>
      let anchorPrevSibling := Dom.previousSibling s a in
      let currentPrevSibling := Dom.previousSibling s currentDom in
      let needsMove :=
        negb (bool_decide (currentNextSibling = Some a))
        || negb (bool_decide (Some currentDom = anchorPrevSibling))
        || bool_decide (is_Some currentPrevSibling) in
      if needsMove then
        if negb (bool_decide (Some currentDom = anchorPrevSibling))
           || bool_decide (is_Some currentPrevSibling)
        then
          if bool_decide (is_Some currentPrevSibling) && bool_decide (i = 0) then
            match Dom.firstElementChild s dom with
            | Some firstChild =>
                if bool_decide (firstChild = currentDom) then mret tt
                else Dom.insertBefore dom currentDom firstChild
            | None => mret tt
            end
          else Dom.insertBefore dom currentDom a
        else mret tt
      else mret tt
  | None =>
      if bool_decide (is_Some currentNextSibling) then Dom.appendChild dom currentDom
      else mret tt
  end.

(** [childInstance.path = childPath] after the recursive call. *)
Definition fix_path (childPath : string) (childInstance : option Instance)
    : option Instance :=
  match childInstance with
  | Some ci =>
      if bool_decide (ipath ci = childPath) then Some ci
      else Some (set_ipath childPath ci)
  | None => None
  end.

(** One iteration of the main loop of [updateHost]. *)
Definition updateHostChild (dom : nat) (path : string) (i : nat) (childNode : VNode)
    (childInstance : option Instance) (anchor : option nat) : M (option Instance) :=
  let childKey := nkey childNode in
  let childPath := childPathOf path i childNode in
  _ ← match childInstance, childKey with
      | Some ci, Some k =>
          if bool_decide (ikey ci = Some k) then
            match getFirstDom ci with
            | Some currentDom =>
                s ← get;
                if bool_decide (Dom.parentNode s currentDom = Some dom)
                then moveKeyedChild dom i currentDom anchor
                else mret tt
            | None => mret tt
            end
          else mret tt
      | _, _ => mret tt
      end;
  childInstance ← reconcile dom childInstance (Some childNode) childPath anchor;
  mret (fix_path childPath childInstance).

Fixpoint updateHostChildren (dom : nat) (path : string) (i : nat)
    (slots : list (VNode * option Instance * option nat)) : M (list (option Instance)) :=
  match slots with
  | [] => mret []
  | (childNode, childInstance, anchor) :: rest =>
      newChild ← updateHostChild dom path i childNode childInstance anchor;
      more ← updateHostChildren dom path (S i) rest;
      mret (newChild :: more)
  end.

(** [keyedMap.delete(childKey)] for every slot with a matched instance
    and a key. *)
Fixpoint remaining_keyed (keyedMap : list (string * Instance))
    (slots : list (VNode * option Instance)) : list (string * Instance) :=
  match slots with
  | [] => keyedMap
  | (childNode, childInstance) :: rest =>
      match childInstance, nkey childNode with
      | Some _, Some childKey => remaining_keyed (Amap.delete childKey keyedMap) rest
      | _, _ => remaining_keyed keyedMap rest
      end
  end.

(** The two removal loops that end [updateHost] and [updateFragment]. *)
Definition removeUnused (parentDom : nat) (prevChildren : list (option Instance))
    (used : gset nat) (keyedMap : list (string * Instance)) : M unit :=
  _ ← for_each prevChildren (λ child,
        match child with
        | Some c =>
            if is_used used c then mret tt
            else removeNodes parentDom (getDomNodes c)
        | None => mret tt
        end);
  for_each keyedMap (λ kv, removeNodes parentDom (getDomNodes kv.2)).

Definition updateHost (parentDom : nat) (instance : Instance) (node : VNode)
    (path : string) : M Instance :=
  match idom instance with
  | None => raise
  | Some dom =>
      _ ← updateDomProps dom (nprops (inode instance)) (nprops node);
      _ ← (let ref := prop_get "ref" (nprops node) in
           when (truthy ref
                 && negb (Object_is ref (prop_get "ref" (nprops (inode instance)))))
                (set_ref ref dom));
      let prevChildren := ichildren instance in
      let nextChildren := children_or_empty node in
      let keyedMap := build_keyedMap prevChildren [] in
      let '(childInstances, usedPrevChildren) :=
        matchChildrenHost path prevChildren nextChildren in
      let slots := zip nextChildren childInstances in
      s ← get;
      let anchors := compute_anchors (anchorHost s dom prevChildren) slots in
      newChildren ← updateHostChildren dom path 0 (zip slots anchors);
      _ ← removeUnused dom prevChildren usedPrevChildren (remaining_keyed keyedMap slots);
      mret (set_ipath path (set_ichildren newChildren (set_inode node instance)))
  end.

(** *** Fragments *)

(** The backwards loop of [mountFragment]; returns the instances in
    child order and the final [currentAnchor]. *)
Fixpoint mountFragmentChildren (parentDom : nat) (path : string) (i : nat)
    (childNodes : list VNode) (anchor : option nat)
    : M (list (option Instance) * option nat) :=
  match childNodes with
  | [] => mret ([], anchor)
  | childNode :: rest =>
      later ← mountFragmentChildren parentDom path (S i) rest anchor;
      let '(more, currentAnchor) := later in
      childInstance ← reconcile parentDom None (Some childNode)
                        (childPathOf path i childNode) currentAnchor;
      mret (childInstance :: more,
            match childInstance with
            | Some ci =>
                match getFirstDom ci with
                | Some childDom => Some childDom
                | None => currentAnchor
                end
            | None => currentAnchor
            end)
  end.

Definition mountFragment (parentDom : nat) (node : VNode) (path : string)
    (anchor : option nat) : M Instance :=
  mounted ← mountFragmentChildren parentDom path 0 (children_or_empty node) anchor;
  addr ← fresh_addr;
  let instance := mkInstance addr KFragment None node mounted.1 (nkey node) path in
  mret (set_idom (getFirstDom instance) instance).

Fixpoint updateFragmentChildren (parentDom : nat) (path : string) (i : nat)
    (slots : list (VNode * option Instance * option nat)) : M (list (option Instance)) :=
  match slots with
  | [] => mret []
  | (childNode, childInstance, anchor) :: rest =>
      let childPath := childPathOf path i childNode in
      newChild ← reconcile parentDom childInstance (Some childNode) childPath anchor;
      more ← updateFragmentChildren parentDom path (S i) rest;
      mret (fix_path childPath newChild :: more)
  end.

Definition updateFragment (parentDom : nat) (instance : Instance) (node : VNode)
    (path : string) : M Instance :=
  let prevChildren := ichildren instance in
  let nextChildren := children_or_empty node in
  let keyedMap := build_keyedMap prevChildren [] in
  let '(childInstances, usedPrevChildren) :=
    matchChildrenFragment path prevChildren nextChildren in
  let slots := zip nextChildren childInstances in
  s ← get;
  let anchors := compute_anchors (anchorFragment s parentDom prevChildren) slots in
  newChildren ← updateFragmentChildren parentDom path 0 (zip slots anchors);
  _ ← removeUnused parentDom prevChildren usedPrevChildren (remaining_keyed keyedMap slots);
  let instance := set_ichildren newChildren (set_inode node instance) in
  let instance := set_idom (getFirstDom instance) instance in
  mret (set_ipath path instance).

(** *** Text *)

Definition mountText (parentDom : nat) (node : VNode) (anchor : option nat)
    : M Instance :=
  textNode ← Dom.createTextNode (String_of (prop_get "nodeValue" (nprops node)));
  _ ← match anchor with
      | Some a => Dom.insertBefore parentDom textNode a
      | None => Dom.appendChild parentDom textNode
      end;
  addr ← fresh_addr;
  mret (mkInstance addr KText (Some textNode) node [] (nkey node) "").

(** [text.nodeValue = v]: [null] and [undefined] are written as the empty
    string. *)
Definition nodeValue_of (v : Value) : string :=
  if not_nullish v then String_of v else "".

Definition updateText (instance : Instance) (node : VNode) : M Instance :=
  _ ← match idom instance with
      | Some dom => Dom.setNodeValue dom (nodeValue_of (prop_get "nodeValue" (nprops node)))
      | None => mret tt
      end;
  mret (set_inode node instance).

(** *** reconcile *)

(** The mount dispatch shared by steps 2 and 3 of [reconcile]. *)
Definition mountNode (parentDom : nat) (node : VNode) (path : string)
    (anchor : option nat) : M (option Instance) :=
  match ntype node with
  | TText => Some <$> mountText parentDom node anchor
  | TFragment => Some <$> mountFragment parentDom node path anchor
  | TComponent _ => mountComponent parentDom node path anchor
  | THost _ => Some <$> mountHost parentDom node path anchor
  end.

(** The body of [reconcile]. *)
Definition reconcile_body : Reconcile := λ parentDom instance node path anchor,
  match node with
  | None =>
      (* 1. no new node: remove the previous instance *)
      _ ← match instance with
          | Some inst =>
              if bool_decide (ikind inst = KFragment) then
                for_each (ichildren inst) (λ child,
                  match child with
                  | Some c => removeNodes parentDom (getDomNodes c)
                  | None => mret tt
                  end)
              else removeInstance parentDom (Some inst)
          | None => mret tt
          end;
      mret None
  | Some node =>
      match instance with
      | None =>
          (* 2. no previous instance: mount *)
          mountNode parentDom node path anchor
      | Some instance =>
          if negb (bool_decide (ntype (inode instance) = ntype node))
             || negb (bool_decide (ikey instance = nkey node))
          then
            (* 3. type or key differs: remove, then mount *)
            _ ← removeInstance parentDom (Some instance);
            mountNode parentDom node path anchor
          else
            (* 4. same type and key: update *)
            updatedInstance ←
              match ntype node with
              | TText => updateText instance node
              | TFragment => updateFragment parentDom instance node path
              | TComponent _ => updateComponent parentDom instance node path
              | THost _ => updateHost parentDom instance node path
              end;
            let oldPath := ipath updatedInstance in
            _ ← when (negb (bool_decide (oldPath = path))
                      && bool_decide (ikind updatedInstance = KComponent))
                     (migrate oldPath path);
            mret (Some (set_ipath path updatedInstance))
      end
  end.

End Functions.

(** [reconcile] with a recursion allowance: [fuel] bounds the nesting
    depth of the recursive calls. *)
Fixpoint reconcile (components : nat → Component) (fuel : nat) : Reconcile :=
  match fuel with
  | 0 => λ _ _ _ _ _, starve
  | S fuel' => reconcile_body components (reconcile components fuel')
  end.

End Reconciler.
Export Reconciler.

(** ** render.ts *)

Module Render.

(** One iteration of the loop of [flushEffects], after [queue.shift()].
    ["kind" in hook] throws a TypeError on a truthy primitive. *)
Definition flushEntry (path : string) (cursor : nat) : M unit :=
  s ← get;
  match Amap.get path (hooks_state s) with
  | Some hooks =>
      match hooks !! cursor with
      | Some (VEffect addr deps cleanup effect) =>
          _ ← match cleanup with
              | Some c => call_cleanup c
              | None => mret tt
              end;
          returned ← call_effect effect;
          let cleanup' := match returned with
                          | RetCleanup c => Some c
                          | RetOther => None
                          end in
          modify (upd_hooks_state (λ m,
            match Amap.get path m with
            | Some hooks => Amap.set path (<[cursor := VEffect addr deps cleanup' effect]> hooks) m
            | None => m
            end))
      | Some (VBool true) | Some (VStr (String _ _)) => raise
      | Some (VNum z) => if bool_decide (z = 0%Z) then mret tt else raise
      | _ => mret tt
      end
  | None => mret tt
  end.

(** [while (queue.length > 0) { const { path, cursor } = queue.shift()!; ... }];
    [pending] is the queue at loop entry. *)
Fixpoint flushQueue (pending : list (string * nat)) : M unit :=
  match pending with
  | [] => mret tt
  | (path, cursor) :: rest =>
      _ ← modify (upd_queue (λ _, rest));
      _ ← flushEntry path cursor;
      flushQueue rest
  end.

Definition flushEffects : M unit :=
  queue ← gets effects_queue;
  flushQueue queue.

(** Modelled from the spec: [enqueue] of [utils] schedules its argument as
    "a separate deferred unit of work"; the call is counted. *)
Definition enqueue_flushEffects : M unit :=
  modify (upd_flush_scheduled S).

Definition render (components : nat → Component) (fuel : nat) : M unit :=
  s ← get;
  match root_container s, root_node s with
  | Some container, Some node =>
      (* 1. reset the hook context: the slots stay, the cursors go *)
      _ ← modify (upd_cursor (λ _, ∅));
      _ ← modify (upd_stack (λ _, []));
      _ ← modify (upd_queue (λ _, []));
      (* 2. reconcile the root *)
      newInstance ← reconcile components fuel container (root_instance s) (Some node) "0" None;
      (* 3. replace the root instance *)
      _ ← modify (upd_root_instance newInstance);
      (* 4. purge the hooks of unvisited paths *)
      _ ← cleanupUnusedHooks;
      (* 5. run the effects later *)
      enqueue_flushEffects
  | _, _ => mret tt
  end.

(** Modelled from the spec: the pending render of [withEnqueue] runs in a
    later tick, after which a new request can be scheduled. *)
Definition runPendingRender (components : nat → Component) (fuel : nat) : M unit :=
  try_finally (render components fuel) (modify (λ s, upd_render false (render_requests s) s)).

End Render.
Export Render.

(** ** Running the model *)

Module Run.

Definition initial_state : State :=
  mkState {[0 := mkDomNode (Some "div") "" None [] []]} 1 [] [] ∅ ∅ [] [] 0 ∅ []
          false 0 0 None None None.

Definition state_of {A} (r : Res A) : option State :=
  match r with
  | Done _ s => Some s
  | Raised s => Some s
  | Starved => None
  end.

Definition value_of {A} (r : Res A) : option A :=
  match r with
  | Done a _ => Some a
  | _ => None
  end.

Definition host (tag : string) (key : option string) (props : list (string * Value))
    (children : list VNode) : VNode :=
  mkVNode (THost tag) key props (Some children).

Definition no_components : nat → Component :=
  λ _, mkComponent "" (λ _ _, mret RNull).

End Run.
Export Run.


(** * Concrete programs and states *)

Module Examples.

Definition text_of (v : Value) : RawNode := RNode (text_node (String_of v)).

(** [function A() { const [n] = useState(1); return normalizeNode(String(n)); }]
    and the same with another initial value: two distinct component
    functions that render their state as a text node. *)
Definition CounterA : Component :=
  mkComponent "A" (λ _ _, r ← useState (Eager (VNum 1)); mret (text_of r.1)).
Definition CounterB : Component :=
  mkComponent "B" (λ _ _, r ← useState (Eager (VNum 100)); mret (text_of r.1)).

(** A component with two effects and no dependency list; the body of the
    first throws, the second returns a cleanup. *)
Definition ThrowingEffects : Component :=
  mkComponent "ThrowingEffects" (λ _ _,
    _ ← useEffect (mkEffect 1 None) None;
    _ ← useEffect (mkEffect 2 (Some (RetCleanup (mkCleanup 20 false)))) None;
    mret RNull).

(** A component with two effects whose bodies return a cleanup. *)
Definition TwoEffects : Component :=
  mkComponent "TwoEffects" (λ _ _,
    _ ← useEffect (mkEffect 1 (Some (RetCleanup (mkCleanup 10 false)))) None;
    _ ← useEffect (mkEffect 2 (Some (RetCleanup (mkCleanup 20 false)))) None;
    mret RNull).

Definition program (cid : nat) : Component :=
  match cid with
  | 0 => CounterA
  | 1 => CounterB
  | 2 => ThrowingEffects
  | _ => TwoEffects
  end.

Definition component (cid : nat) : VNode := mkVNode (TComponent cid) None [] None.

(** [setup(rootNode, container)]: container [0], nothing rendered yet. *)
Definition with_root (node : VNode) : State :=
  mkState {[0 := mkDomNode (Some "div") "" None [] []]} 1 [] [] ∅ ∅ [] [] 0 ∅ []
          false 0 0 (Some 0) (Some node) None.

Definition state_after {A} (r : Res A) (otherwise : State) : State :=
  match r with
  | Done _ s => s
  | Raised s => s
  | Starved => otherwise
  end.

(** The context after the first render of a root node. *)
Definition first_render (node : VNode) : State :=
  state_after (render program 8 (with_root node)) (with_root node).

(** C1: component A is rendered at the root, its counter is set to 5. *)
Definition counterA_at_5 : State :=
  state_after (setState (mkSetter "0" 0) (Direct (VNum 5)) (first_render (component 0)))
              (with_root (component 0)).

(** C7, C8: the context after a render that queued two effects. *)
Definition two_effects_queued : State := first_render (component 3).
Definition throwing_effect_queued : State := first_render (component 2).

(** C6: the same context once the two effects have run and left their
    cleanups in the store; nothing is marked visited. *)
Definition two_effects_flushed : State :=
  state_after (flushEffects two_effects_queued) two_effects_queued.

(** C2, C3: [<div><p key="a">A</p><p key="b"/><p key="c"/></div>]. *)
Definition three_keyed : VNode :=
  host "div" None []
    [host "p" (Some "a") [] [text_node "A"];
     host "p" (Some "b") [] [];
     host "p" (Some "c") [] []].

(** [<div><span/>hello</div>] *)
Definition span_and_text : VNode :=
  host "div" None [] [host "span" None [] []; text_node "hello"].


Definition mounted (node : VNode) : Res (option Instance) :=
  reconcile no_components 8 0 None (Some node) "0" None initial_state.



(** C4: one previous child [<p/>] at index 0; the next children are
    [<div/>, <p/>, <span/>], so the [<p/>] has moved to index 1. *)
Definition one_p : list VNode := [host "p" None [] []].
Definition div_p_span : list VNode :=
  [host "div" None [] []; host "p" None [] []; host "span" None [] []].

(** C9: [<div><A/>x</div>], and the nodes met when it is mounted: the tree
    itself, the component node, and text nodes. *)
Definition counter_box : VNode :=
  host "div" None [] [component 0; text_node "x"].


Definition children_of (r : Res (option Instance)) : list (option Instance) :=
  match r with
  | Done (Some inst) _ => ichildren inst
  | _ => []
  end.

Definition host_prev : list (option Instance) :=
  children_of (mounted (host "div" None [] one_p)).
Definition fragment_prev : list (option Instance) :=
  children_of (mounted (mkVNode TFragment None [] (Some one_p))).

End Examples.
Export Examples.

(** * Vocabulary of the statements *)

Module Spec.

(** The cleanups stored in the effect slots of a slot sequence, in slot
    order. *)
Definition hook_cleanups (hooks : list Value) : list Cleanup :=
  omap (λ h, match h with VEffect _ _ (Some c) _ => Some c | _ => None end) hooks.

Definition cleanup_events (cs : list Cleanup) : list Event :=
  (λ c, EvCleanup (cl_id c)) <$> cs.

(** The store entries whose path was not visited in the pass. *)
Definition stale_entries (s : State) : list (string * list Value) :=
  filter (λ e, e.1 ∉ hooks_visited s) (hooks_state s).

Definition stale_cleanups (s : State) : list Cleanup :=
  stale_entries s ≫= (λ e, hook_cleanups e.2).

(** The context right after [mountComponent] has pushed [path], reset its
    cursor and marked it visited, that is, when the component function
    starts. *)
Definition enter_component (path : string) (s : State) : State :=
  upd_visited (λ v, {[path]} ∪ v)
    (upd_cursor (λ m, <[path := 0]> m)
       (upd_stack (λ st, (st ++ [path])%list) s)).

(** The value a state slot is created with. *)
Definition initial_value (init : Initial) : Value :=
  match init with
  | Eager v => v
  | Lazy thunk => thunk tt
  end.

(** The context as [render] prepares it before it calls [reconcile]. *)
Definition reset_pass (s : State) : State :=
  upd_queue (λ _, []) (upd_stack (λ _, []) (upd_cursor (λ _, ∅) s)).

(** The effect hook object a queue entry addresses, if there is one. *)
Definition effect_slot (s : State) (entry : string * nat)
    : option (nat * option (list Value) * option Cleanup * Effect) :=
  match Amap.get entry.1 (hooks_state s) with
  | Some hooks =>
      match hooks !! entry.2 with
      | Some (VEffect addr deps cleanup effect) => Some (addr, deps, cleanup, effect)
      | _ => None
      end
  | None => None
  end.

(** The closure calls one queue entry stands for: the stored cleanup, if
    any, then the effect body. *)
Definition entry_events (s : State) (entry : string * nat) : list Event :=
  match effect_slot s entry with
  | Some (_, _, cleanup, effect) =>
      (cleanup_events (option_list cleanup) ++ [EvEffect (ef_id effect)])%list
  | None => []
  end.

(** The cleanup an effect body hands back. *)
Definition returned_cleanup (e : Effect) : option Cleanup :=
  match ef_result e with
  | Some (RetCleanup c) => Some c
  | _ => None
  end.

Definition cleanup_returns (c : option Cleanup) : bool :=
  negb (from_option cl_throws false c).

(** The entry addresses an effect slot whose stored cleanup and body both
    return. *)
Definition runs_cleanly (s : State) (entry : string * nat) : bool :=
  match effect_slot s entry with
  | Some (_, _, cleanup, effect) =>
      cleanup_returns cleanup && bool_decide (is_Some (ef_result effect))
  | None => false
  end.

(** The entry addresses an effect slot whose stored cleanup returns and
    whose body throws. *)
Definition body_throws (s : State) (entry : string * nat) : bool :=
  match effect_slot s entry with
  | Some (_, _, cleanup, effect) =>
      cleanup_returns cleanup && negb (bool_decide (is_Some (ef_result effect)))
  | None => false
  end.

(** The render-target call that [updateHost] makes for a keyed child whose
    first node [cur] is a child of [dom], slot index [i], anchor [anchor];
    [None] when the node is left where it is. *)
Definition keyed_move (s : State) (dom i cur : nat) (anchor : option nat) : option DomOp :=
  match anchor with
  | None =>
      if bool_decide (is_Some (Dom.nextSibling s cur)) then Some (OpAppendChild dom cur)
      else None
  | Some a =>
      if bool_decide (Dom.previousSibling s a = Some cur)
         && bool_decide (Dom.previousSibling s cur = None)
      then None
      else if bool_decide (is_Some (Dom.previousSibling s cur)) && bool_decide (i = 0) then
        match Dom.firstElementChild s dom with
        | Some firstChild =>
            if bool_decide (firstChild = cur) then None
            else Some (OpInsertBefore dom cur firstChild)
        | None => None
        end
      else Some (OpInsertBefore dom cur a)
  end.









(** The computation returns or throws: it is not cut off by the recursion
    allowance. *)
Definition halts_at {A} (m : M A) (s : State) : Prop := m s ≠ Starved.




(** The context after the collection has purged [paths] and logged [evs]. *)
Definition gc_result (paths : list string) (evs : list Event) (s : State) : State :=
  upd_cursor (λ m, foldl (λ m p, delete p m) m paths)
    (upd_hooks_state (λ st, foldl (λ st p, Amap.delete p st) st paths)
       (upd_trace (λ t, (t ++ evs)%list) s)).

(** The store entries whose path is not in the marker set [V]. *)
Definition stale_of (V : gset string) (entries : list (string * list Value))
    : list (string * list Value) :=
  filter (λ e, e.1 ∉ V) entries.

(** The context after the flush has run the queue entry [entry], whose slot
    held [cleanup] and [effect]. *)
Definition after_entry (entry : string * nat) (hooks : list Value) (addr : nat)
    (deps : option (list Value)) (cleanup : option Cleanup) (effect : Effect)
    (s : State) : State :=
  upd_hooks_state
    (Amap.set entry.1 (<[entry.2 := VEffect addr deps (returned_cleanup effect) effect]> hooks))
    (upd_trace (λ t, (t ++ cleanup_events (option_list cleanup)
                        ++ [EvEffect (ef_id effect)])%list) s).


(** The character that separates type name and index in an unkeyed path. *)
Definition underscore : Ascii.ascii := Eval cbv in Ascii.ascii_of_nat 95.

Fixpoint has_char (c : Ascii.ascii) (s : string) : bool :=
  match s with
  | EmptyString => false
  | String a rest => bool_decide (a = c) || has_char c rest
  end.

(** The suffix [createChildPath] appends for an unkeyed child. *)
Definition unkeyed_suffix (index : nat) (nodeType : PathType) : string :=
  match nodeType with
  | PAbsent | PString "" => "i" ++ string_of_nat index
  | PString s => "c" ++ s ++ "_" ++ string_of_nat index
  | PSymbol => "c" ++ "Unknown" ++ "_" ++ string_of_nat index
  | PFunction name =>
      "c" ++ (if bool_decide (name = "") then "Component" else name)
          ++ "_" ++ string_of_nat index
  end.











End Spec.
Export Spec.

(** * elements.ts: [flattenChildren] and [createElement] *)

Module Jsx.

(** What is passed to [createElement] as a child, or as [props.children]:
    a primitive, a node, or an array of such values. *)
Inductive Child :=
| CNull
| CUndefined
| CBool (b : bool)
| CNum (z : Z)
| CStr (s : string)
| CNode (n : VNode)
| CArray (items : list Child).

(** The same value as [normalizeNode] and [isEmptyValue] see it. *)
Definition raw_of (c : Child) : RawNode :=
  match c with
  | CNull => RNull
  | CUndefined => RUndefined
  | CBool b => RBool b
  | CNum z => RNum z
  | CStr s => RStr s
  | CNode n => RNode n
  | CArray _ => RArray
  end.

(** One iteration of the loop of [flattenChildren]; the inner loop is the
    recursive call [flattenChildren(child)] on an array. *)
Fixpoint flattenChild (child : Child) : list VNode :=
  match child with
  | CArray items =>
      (fix flatten (cs : list Child) : list VNode :=
         match cs with
         | [] => []
         | c :: rest => (flattenChild c ++ flatten rest)%list
         end) items
  | _ =>
      if negb (isEmptyValue (raw_of child))
      then option_list (normalizeNode (raw_of child))
      else []
  end.

Fixpoint flattenChildren (children : list Child) : list VNode :=
  match children with
  | [] => []
  | child :: rest => (flattenChild child ++ flattenChildren rest)%list
  end.

(** The [originProps] object: its own properties other than [children], in
    insertion order ([key] among them), and the [children] property if it
    has one. *)
Record Props := mkProps {
  entries : list (string * Value);
  children_prop : option Child;
}.

(** [props.key ?? null].  A key that is not a string is kept as the string
    that the template literal of [createChildPath] makes of it. *)
Definition key_of (v : Value) : option string :=
  match v with
  | VUndef | VNull => None
  | VStr k => Some k
  | v => Some (String_of v)
  end.

(** [createElement(type, originProps, ...rawChildren)]; the function
    edits [originProps] in place and returns it as the props of the
    element, the result below is that object.  A falsy [children] property
    that the function leaves in place on a component element reads as an
    absent one. *)
Definition createElement (type : NodeType) (originProps : option Props)
    (rawChildren : list Child) : VNode :=
  let props := default (mkProps [] None) originProps in
  let children := flattenChildren rawChildren in
  let children :=
    match children_prop props with
    | Some c =>
        if raw_truthy (raw_of c) then
          match c with
          | CArray items => (children ++ flattenChildren items)%list
          | _ => (children ++ option_list (normalizeNode (raw_of c)))%list
          end
        else children
    | None => children
    end in
  let isComponent := match type with TComponent _ => true | _ => false end in
  let children_field :=
    if isComponent then
      match children with
      | [] => None
      | _ => Some children
      end
    else Some children in
  let key := key_of (prop_get "key" (entries props)) in
  let entries' :=
    match prop_get "key" (entries props) with
    | VUndef => entries props
    | _ => filter (λ kv, kv.1 ≠ "key") (entries props)
    end in
  mkVNode type key entries' children_field.

End Jsx.

(** * Vocabulary of the further properties *)

Module Notions.

(** The component at [path] is being invoked and has made [cursor] hook
    calls so far: [path] is on top of the active-path stack and its cursor
    stands at [cursor]. *)
Definition in_component (path : string) (cursor : nat) (s : State) : Prop :=
  last (hooks_componentStack s) = Some path
  ∧ default 0 (hooks_cursor s !! path) = cursor.

(** The slot sequence stored for [path], empty when there is none. *)
Definition slots_of (path : string) (s : State) : list Value :=
  default [] (Amap.get path (hooks_state s)).


(** The value a setter call stores: the argument, or the updater applied to
    the stored value. *)
Definition next_value (next : NextValue) (stored : Value) : Value :=
  match next with
  | Direct v => v
  | Updater f => f stored
  end.

(** A queue entry that the flush passes over: its path has no slots, or
    its slot is missing, falsy, a function or a plain object. *)
Definition dead_entry (s : State) (entry : string * nat) : bool :=
  match Amap.get entry.1 (hooks_state s) with
  | None => true
  | Some hooks =>
      match hooks !! entry.2 with
      | None => true
      | Some v =>
          negb (truthy v) || match v with VFun _ | VObj _ _ => true | _ => false end
      end
  end.

(** A queue entry whose slot holds a truthy primitive. *)
Definition primitive_entry (s : State) (entry : string * nat) : bool :=
  match Amap.get entry.1 (hooks_state s) with
  | None => false
  | Some hooks =>
      match hooks !! entry.2 with
      | Some (VBool true) => true
      | Some (VNum z) => negb (bool_decide (z = 0%Z))
      | Some (VStr str) => negb (bool_decide (str = ""))
      | _ => false
      end
  end.





(** What the handler slot [name] holds after the prop [(key, value)] has
    been applied, when it held [old] before. *)
Definition slot_step (name : string) (old : Value) (kv : string * Value) : Value :=
  if isEventProp kv.1 && bool_decide (event_slot (normalizeEventName kv.1) = name)
  then kv.2 else old.

(** The computation returns, leaves the shape of the render target alone,
    and treats the handler slots of [dom] as applying [props] does. *)
Definition applies_props (dom : nat) (props : list (string * Value)) (m : M unit) : Prop :=
  ∀ s, ∃ s', m s = Done tt s'
             ∧ ∀ name, starts_with "__" name = true →
                 Dom.getField s' dom name = foldl (slot_step name) (Dom.getField s dom name) props.

(** The computation returns and only appends to the mutation log. *)
Definition appends_log {A} (m : M A) : Prop :=
  ∀ s, ∃ a s' l, m s = Done a s' ∧ dom_log s' = (dom_log s ++ l)%list.

(** The computation returns and leaves the handler slots of [dom] as they
    were. *)
Definition keeps_slots {A} (dom : nat) (m : M A) : Prop :=
  ∀ s, ∃ a s', m s = Done a s'
               ∧ ∀ name, starts_with "__" name = true →
                   Dom.getField s' dom name = Dom.getField s dom name.

(** [n] is one of [nodes] and a child of [parentDom] in [s]: the nodes
    that a removal loop over [nodes] takes out of [parentDom]. *)
Definition removed_from (s : State) (parentDom : nat) (nodes : list nat) (n : nat) : Prop :=
  n ∈ nodes ∧ Dom.parentNode s n = Some parentDom.

(** [childNodes] of a node. *)
Definition childNodes (s : State) (n : nat) : list nat :=
  dn_children (Dom.node_of s n).

(** The instance and the context that mounting [node] into the empty
    container gives. *)
Definition mounted_instance (node : VNode) : Instance :=
  match mounted node with
  | Done (Some inst) _ => inst
  | _ => mkInstance 0 KText None node [] None ""
  end.

Definition mounted_state (node : VNode) : State :=
  state_after (mounted node) initial_state.

(** The [dom] fields of an instance tree are accurate: a Host or Text
    instance has its node, and a Fragment or Component instance has no
    cached node or the first of its render-target nodes. *)
Fixpoint dom_cached (instance : Instance) : bool :=
  let 'mkInstance _ kind dom _ children _ _ := instance in
  match kind with
  | KHost | KText => bool_decide (is_Some dom)
  | KFragment | KComponent =>
      bool_decide (dom = None ∨ dom = head (getDomNodes instance))
      && (fix all (cs : list (option Instance)) : bool :=
            match cs with
            | [] => true
            | Some child :: rest => dom_cached child && all rest
            | None :: rest => all rest
            end) children
  end.

(** [function Toggle() { const [on] = useState(false);
    return on ? <p/> : <span/>; }], rendered at the root; then its state is
    set to [true] and the root is rendered again. *)
Definition Toggle : Component :=
  mkComponent "Toggle" (λ _ _,
    r ← useState (Eager (VBool false));
    mret (RNode (if truthy r.1 then host "p" None [] [] else host "span" None [] []))).

Definition toggle_program : nat → Component := λ _, Toggle.

Definition toggle_rendered : State :=
  state_after (render toggle_program 8 (with_root (component 0))) initial_state.
Definition toggle_switched : State :=
  state_after (setState (mkSetter "0" 0) (Direct (VBool true)) toggle_rendered) initial_state.
Definition toggle_rerendered : State :=
  state_after (render toggle_program 8 toggle_switched) initial_state.

(** The children that an element is given through its [children] property:
    the items of an array, a single value otherwise.  A property that holds
    [0] or the empty string gives none. *)
Definition prop_children (props : option Jsx.Props) : list Jsx.Child :=
  match props ≫= Jsx.children_prop with
  | Some (Jsx.CArray items) => items
  | Some (Jsx.CNum 0) | Some (Jsx.CStr "") => []
  | Some c => [c]
  | None => []
  end.

Definition is_component (type : NodeType) : bool :=
  match type with
  | TComponent _ => true
  | _ => false
  end.

(** The non-array values of a list of children, left to right, arrays
    opened at every depth. *)
Fixpoint leaves_of (c : Jsx.Child) : list Jsx.Child :=
  match c with
  | Jsx.CArray items =>
      (fix go (cs : list Jsx.Child) : list Jsx.Child :=
         match cs with
         | [] => []
         | c :: rest => (leaves_of c ++ go rest)%list
         end) items
  | _ => [c]
  end.

Definition leaves (cs : list Jsx.Child) : list Jsx.Child :=
  cs ≫= leaves_of.

(** What one non-array child becomes: a string or a number a text node of
    its [String], a node itself, anything else nothing. *)
Definition child_node (c : Jsx.Child) : option VNode :=
  match c with
  | Jsx.CStr s => Some (text_node s)
  | Jsx.CNum z => Some (text_node (string_of_Z z))
  | Jsx.CNode n => Some n
  | _ => None
  end.

(** [m] leaves [view] of the context as it found it, whether it returns
    or throws. *)
Definition keeps {T A} (view : State → T) (m : M A) : Prop :=
  ∀ s, match m s with
       | Done _ s' | Raised s' => view s' = view s
       | Starved => True
       end.

(** Every component function of the program does: it may call hooks, but
    does not itself write what [view] shows. *)
Definition bodies_keep {T} (view : State → T) (components : nat → Component) : Prop :=
  ∀ cid props children, keeps view (c_body (components cid) props children).

(** A view of the context that the writes of the reconciler and of the
    hooks do not change, the push and the pop of the stack of active paths
    apart, which cancel out. *)
Record balanced_view {T} (view : State → T) : Prop := mkBalanced {
  view_dom : ∀ f s, view (upd_dom f s) = view s;
  view_dom_next : ∀ f s, view (upd_dom_next f s) = view s;
  view_log : ∀ f s, view (upd_log f s) = view s;
  view_hooks_state : ∀ f s, view (upd_hooks_state f s) = view s;
  view_cursor : ∀ f s, view (upd_cursor f s) = view s;
  view_visited : ∀ f s, view (upd_visited f s) = view s;
  view_queue : ∀ f s, view (upd_queue f s) = view s;
  view_heap_next : ∀ f s, view (upd_heap_next f s) = view s;
  view_refs : ∀ f s, view (upd_refs f s) = view s;
  view_scope : ∀ path s s',
    view s' = view (upd_stack (λ st, (st ++ [path])%list) s) →
    view (upd_stack (λ st, removelast st) s') = view s;
}.







End Notions.
Export Notions.

(** * Properties *)

Ltac state_simpl :=
  cbn [upd_dom upd_dom_next upd_log upd_hooks_state upd_cursor upd_visited
       upd_stack upd_queue upd_heap_next upd_refs upd_trace upd_render
       upd_flush_scheduled upd_root_instance
       dom_nodes dom_next dom_log hooks_state hooks_cursor hooks_visited
       hooks_componentStack effects_queue heap_next refs trace render_scheduled
       render_requests flush_scheduled root_container root_node root_instance].

Ltac unfold_state := state_simpl.

Tactic Notation "state_simpl" "in" hyp(H) :=
  cbn [upd_dom upd_dom_next upd_log upd_hooks_state upd_cursor upd_visited
       upd_stack upd_queue upd_heap_next upd_refs upd_trace upd_render
       upd_flush_scheduled upd_root_instance
       dom_nodes dom_next dom_log hooks_state hooks_cursor hooks_visited
       hooks_componentStack effects_queue heap_next refs trace render_scheduled
       render_requests flush_scheduled root_container root_node root_instance] in H.

Ltac munfold :=
  unfold mbind, M_bind, mret, M_ret, fmap, M_fmap, get, gets, modify, raise, when.

Lemma for_each_cons {A} (x : A) xs (body : A → M unit) s :
  for_each (x :: xs) body s
  = match body x s with
    | Done _ s' => for_each xs body s'
    | Raised s' => Raised s'
    | Starved => Starved
    end.
Proof. reflexivity. Qed.

(** ** Association maps and slots *)

Section AmapFacts.
Context {V : Type}.
Implicit Types (m : list (string * V)) (k : string).

Lemma Amap_get_set_eq k v m : Amap.get k (Amap.set k v m) = Some v.
Proof.
  induction m as [|[k' v'] m IH]; simpl.
  - by rewrite bool_decide_eq_true_2.
  - destruct (bool_decide (k' = k)) eqn:E; simpl; rewrite E; auto.
Qed.

Lemma Amap_get_set_ne k k' v m : k ≠ k' → Amap.get k' (Amap.set k v m) = Amap.get k' m.
Proof.
  intros Hne. induction m as [|[k0 v0] m IH]; simpl.
  - by rewrite bool_decide_eq_false_2.
  - destruct (bool_decide (k0 = k)) eqn:E; simpl.
    + apply bool_decide_eq_true_1 in E. subst k0.
      by rewrite !bool_decide_eq_false_2.
    + destruct (bool_decide (k0 = k')); auto.
Qed.

Lemma Amap_get_delete_eq k m : Amap.get k (Amap.delete k m) = None.
Proof.
  unfold Amap.delete. induction m as [|[k0 v0] m IH]; simpl; auto.
  rewrite filter_cons. simpl. destruct (decide (k0 = k)) as [->|Hk].
  - rewrite decide_False by (intros H; by apply H). done.
  - rewrite decide_True by done. simpl. by rewrite bool_decide_eq_false_2.
Qed.

Lemma Amap_get_delete_ne k k' m : k ≠ k' → Amap.get k' (Amap.delete k m) = Amap.get k' m.
Proof.
  intros Hne. unfold Amap.delete. induction m as [|[k0 v0] m IH]; simpl; auto.
  rewrite filter_cons. simpl. destruct (decide (k0 = k)) as [->|Hk].
  - rewrite decide_False by (intros H; by apply H).
    by rewrite bool_decide_eq_false_2.
  - rewrite decide_True by done. simpl. by rewrite IH.
Qed.
End AmapFacts.

Lemma slot_at_write hooks i v : slot_at (slot_write hooks i v) i = v.
Proof.
  unfold slot_at, slot_write. case_bool_decide as Hi.
  - by rewrite list_lookup_insert_eq.
  - rewrite lookup_app_r by lia.
    rewrite lookup_app_r; rewrite length_replicate; [|lia].
    replace (i - length hooks - (i - length hooks)) with 0 by lia. done.
Qed.

(** ** Identity paths *)

(** C10: the identity path of a keyed child is [parentPath ++ ".k" ++ key]
    whatever its index and type, for [createChildPath] itself and for the
    path the reconciler derives for a keyed child node; moving a keyed
    sibling to another index therefore leaves its path as it was. *)
Theorem createChildPath_keyed_ignores_index_and_type :
  ∀ (parentPath key : string) (i j : nat) (t u : PathType),
    createChildPath parentPath (Some key) i t = parentPath ++ ".k" ++ key
    ∧ createChildPath parentPath (Some key) i t
      = createChildPath parentPath (Some key) j u
    ∧ ∀ components ty ty' props props' ch ch',
        childPathOf components parentPath i (mkVNode ty (Some key) props ch)
        = childPathOf components parentPath j (mkVNode ty' (Some key) props' ch').
Proof.
  intros parentPath key i j t u. repeat split.
Qed.

(** ** The state setter *)

(** C5: the setter compares the stored value with the next value (given
    directly or computed by the updater from the stored value) with
    [Object.is] and nothing else.  When they are identical the context is
    left exactly as it was: the slot keeps its value and no render is
    requested.  Otherwise the slot holds the new value afterwards and a
    render is requested.  Two distinct objects are never identical, however
    equal their contents. *)
Theorem setState_identity_check :
  ∀ (setter : Setter) (next : NextValue) (s : State),
    let stored := slot_at (default [] (Amap.get (set_path setter) (hooks_state s)))
                          (set_cursor setter) in
    let new := match next with Direct v => v | Updater f => f stored end in
    (if Object_is stored new
     then setState setter next s = Done tt s
     else ∃ s', setState setter next s = Done tt s'
          ∧ slot_at (default [] (Amap.get (set_path setter) (hooks_state s')))
                    (set_cursor setter) = new
          ∧ render_scheduled s' = true
          ∧ render_requests s' = S (render_requests s))
    ∧ ∀ a b fields fields',
        Object_is (VObj a fields) (VObj b fields') = bool_decide (a = b).
Proof.
  intros [path cursor] next s. cbv zeta. simpl. split; [|done].
  unfold setState, mbind, M_bind, gets. simpl.
  destruct (Object_is _ _) eqn:E; [done|].
  eexists. split; [reflexivity|]. simpl.
  rewrite Amap_get_set_eq. simpl. rewrite slot_at_write. done.
Qed.

(** ** Garbage collection of hook slots *)

Lemma for_each_cleanupHook hooks s :
  Forall (λ c, cl_throws c = false) (hook_cleanups hooks) →
  for_each hooks cleanupHook s
  = Done tt (upd_trace (λ t, (t ++ cleanup_events (hook_cleanups hooks))%list) s).
Proof.
  revert s. induction hooks as [|h hooks IH]; intros s Hok.
  - destruct s. state_simpl. change (cleanup_events (hook_cleanups [])) with (@nil Event).
    by rewrite app_nil_r.
  - rewrite for_each_cons.
    destruct h as [| | | | | | |addr deps [c|] effect];
      try (change (hook_cleanups (_ :: hooks)) with (hook_cleanups hooks) in *;
           cbn [cleanupHook]; munfold; by rewrite IH).
    change (hook_cleanups (VEffect addr deps (Some c) effect :: hooks))
      with (c :: hook_cleanups hooks) in *.
    apply Forall_cons in Hok as [Hc Hok].
    cbn [cleanupHook]. unfold call_cleanup. munfold. state_simpl.
    rewrite Hc. rewrite IH by done.
    destruct s. state_simpl. unfold cleanup_events. cbn [fmap list_fmap].
    by rewrite <- app_assoc.
Qed.

Lemma gc_result_nil s : gc_result [] [] s = s.
Proof. destruct s. unfold gc_result. unfold_state. cbn. by rewrite app_nil_r. Qed.

Lemma cleanupEntry_stale path hooksArray paths evs s :
  path ∉ hooks_visited s →
  Forall (λ c, cl_throws c = false) (hook_cleanups hooksArray) →
  cleanupEntry (path, hooksArray) (gc_result paths evs s)
  = Done tt (gc_result (paths ++ [path])
               (evs ++ cleanup_events (hook_cleanups hooksArray)) s).
Proof.
  intros Hstale Hok. unfold cleanupEntry. munfold.
  replace (hooks_visited (gc_result paths evs s)) with (hooks_visited s) by done.
  rewrite bool_decide_eq_false_2 by done.
  rewrite for_each_cleanupHook by done.
  unfold gc_result. state_simpl. rewrite !foldl_app. cbn [foldl].
  by rewrite <- app_assoc.
Qed.

Lemma cleanupEntry_visited path hooksArray s :
  path ∈ hooks_visited s →
  cleanupEntry (path, hooksArray) s = Done tt s.
Proof.
  intros Hvis. unfold cleanupEntry. munfold.
  by rewrite bool_decide_eq_true_2.
Qed.

Lemma gc_loop entries : ∀ paths evs s,
  Forall (λ c, cl_throws c = false)
         (stale_of (hooks_visited s) entries ≫= (λ e, hook_cleanups e.2)) →
  for_each entries cleanupEntry (gc_result paths evs s)
  = Done tt (gc_result (paths ++ (stale_of (hooks_visited s) entries).*1)
               (evs ++ cleanup_events
                         (stale_of (hooks_visited s) entries ≫= (λ e, hook_cleanups e.2)))
               s).
Proof.
  induction entries as [|[path hooksArray] entries IH]; intros paths evs s Hok.
  - cbn. by rewrite !app_nil_r.
  - rewrite for_each_cons. unfold stale_of in *. rewrite filter_cons in *.
    cbn [fst] in *. revert Hok.
    destruct (decide (path ∉ hooks_visited s)) as [Hstale|Hvis]; intros Hok.
    + cbn in Hok. apply Forall_app in Hok as [Hhere Hrest].
      rewrite cleanupEntry_stale by done. rewrite IH by done.
      cbn. unfold cleanup_events.
      by rewrite fmap_app, <- !app_assoc.
    + apply dec_stable in Hvis.
      rewrite cleanupEntry_visited by done. by apply IH.
Qed.

Lemma filter_ext_in {A} (P Q : A → Prop) `{∀ x, Decision (P x)} `{∀ x, Decision (Q x)}
    (l : list A) :
  (∀ x, x ∈ l → P x ↔ Q x) → filter P l = filter Q l.
Proof.
  induction l as [|x l IH]; intros Hiff; [done|].
  rewrite !filter_cons. rewrite IH by (intros y Hy; apply Hiff; by right).
  assert (P x ↔ Q x) as Hx by (apply Hiff; by left).
  destruct (decide (P x)) as [Hp|Hp], (decide (Q x)) as [Hq|Hq]; try done;
    exfalso; tauto.
Qed.

Lemma filter_all {A} (P : A → Prop) `{∀ x, Decision (P x)} (l : list A) :
  (∀ x, x ∈ l → P x) → filter P l = l.
Proof.
  induction l as [|x l IH]; intros Hall; [done|].
  rewrite filter_cons_True by (apply Hall; by left).
  f_equal. apply IH. intros y Hy. apply Hall. by right.
Qed.

Lemma foldl_Amap_delete {V} (paths : list string) (st : list (string * V)) :
  foldl (λ st p, Amap.delete p st) st paths = filter (λ e, e.1 ∉ paths) st.
Proof.
  revert st. induction paths as [|p paths IH]; intros st; cbn [foldl].
  - symmetry. apply filter_all. intros x _. apply not_elem_of_nil.
  - rewrite IH. unfold Amap.delete. rewrite list_filter_filter.
    apply list_filter_iff. intros x. rewrite not_elem_of_cons. tauto.
Qed.

Lemma foldl_delete_lookup (paths : list string) (m : gmap string nat) p :
  foldl (λ m p, delete p m) m paths !! p = if decide (p ∈ paths) then None else m !! p.
Proof.
  revert m. induction paths as [|q paths IH]; intros m; cbn [foldl].
  - rewrite decide_False by apply not_elem_of_nil. done.
  - rewrite IH. destruct (decide (p = q)) as [->|Hne].
    + rewrite lookup_delete_eq. rewrite (decide_True (P := q ∈ q :: paths)) by (by left).
      by destruct (decide _).
    + rewrite lookup_delete_ne by done.
      destruct (decide (p ∈ paths)) as [Hin|Hin].
      * by rewrite decide_True by (by right).
      * rewrite decide_False; [done|]. rewrite not_elem_of_cons. done.
Qed.

Lemma Amap_get_filter {V} (S : gset string) (st : list (string * V)) p :
  Amap.get p (filter (λ e, e.1 ∈ S) st) = if decide (p ∈ S) then Amap.get p st else None.
Proof.
  induction st as [|[k v] st IH].
  - cbn [Amap.get]. rewrite filter_nil. by destruct (decide _).
  - rewrite filter_cons. cbn [fst Amap.get]. destruct (decide (k ∈ S)) as [Hk|Hk].
    + cbn [Amap.get]. destruct (bool_decide (k = p)) eqn:E.
      * apply bool_decide_eq_true_1 in E. subst. by rewrite decide_True.
      * done.
    + rewrite IH. destruct (decide (p ∈ S)) as [Hp|Hp]; [|done].
      rewrite bool_decide_eq_false_2; [done|]. intros ->. done.
Qed.

Lemma Amap_get_elem_of {V} (st : list (string * V)) k v :
  (k, v) ∈ st → is_Some (Amap.get k st).
Proof.
  induction st as [|[k' v'] st IH]; intros Hin.
  - by apply elem_of_nil in Hin.
  - cbn [Amap.get]. destruct (bool_decide (k' = k)) eqn:E; [done|].
    apply IH. apply elem_of_cons in Hin as [Heq|Hin]; [|done].
    inversion Heq; subst. by rewrite bool_decide_eq_true_2 in E.
Qed.

Lemma Amap_get_Some_elem_of {V} (st : list (string * V)) k v :
  Amap.get k st = Some v → (k, v) ∈ st.
Proof.
  induction st as [|[k' w] st IH]; [done|].
  cbn [Amap.get]. destruct (bool_decide (k' = k)) eqn:E.
  - apply bool_decide_eq_true_1 in E. intros [= ->]. subst. by left.
  - intros Hget. right. by apply IH.
Qed.

Lemma useState_fresh init path s :
  Amap.get path (hooks_state s) = None →
  ∃ s', useState init (enter_component path s)
        = Done (initial_value init, mkSetter path 0) s'.
Proof.
  intros Hnone. unfold useState, currentCursor, currentHooks, currentPath,
    enter_component. munfold. state_simpl.
  repeat (rewrite last_snoc; state_simpl).
  rewrite lookup_insert_eq. cbn [default from_option].
  rewrite Hnone. cbn [default from_option length].
  rewrite bool_decide_eq_true_2 by done.
  eexists. f_equal.
Qed.

(** C6: [render] calls the garbage collection once, after [reconcile] has
    walked the whole tree and before the effect flush is scheduled.  The
    collection calls the stored cleanup of every effect slot of every store
    path that the pass did not visit (in store order), deletes the slot
    sequence and the cursor of those paths, keeps the visited paths as they
    were, and clears the marker set; a component mounted afterwards at a
    purged path gets its initial value from [useState]. *)
Theorem cleanupUnusedHooks_purges_unvisited :
  (∀ components fuel s container node newInstance s1,
      root_container s = Some container →
      root_node s = Some node →
      reconcile components fuel container (root_instance s) (Some node) "0" None
        (reset_pass s) = Done newInstance s1 →
      render components fuel s
      = (_ ← cleanupUnusedHooks; enqueue_flushEffects) (upd_root_instance newInstance s1))
  ∧ ∀ s, Forall (λ c, cl_throws c = false) (stale_cleanups s) →
      ∃ s', cleanupUnusedHooks s = Done tt s'
        ∧ trace s' = (trace s ++ cleanup_events (stale_cleanups s))%list
        ∧ hooks_state s' = filter (λ e, e.1 ∈ hooks_visited s) (hooks_state s)
        ∧ hooks_visited s' = ∅
        ∧ dom_log s' = dom_log s
        ∧ (∀ p, p ∈ hooks_visited s →
                Amap.get p (hooks_state s') = Amap.get p (hooks_state s)
                ∧ hooks_cursor s' !! p = hooks_cursor s !! p)
        ∧ (∀ p, p ∉ hooks_visited s →
                Amap.get p (hooks_state s') = None
                ∧ (is_Some (Amap.get p (hooks_state s)) → hooks_cursor s' !! p = None)
                ∧ ∀ init, ∃ s'', useState init (enter_component p s')
                                 = Done (initial_value init, mkSetter p 0) s'').
Proof.
  split.
  - intros components fuel s container node newInstance s1 Hc Hn Hrec.
    unfold render. munfold. rewrite Hc, Hn.
    unfold reset_pass in Hrec. state_simpl. state_simpl in Hrec.
    by rewrite Hrec.
  - intros s Hok. unfold cleanupUnusedHooks. munfold.
    pose proof (gc_loop (hooks_state s) [] [] s Hok) as Hloop.
    rewrite gc_result_nil in Hloop. rewrite Hloop. rewrite !app_nil_l.
    set (paths := (stale_of (hooks_visited s) (hooks_state s)).*1).
    assert (Hstate : ∀ p, p ∈ paths
                          ↔ (p ∉ hooks_visited s) ∧ is_Some (Amap.get p (hooks_state s))).
    { intros p. unfold paths, stale_of. rewrite list_elem_of_fmap. split.
      - intros [[k v] [-> Hin]]. apply list_elem_of_filter in Hin as [Hst Hin].
        split; [done|]. by eapply Amap_get_elem_of.
      - intros [Hst [v Hget]]. exists (p, v). split; [done|].
        apply list_elem_of_filter. split; [done|]. by apply Amap_get_Some_elem_of. }
    eexists. split; [reflexivity|]. unfold gc_result. state_simpl.
    rewrite foldl_Amap_delete.
    assert (Hfilter : filter (λ e : string * list Value, e.1 ∉ paths) (hooks_state s)
                      = filter (λ e, e.1 ∈ hooks_visited s) (hooks_state s)).
    { apply filter_ext_in. intros [k v] Hin. cbn [fst]. rewrite Hstate. split.
      - intros Hn. destruct (decide (k ∈ hooks_visited s)) as [|Hnv]; [done|].
        exfalso. apply Hn. split; [done|]. by eapply Amap_get_elem_of.
      - intros Hv [Hnv _]. done. }
    rewrite Hfilter.
    split; [done|]. split; [done|]. split; [done|]. split; [done|]. split.
    + intros p Hp. split.
      * rewrite Amap_get_filter. by rewrite decide_True.
      * rewrite foldl_delete_lookup. rewrite decide_False; [done|].
        rewrite Hstate. intros [? _]; done.
    + intros p Hp. split; [|split].
      * rewrite Amap_get_filter. by rewrite decide_False.
      * intros Hsome. rewrite foldl_delete_lookup. rewrite decide_True; [done|].
        by apply Hstate.
      * intros init.
        match goal with |- context [enter_component p ?st] =>
          apply (useState_fresh init p st) end.
        state_simpl.
        rewrite Amap_get_filter. by rewrite decide_False.
Qed.

Lemma cleanupUnusedHooks_purges_unvisited_witness :
  (∃ inst s1,
      render program 8 (with_root (component 3))
      = (_ ← cleanupUnusedHooks; enqueue_flushEffects) (upd_root_instance inst s1))
  ∧ ∃ s', cleanupUnusedHooks two_effects_flushed = Done tt s'
          ∧ trace s' = [EvEffect 1; EvEffect 2; EvCleanup 10; EvCleanup 20]
          ∧ hooks_state s' = []
          ∧ hooks_visited s' = ∅.
Proof.
  destruct cleanupUnusedHooks_purges_unvisited as [Hrender Hgc]. split.
  - eexists _, _. apply (Hrender program 8 (with_root (component 3)) 0 (component 3)).
    + reflexivity.
    + reflexivity.
    + vm_compute. reflexivity.
  - destruct (Hgc two_effects_flushed) as (s' & Hrun & Htrace & Hstate & Hvisited & _).
    + vm_compute. repeat constructor.
    + exists s'. split; [done|]. split; [|split; [|done]].
      * rewrite Htrace. vm_compute. reflexivity.
      * rewrite Hstate. vm_compute. reflexivity.
Defined.

(** ** The effect flush *)

Lemma effect_slot_queue s q entry :
  effect_slot (upd_queue q s) entry = effect_slot s entry.
Proof. done. Qed.

Lemma effect_slot_inv s entry addr deps cleanup effect :
  effect_slot s entry = Some (addr, deps, cleanup, effect) →
  ∃ hooks, Amap.get entry.1 (hooks_state s) = Some hooks
           ∧ hooks !! entry.2 = Some (VEffect addr deps cleanup effect).
Proof.
  unfold effect_slot. destruct (Amap.get _ _) as [hooks|]; [|done].
  destruct (hooks !! entry.2) as [[]|] eqn:E; try done.
  intros [= -> -> -> ->]. eauto.
Qed.

Lemma flushEntry_runs s path cursor addr deps cleanup effect hooks :
  Amap.get path (hooks_state s) = Some hooks →
  hooks !! cursor = Some (VEffect addr deps cleanup effect) →
  cleanup_returns cleanup = true →
  is_Some (ef_result effect) →
  flushEntry path cursor s
  = Done tt (after_entry (path, cursor) hooks addr deps cleanup effect s).
Proof.
  intros Hget Hslot Hcl [r Hr]. unfold flushEntry. munfold. rewrite Hget, Hslot.
  unfold call_effect, call_cleanup, after_entry, returned_cleanup. munfold.
  rewrite Hr. destruct cleanup as [c|]; cbn in *.
  - unfold cleanup_returns in Hcl. cbn in Hcl. apply negb_true_iff in Hcl.
    rewrite Hcl. unfold_state. cbn. rewrite Hget.
    rewrite <- app_assoc. by destruct r.
  - unfold_state. cbn. rewrite Hget. by destruct r.
Qed.

Lemma flushEntry_body_throws s path cursor addr deps cleanup effect hooks :
  Amap.get path (hooks_state s) = Some hooks →
  hooks !! cursor = Some (VEffect addr deps cleanup effect) →
  cleanup_returns cleanup = true →
  ef_result effect = None →
  flushEntry path cursor s
  = Raised (upd_trace (λ t, (t ++ cleanup_events (option_list cleanup)
                               ++ [EvEffect (ef_id effect)])%list) s).
Proof.
  intros Hget Hslot Hcl Hr. unfold flushEntry. munfold. rewrite Hget, Hslot.
  unfold call_effect, call_cleanup. munfold.
  rewrite Hr. destruct cleanup as [c|]; cbn in *.
  - unfold cleanup_returns in Hcl. cbn in Hcl. apply negb_true_iff in Hcl.
    rewrite Hcl. unfold_state. cbn. by rewrite <- app_assoc.
  - done.
Qed.

Lemma effect_slot_after_same entry hooks addr deps cleanup effect s :
  hooks !! entry.2 = Some (VEffect addr deps cleanup effect) →
  effect_slot (after_entry entry hooks addr deps cleanup effect s) entry
  = Some (addr, deps, returned_cleanup effect, effect).
Proof.
  intros Hslot. unfold effect_slot, after_entry. unfold_state. cbn.
  rewrite Amap_get_set_eq. rewrite list_lookup_insert_eq; [done|].
  by eapply lookup_lt_Some.
Qed.

Lemma effect_slot_after_other entry entry' hooks addr deps cleanup effect s :
  Amap.get entry.1 (hooks_state s) = Some hooks →
  entry' ≠ entry →
  effect_slot (after_entry entry hooks addr deps cleanup effect s) entry'
  = effect_slot s entry'.
Proof.
  intros Hget Hne. unfold effect_slot, after_entry. unfold_state. cbn.
  destruct entry as [p c], entry' as [p' c']. cbn in *.
  destruct (decide (p = p')) as [->|Hp].
  - rewrite Amap_get_set_eq, Hget.
    rewrite list_lookup_insert_ne; [done|]. congruence.
  - by rewrite Amap_get_set_ne.
Qed.

(** The flush of a prefix of the queue whose entries all run cleanly. *)
Lemma flushQueue_prefix pre : ∀ s post,
  NoDup pre →
  Forall (λ e, runs_cleanly s e = true) pre →
  pre ≠ [] ∨ effects_queue s = post →
  ∃ s1, flushQueue (pre ++ post) s = flushQueue post s1
        ∧ effects_queue s1 = post
        ∧ trace s1 = (trace s ++ (pre ≫= entry_events s))%list
        ∧ dom_log s1 = dom_log s
        ∧ (∀ entry, entry ∉ pre → effect_slot s1 entry = effect_slot s entry)
        ∧ (∀ entry addr deps cleanup effect,
              entry ∈ pre →
              effect_slot s entry = Some (addr, deps, cleanup, effect) →
              effect_slot s1 entry = Some (addr, deps, returned_cleanup effect, effect)).
Proof.
  induction pre as [|[path cursor] pre IH]; intros s post Hnd Hok Hq.
  - destruct Hq as [|Hq]; [done|]. exists s. cbn. rewrite app_nil_r.
    repeat split; try done. intros ? ? ? ? ? Hin. set_solver.
  - apply NoDup_cons in Hnd as [Hnotin Hnd]. apply Forall_cons in Hok as [Hhere Hok].
    unfold runs_cleanly in Hhere.
    destruct (effect_slot s (path, cursor)) as [[[[addr deps] cleanup] effect]|] eqn:Hslot;
      [|done].
    apply andb_true_iff in Hhere as [Hcl Hres]. apply bool_decide_eq_true_1 in Hres.
    apply effect_slot_inv in Hslot as Hinv. destruct Hinv as [hooks [Hget Hlook]].
    cbn in Hget, Hlook.
    set (s0 := upd_queue (λ _, (pre ++ post)%list) s).
    set (s0' := after_entry (path, cursor) hooks addr deps cleanup effect s0).
    assert (Hstep : flushQueue (((path, cursor) :: pre) ++ post) s
                    = flushQueue (pre ++ post) s0').
    { cbn [app flushQueue]. munfold. fold s0.
      rewrite (flushEntry_runs s0 path cursor addr deps cleanup effect hooks); done. }
    assert (Hframe : ∀ e, e ≠ (path, cursor) → effect_slot s0' e = effect_slot s e).
    { intros e He. unfold s0'. rewrite effect_slot_after_other; done. }
    destruct (IH s0' post Hnd) as [s1 (Hrun & Hqueue & Htrace & Hlog & Hother & Hmine)].
    { apply Forall_forall. intros e Hin.
      unfold runs_cleanly. rewrite Hframe by (intros ->; done).
      by apply (proj1 (Forall_forall _ _) Hok). }
    { destruct pre; [right; done|left; done]. }
    exists s1. rewrite Hstep, Hrun. repeat split; try done.
    + rewrite Htrace. cbn. unfold entry_events at 2. rewrite Hslot.
      rewrite <- !app_assoc. do 3 f_equal.
      apply Forall_bind_ext, Forall_forall. intros e Hin. unfold entry_events.
      rewrite Hframe; [done|]. intros ->. done.
    + intros entry Hin. apply not_elem_of_cons in Hin as [Hne Hin].
      rewrite Hother by done. by apply Hframe.
    + intros entry a d c e Hin Hs. apply elem_of_cons in Hin as [->|Hin].
      * rewrite Hother by done. unfold s0'.
        rewrite effect_slot_after_same by done. congruence.
      * apply (Hmine entry a d c e Hin). rewrite Hframe; [done|]. intros ->. done.
Qed.


(** C7: with pairwise distinct queue entries that address effect slots
    whose stored cleanup and body return, the flush empties the queue and
    calls, entry after entry in queue order, the stored cleanup (if any)
    and then the effect body; afterwards each of these slots holds the
    cleanup its body returned, or none.  Slots that are not queued are left
    as they were. *)
Theorem flushEffects_runs_queue_in_order :
  ∀ s, NoDup (effects_queue s) →
       Forall (λ e, runs_cleanly s e = true) (effects_queue s) →
  ∃ s', flushEffects s = Done tt s'
    ∧ effects_queue s' = []
    ∧ trace s' = (trace s ++ (effects_queue s ≫= entry_events s))%list
    ∧ (∀ entry addr deps cleanup effect,
          entry ∈ effects_queue s →
          effect_slot s entry = Some (addr, deps, cleanup, effect) →
          effect_slot s' entry = Some (addr, deps, returned_cleanup effect, effect))
    ∧ (∀ entry, entry ∉ effects_queue s → effect_slot s' entry = effect_slot s entry).
Proof.
  intros s Hnd Hok.
  destruct (flushQueue_prefix (effects_queue s) s [] Hnd Hok)
    as [s1 (Hrun & Hq & Htrace & _ & Hother & Hmine)].
  { destruct (effects_queue s); [by right|by left]. }
  exists s1. rewrite app_nil_r in Hrun.
  unfold flushEffects. munfold. rewrite Hrun. done.
Qed.

Lemma flushEffects_runs_queue_in_order_witness :
  ∃ s', flushEffects two_effects_queued = Done tt s'
    ∧ effects_queue s' = []
    ∧ trace s' = [EvEffect 1; EvEffect 2]
    ∧ effect_slot s' ("0", 0)
      = Some (0, None, Some (mkCleanup 10 false),
              mkEffect 1 (Some (RetCleanup (mkCleanup 10 false)))).
Proof.
  destruct (flushEffects_runs_queue_in_order two_effects_queued)
    as [s' (Hrun & Hq & Htrace & Hmine & _)].
  - apply (bool_decide_unpack _). vm_compute. exact I.
  - vm_compute. repeat constructor.
  - exists s'. split; [done|]. split; [done|]. split; [exact Htrace|].
    apply (Hmine ("0", 0) 0 None None
             (mkEffect 1 (Some (RetCleanup (mkCleanup 10 false)))));
      [by left|reflexivity].
Defined.

(** C8 as stated fails: after a render that queued two effects, the body
    of the first throws and the flush stops there; the second entry stays
    in the queue and its body is never called. *)
Lemma flushEffects_throw_abandons_rest :
  ∃ s', flushEffects throwing_effect_queued = Raised s'
    ∧ effects_queue throwing_effect_queued = [("0", 0); ("0", 1)]
    ∧ trace s' = [EvEffect 1]
    ∧ (EvEffect 2 ∉ trace s')
    ∧ effects_queue s' = [("0", 1)].
Proof.
  eexists. split; [vm_compute; reflexivity|].
  repeat split; try reflexivity.
  intros Hin. apply list_elem_of_singleton in Hin. discriminate.
Qed.

(** C8, amended: when the body of a queued effect throws, the exception
    leaves [flushEffects] at that entry.  The entries before it have run,
    the stored cleanup and the body of the throwing entry have been called,
    the entries after it are still in the queue, and no slot outside the
    entries that ran has changed: the later entries have not been run. *)
Theorem flushEffects_throw_stops_flush :
  ∀ s pre bad post,
    effects_queue s = (pre ++ bad :: post)%list →
    NoDup (pre ++ [bad]) →
    Forall (λ e, runs_cleanly s e = true) pre →
    body_throws s bad = true →
  ∃ s', flushEffects s = Raised s'
    ∧ effects_queue s' = post
    ∧ trace s' = (trace s ++ (pre ≫= entry_events s) ++ entry_events s bad)%list
    ∧ (∀ entry, entry ∉ pre → effect_slot s' entry = effect_slot s entry).
Proof.
  intros s pre bad post Hqueue Hnd Hok Hbad.
  apply NoDup_app in Hnd as (Hnd & Hdisj & _).
  assert (Hnotin : bad ∉ pre) by (intros Hin; apply (Hdisj bad Hin); by left).
  destruct (flushQueue_prefix pre s (bad :: post) Hnd Hok)
    as [s1 (Hrun & Hq & Htrace & _ & Hother & _)].
  { destruct pre; [right; exact Hqueue|left; done]. }
  unfold flushEffects. munfold. rewrite Hqueue, Hrun.
  unfold body_throws in Hbad. rewrite <- (Hother bad Hnotin) in Hbad.
  destruct (effect_slot s1 bad) as [[[[addr deps] cleanup] effect]|] eqn:Hslot; [|done].
  apply andb_true_iff in Hbad as [Hcl Hres]. apply negb_true_iff in Hres.
  apply bool_decide_eq_false_1 in Hres.
  assert (Hnone : ef_result effect = None).
  { destruct (ef_result effect); [|done]. exfalso. apply Hres. eauto. }
  apply effect_slot_inv in Hslot as Hinv. destruct Hinv as [hooks [Hget Hlook]].
  destruct bad as [path cursor]. cbn [fst snd] in Hget, Hlook.
  cbn [flushQueue]. munfold.
  rewrite (flushEntry_body_throws _ path cursor addr deps cleanup effect hooks);
    [|done..].
  eexists. split; [reflexivity|]. state_simpl.
  split; [done|]. split.
  - assert (Hev : entry_events s (path, cursor)
                  = (cleanup_events (option_list cleanup) ++ [EvEffect (ef_id effect)])%list).
    { unfold entry_events. by rewrite <- (Hother (path, cursor) Hnotin), Hslot. }
    rewrite Htrace, Hev. by rewrite <- app_assoc.
  - intros entry Hin. rewrite <- (Hother entry Hin). done.
Qed.

Lemma flushEffects_throw_stops_flush_witness :
  ∃ s', flushEffects throwing_effect_queued = Raised s'
    ∧ effects_queue s' = [("0", 1)]
    ∧ effect_slot s' ("0", 1) = effect_slot throwing_effect_queued ("0", 1).
Proof.
  destruct (flushEffects_throw_stops_flush throwing_effect_queued [] ("0", 0) [("0", 1)])
    as [s' (Hrun & Hq & _ & Hother)].
  - reflexivity.
  - apply (bool_decide_unpack _). vm_compute. exact I.
  - constructor.
  - reflexivity.
  - exists s'. split; [done|]. split; [done|]. apply Hother. apply not_elem_of_nil.
Defined.

(** ** Remount on a type change *)

(** C1 fails on the code: component A is mounted at the root path ["0"] and
    its counter is set to 5; the root node is then replaced by component B,
    a different function with the same (absent) key.  [reconcile] takes the
    remount branch (the old text node is removed, a new instance is
    created), but [mountComponent] leaves the slot sequence of path ["0"] in
    the store, so B's [useState(100)] returns A's 5 and B renders "5". *)
Theorem remount_at_same_path_reads_old_state :
  (∃ prev, root_instance counterA_at_5 = Some prev
           ∧ ntype (inode prev) = TComponent 0 ∧ ikey prev = None)
  ∧ hooks_state counterA_at_5 = [("0", [VNum 5])]
  ∧ (∃ setter s', useState (Eager (VNum 100)) (enter_component "0" counterA_at_5)
                  = Done (VNum 5, setter) s')
  ∧ ∃ inst child s',
      reconcile program 8 0 (root_instance counterA_at_5) (Some (component 1)) "0" None
        counterA_at_5 = Done (Some inst) s'
      ∧ inode inst = component 1
      ∧ ichildren inst = [Some child]
      ∧ inode child = text_node "5"
      ∧ dom_log s' = (dom_log counterA_at_5 ++ [OpRemoveChild 0 1; OpAppendChild 0 2])%list
      ∧ hooks_state s' = [("0", [VNum 5])].
Proof.
  split; [eexists; split; [vm_compute; reflexivity|split; reflexivity]|].
  split; [vm_compute; reflexivity|]. split.
  - eexists _, _. vm_compute. reflexivity.
  - eexists _, _, _. split; [vm_compute; reflexivity|].
    repeat split; vm_compute; reflexivity.
Qed.

(** ** Child matching in fragments *)

(** C4 fails on the code: [updateFragment] has the first stage only.  The
    previous children are one unkeyed [<p/>] at index 0 and the next
    children are [<div/>, <p/>, <span/>].  No previous child has the path
    of slot 1, so [updateHost] falls back on the type and matches the old
    [<p/>], while [updateFragment] matches nothing. *)
Theorem fragment_matching_has_no_type_stage :
  (∃ p, host_prev = [Some p] ∧ ikey p = None ∧ ntype (inode p) = THost "p"
        ∧ (matchChildrenHost program "0" host_prev div_p_span).1 = [None; Some p; None])
  ∧ (∃ p, fragment_prev = [Some p] ∧ ikey p = None ∧ ntype (inode p) = THost "p"
          ∧ (matchChildrenFragment program "0" fragment_prev div_p_span).1
            = [None; None; None]).
Proof.
  split; eexists; (split; [vm_compute; reflexivity|]); repeat split;
    vm_compute; reflexivity.
Qed.

(** ** Keyed moves and the second pass *)

(** C3 as stated fails: in [<div><p key="a">A</p><p key="b"/><p key="c"/></div>],
    mounted and not changed, the node of [b] (handle 4) has the node of [c]
    (handle 5) as next sibling, and 5 is its anchor; [moveKeyedChild] still
    issues [insertBefore] for it, because it has a previous sibling. *)
Lemma keyed_child_in_place_is_reinserted :
  ∃ inst s, mounted three_keyed = Done inst s
    ∧ Dom.nextSibling s 4 = Some 5
    ∧ ∃ s', moveKeyedChild 1 1 4 (Some 5) s = Done tt s'
            ∧ dom_log s' = (dom_log s ++ [OpInsertBefore 1 4 5])%list.
Proof.
  eexists _, _. split; [vm_compute; reflexivity|].
  split; [vm_compute; reflexivity|].
  eexists. split; [vm_compute; reflexivity|]. vm_compute. reflexivity.
Qed.


(** ** The result of [reconcile] *)

Lemma bind_Done_inv {A B} (m : M A) (k : A → M B) s b s' :
  (m ≫= k) s = Done b s' → ∃ a s1, m s = Done a s1 ∧ k a s1 = Done b s'.
Proof.
  unfold mbind, M_bind. destruct (m s) as [a s1| |]; [|done..]. eauto.
Qed.


Lemma try_finally_Done_inv {A} (body : M A) (fin : M unit) s a s' :
  try_finally body fin s = Done a s' → ∃ s1, body s = Done a s1 ∧ fin s1 = Done tt s'.
Proof.
  unfold try_finally. destruct (body s) as [a1 s1|s1|]; [| |done].
  - destruct (fin s1) as [[] s2| |] eqn:E; [|done..]. intros [= <- <-]. eauto.
  - by destruct (fin s1).
Qed.

Lemma removeNodes_returns parentDom nodes s :
  ∃ s', removeNodes parentDom nodes s = Done tt s'.
Proof.
  unfold removeNodes. revert s. induction nodes as [|n nodes IH]; intros s.
  - by eexists.
  - rewrite for_each_cons. munfold.
    destruct (bool_decide (Dom.parentNode s n = Some parentDom)) eqn:E.
    + unfold Dom.removeChild. rewrite E. apply IH.
    + apply IH.
Qed.




(** ** Termination of [reconcile] *)

Create HintDb halts.

Lemma halts_at_ret {A} (a : A) s : halts_at (mret a) s.
Proof. done. Qed.

Lemma halts_at_bind {A B} (m : M A) (k : A → M B) s :
  halts_at m s → (∀ a s', m s = Done a s' → halts_at (k a) s') → halts_at (m ≫= k) s.
Proof.
  unfold halts_at, mbind, M_bind. intros Hm Hk. destruct (m s) as [a s'| |]; [|done..].
  by apply Hk.
Qed.

Lemma halts_at_fmap {A B} (f : A → B) (m : M A) s : halts_at m s → halts_at (f <$> m) s.
Proof. unfold halts_at, fmap, M_fmap. by destruct (m s). Qed.

Lemma halts_at_try_finally {A} (body : M A) (fin : M unit) s :
  halts_at body s → (∀ s', halts_at fin s') → halts_at (try_finally body fin) s.
Proof.
  unfold halts_at, try_finally. intros Hb Hf.
  destruct (body s) as [a s'|s'|]; [| |done]; specialize (Hf s'); by destruct (fin s').
Qed.

Lemma halts_at_for_each {A} (xs : list A) (body : A → M unit) s :
  (∀ x s', x ∈ xs → halts_at (body x) s') → halts_at (for_each xs body) s.
Proof.
  revert s. induction xs as [|x xs IH]; intros s Hbody; [done|].
  unfold halts_at. rewrite for_each_cons.
  pose proof (Hbody x s (list_elem_of_here _ _)) as Hx. unfold halts_at in Hx.
  destruct (body x s) as [[] s'| |]; [|done..].
  apply IH. intros y s'' Hy. apply Hbody. by right.
Qed.

Lemma halts_at_when b (m : M unit) s : halts_at m s → halts_at (when b m) s.
Proof. by destruct b. Qed.

Ltac halts_prim :=
  intros; unfold halts_at; cbv beta delta
    [get gets modify raise Dom.log_op Dom.createElement Dom.createTextNode
     Dom.insertBefore Dom.appendChild Dom.removeChild fresh_addr];
  repeat case_match; done.

Lemma halts_get s : halts_at get s. Proof. halts_prim. Qed.
Lemma halts_gets {A} (f : State → A) s : halts_at (gets f) s. Proof. halts_prim. Qed.
Lemma halts_modify f s : halts_at (modify f) s. Proof. halts_prim. Qed.
Lemma halts_raise {A} s : halts_at (@raise A) s. Proof. halts_prim. Qed.
Lemma halts_log_op op s : halts_at (Dom.log_op op) s. Proof. halts_prim. Qed.
Lemma halts_createElement t s : halts_at (Dom.createElement t) s. Proof. halts_prim. Qed.
Lemma halts_createTextNode t s : halts_at (Dom.createTextNode t) s. Proof. halts_prim. Qed.
Lemma halts_insertBefore p n a s : halts_at (Dom.insertBefore p n a) s.
Proof. halts_prim. Qed.
Lemma halts_appendChild p n s : halts_at (Dom.appendChild p n) s. Proof. halts_prim. Qed.
Lemma halts_removeChild p n s : halts_at (Dom.removeChild p n) s. Proof. halts_prim. Qed.
Lemma halts_fresh_addr s : halts_at fresh_addr s. Proof. halts_prim. Qed.

#[export] Hint Resolve halts_at_ret halts_get halts_gets halts_modify halts_raise
  halts_log_op halts_createElement halts_createTextNode halts_insertBefore
  halts_appendChild halts_removeChild halts_fresh_addr : halts.

Ltac halts_step :=
  match goal with
  | |- halts_at (mbind _ _) _ => apply halts_at_bind; [|intros ? ? _]
  | |- halts_at (fmap _ _) _ => apply halts_at_fmap
  | |- halts_at (try_finally _ _) _ => apply halts_at_try_finally; [|intros ?]
  | |- halts_at (for_each _ _) _ => apply halts_at_for_each; intros ? ? ?
  | |- halts_at (when _ _) _ => apply halts_at_when
  | |- halts_at (if ?b then _ else _) _ => destruct b
  | |- halts_at (match ?x with _ => _ end) _ => destruct x
  | |- halts_at _ _ => solve [auto with halts]
  end.

Ltac halts_tac := repeat halts_step.

Lemma halts_setAttribute n k v s : halts_at (Dom.setAttribute n k v) s.
Proof. unfold Dom.setAttribute. halts_tac. Qed.
Lemma halts_removeAttribute n k s : halts_at (Dom.removeAttribute n k) s.
Proof. unfold Dom.removeAttribute. halts_tac. Qed.
Lemma halts_addEventListener n e h s : halts_at (Dom.addEventListener n e h) s.
Proof. unfold Dom.addEventListener. halts_tac. Qed.
Lemma halts_removeEventListener n e h s : halts_at (Dom.removeEventListener n e h) s.
Proof. unfold Dom.removeEventListener. halts_tac. Qed.
Lemma halts_setField n k v s : halts_at (Dom.setField n k v) s.
Proof. unfold Dom.setField. halts_tac. Qed.
Lemma halts_deleteField n k s : halts_at (Dom.deleteField n k) s.
Proof. unfold Dom.deleteField. halts_tac. Qed.
Lemma halts_setNodeValue n v s : halts_at (Dom.setNodeValue n v) s.
Proof. unfold Dom.setNodeValue. halts_tac. Qed.

#[export] Hint Resolve halts_setAttribute halts_removeAttribute halts_addEventListener
  halts_removeEventListener halts_setField halts_deleteField halts_setNodeValue : halts.

Lemma halts_setDomProps dom props s : halts_at (setDomProps dom props) s.
Proof. unfold setDomProps, setDomProp. halts_tac. Qed.

Lemma halts_updateDomProps dom prev next s : halts_at (updateDomProps dom prev next) s.
Proof. unfold updateDomProps, removeOldProp, applyNewProp. halts_tac. Qed.

Lemma halts_removeNodes parentDom nodes s : halts_at (removeNodes parentDom nodes) s.
Proof. unfold removeNodes. halts_tac. Qed.

#[export] Hint Resolve halts_setDomProps halts_updateDomProps halts_removeNodes : halts.

Lemma halts_removeInstance parentDom inst s : halts_at (removeInstance parentDom inst) s.
Proof. unfold removeInstance. halts_tac. Qed.

Lemma halts_removeUnused parentDom prev used keyed s :
  halts_at (removeUnused parentDom prev used keyed) s.
Proof. unfold removeUnused. halts_tac. Qed.

Lemma halts_migrate oldPath path s : halts_at (migrate oldPath path) s.
Proof. unfold migrate. halts_tac. Qed.

Lemma halts_set_ref ref dom s : halts_at (set_ref ref dom) s.
Proof. unfold set_ref. halts_tac. Qed.

Lemma halts_moveKeyedChild dom i cur anchor s :
  halts_at (moveKeyedChild dom i cur anchor) s.
Proof. unfold moveKeyedChild. halts_tac. Qed.

#[export] Hint Resolve halts_removeInstance halts_removeUnused halts_migrate
  halts_set_ref halts_moveKeyedChild : halts.

Section Halting.
Context (components : nat → Component) (rec : Reconcile).














End Halting.



(** ** Moves of keyed children *)

Lemma dom_log_attach p n anchor s : dom_log (Dom.attach p n anchor s) = dom_log s.
Proof.
  unfold Dom.attach, Dom.detach, Dom.upd_node.
  by destruct (Dom.parentNode s n).
Qed.

(** C3, amended: for a keyed child whose node is a child of the element,
    [updateHost] issues at most one render-target call, given by
    [keyed_move]: with no anchor the node is appended unless it has no next
    sibling; with an anchor it is left untouched only when it is the
    anchor's previous sibling and has no previous sibling itself (it is the
    first child); at slot 0 a node with a previous sibling is inserted
    before the first element child; in every other case it is inserted
    before its anchor, also when its next sibling already is the anchor.
    An [insertBefore] whose reference node is not a child of the element
    throws. *)
Theorem moveKeyedChild_moves :
  ∀ (dom i cur : nat) (anchor : option nat) (s : State),
    match keyed_move s dom i cur anchor with
    | None => moveKeyedChild dom i cur anchor s = Done tt s
    | Some (OpInsertBefore p n b) =>
        if bool_decide (Dom.parentNode s b = Some dom)
        then ∃ s', moveKeyedChild dom i cur anchor s = Done tt s'
                   ∧ dom_log s' = (dom_log s ++ [OpInsertBefore dom cur b])%list
        else moveKeyedChild dom i cur anchor s = Raised s
    | Some op =>
        ∃ s', moveKeyedChild dom i cur anchor s = Done tt s'
              ∧ dom_log s' = (dom_log s ++ [op])%list
    end
    ∧ ∀ a, anchor = Some a →
           Dom.nextSibling s cur = Some a →
           is_Some (Dom.previousSibling s cur) →
           i ≠ 0 →
           keyed_move s dom i cur anchor = Some (OpInsertBefore dom cur a).
Proof.
  intros dom i cur anchor s. split.
  - unfold keyed_move, moveKeyedChild. munfold. destruct anchor as [a|].
    + destruct (bool_decide (Dom.previousSibling s a = Some cur)) eqn:EB;
        destruct (bool_decide (Dom.previousSibling s cur = None)) eqn:EC;
        cbn [andb].
      * apply bool_decide_eq_true_1 in EB, EC.
        rewrite (bool_decide_eq_true_2 (Some cur = _)) by done.
        rewrite (bool_decide_eq_false_2 (is_Some _)) by (rewrite EC; by intros [? ?]).
        cbn [negb orb]. by destruct (negb _).
      * apply bool_decide_eq_true_1 in EB. apply bool_decide_eq_false_1 in EC.
        rewrite (bool_decide_eq_true_2 (Some cur = _)) by done.
        assert (is_Some (Dom.previousSibling s cur)) as Hsome
          by (destruct (Dom.previousSibling s cur); [eauto|done]).
        rewrite (bool_decide_eq_true_2 (is_Some _)) by done.
        rewrite orb_true_r. cbn [negb orb andb].
        destruct (bool_decide (i = 0)).
        -- destruct (Dom.firstElementChild s dom) as [f|]; [|done].
           destruct (bool_decide (f = cur)); [done|].
           unfold Dom.insertBefore. destruct (bool_decide (_ = Some dom)); [|done].
           eexists. split; [reflexivity|]. cbn [upd_log dom_log]. by rewrite dom_log_attach.
        -- unfold Dom.insertBefore. destruct (bool_decide (_ = Some dom)); [|done].
           eexists. split; [reflexivity|]. cbn [upd_log dom_log]. by rewrite dom_log_attach.
      * apply bool_decide_eq_false_1 in EB. apply bool_decide_eq_true_1 in EC.
        rewrite (bool_decide_eq_false_2 (Some cur = _)) by done.
        rewrite (bool_decide_eq_false_2 (is_Some _)) by (rewrite EC; by intros [? ?]).
        rewrite orb_true_r. cbn [negb orb andb].
        unfold Dom.insertBefore. destruct (bool_decide (_ = Some dom)); [|done].
        eexists. split; [reflexivity|]. cbn [upd_log dom_log]. by rewrite dom_log_attach.
      * apply bool_decide_eq_false_1 in EB, EC.
        rewrite (bool_decide_eq_false_2 (Some cur = _)) by done.
        rewrite orb_true_r. cbn [negb orb].
        destruct (bool_decide (is_Some _) && bool_decide (i = 0)).
        -- destruct (Dom.firstElementChild s dom) as [f|]; [|done].
           destruct (bool_decide (f = cur)); [done|].
           unfold Dom.insertBefore. destruct (bool_decide (_ = Some dom)); [|done].
           eexists. split; [reflexivity|]. cbn [upd_log dom_log]. by rewrite dom_log_attach.
        -- unfold Dom.insertBefore. destruct (bool_decide (_ = Some dom)); [|done].
           eexists. split; [reflexivity|]. cbn [upd_log dom_log]. by rewrite dom_log_attach.
    + destruct (bool_decide (is_Some (Dom.nextSibling s cur))); [|done].
      eexists. split; [reflexivity|]. cbn [upd_log dom_log]. by rewrite dom_log_attach.
  - intros a -> Hnext Hprev Hi. unfold keyed_move.
    rewrite (bool_decide_eq_false_2 (Dom.previousSibling s cur = None))
      by (destruct Hprev as [? ->]; done).
    rewrite andb_false_r. rewrite (bool_decide_eq_false_2 (i = 0)) by done.
    by rewrite andb_false_r.
Qed.

Lemma moveKeyedChild_moves_witness :
  ∃ inst s, mounted three_keyed = Done inst s
    ∧ keyed_move s 1 1 4 (Some 5) = Some (OpInsertBefore 1 4 5).
Proof.
  eexists _, _. split; [vm_compute; reflexivity|].
  apply (moveKeyedChild_moves 1 1 4 (Some 5)).
  - reflexivity.
  - vm_compute. reflexivity.
  - vm_compute. eauto.
  - discriminate.
Defined.

(** ** Identity paths of unkeyed children are distinct *)

Lemma string_app_inv_head (p a b : string) : p ++ a = p ++ b → a = b.
Proof. induction p as [|c p IH]; simpl; [done|]. intros [= H]. by apply IH. Qed.


Lemma has_char_app c a b : has_char c (a ++ String c b) = true.
Proof.
  induction a as [|x a IH]; simpl.
  - by rewrite bool_decide_eq_true_2.
  - rewrite IH. by rewrite orb_true_r.
Qed.

(** A string is split in one way only at its last occurrence of [c]. *)
Lemma split_at_last c (a b x y : string) :
  has_char c x = false → has_char c y = false →
  a ++ String c x = b ++ String c y → x = y.
Proof.
  intros Hx Hy. revert b. induction a as [|k a IH]; intros [|k' b]; simpl.
  - by intros [= ->].
  - intros [= <- ->]. by rewrite has_char_app in Hx.
  - intros [= -> <-]. by rewrite has_char_app in Hy.
  - intros [= _ H]. by apply IH in H.
Qed.

Lemma decimal_no_underscore d : has_char underscore (NilEmpty.string_of_uint d) = false.
Proof. induction d; simpl; try done. Qed.

Lemma to_uint_nonnil n : Nat.to_uint n ≠ Decimal.Nil.
Proof.
  rewrite <- (DecimalNat.Unsigned.of_to n) at 1.
  rewrite DecimalNat.Unsigned.to_of. apply DecimalFacts.unorm_nonnil.
Qed.

Lemma string_of_nat_no_underscore n : has_char underscore (string_of_nat n) = false.
Proof.
  unfold string_of_nat, NilZero.string_of_uint.
  pose proof (to_uint_nonnil n). destruct (Nat.to_uint n) eqn:E; try done;
    rewrite <- E; apply decimal_no_underscore.
Qed.

Lemma string_of_nat_inj i j : string_of_nat i = string_of_nat j → i = j.
Proof.
  unfold string_of_nat. intros H.
  apply DecimalNat.Unsigned.to_uint_inj.
  assert (Some (Nat.to_uint i) = Some (Nat.to_uint j)) as [= ->]; [|done].
  rewrite <- (NilZero.usu (Nat.to_uint i)) by apply to_uint_nonnil.
  rewrite <- (NilZero.usu (Nat.to_uint j)) by apply to_uint_nonnil.
  by rewrite H.
Qed.

Lemma createChildPath_unkeyed parentPath index nodeType :
  createChildPath parentPath None index nodeType
  = parentPath ++ "." ++ unkeyed_suffix index nodeType.
Proof.
  unfold createChildPath, unkeyed_suffix.
  destruct nodeType as [|[|c s]| |name]; simpl; try done.
Qed.

Lemma unkeyed_suffix_inj i j t u : unkeyed_suffix i t = unkeyed_suffix j u → i = j.
Proof.
  assert (Htyped : ∀ a b, "c" ++ a ++ "_" ++ string_of_nat i
                          = "c" ++ b ++ "_" ++ string_of_nat j → i = j).
  { intros a b [= H]. apply string_of_nat_inj.
    eapply (split_at_last underscore a b); [..|exact H]; apply string_of_nat_no_underscore. }
  assert (Hidx : "i" ++ string_of_nat i = "i" ++ string_of_nat j → i = j).
  { intros [= H]. by apply string_of_nat_inj. }
  unfold unkeyed_suffix.
  destruct t as [|[|c s]| |n], u as [|[|c' s']| |n']; try done; try apply Hidx;
    try apply Htyped; try (intros H; by apply Htyped in H).
Qed.

Lemma createChildPath_index_inj parentPath i j t u :
  createChildPath parentPath None i t = createChildPath parentPath None j u → i = j.
Proof.
  rewrite !createChildPath_unkeyed. intros H.
  do 2 apply string_app_inv_head in H. by apply unkeyed_suffix_inj in H.
Qed.


(** ** The second pass over an unchanged tree *)

Lemma Object_is_refl v : Object_is v v = true.
Proof. destruct v; cbn [Object_is]; try done; by apply bool_decide_eq_true_2. Qed.







Section Matching.
Context (components : nat → Component) (s : State) (path : string).









End Matching.















Lemma bind_Done {A B} (m : M A) (k : A → M B) s a s' :
  m s = Done a s' → (m ≫= k) s = k a s'.
Proof. unfold mbind, M_bind. by intros ->. Qed.









(** ** Mounting returns an instance *)

Lemma parentNode_upd_node n f s m :
  Dom.parentNode (Dom.upd_node n f s) m
  = if bool_decide (m = n) then dn_parent (f (Dom.node_of s n)) else Dom.parentNode s m.
Proof.
  unfold Dom.parentNode, Dom.node_of, Dom.upd_node. state_simpl.
  case_bool_decide as Hm.
  - subst m. by rewrite lookup_insert_eq.
  - by rewrite lookup_insert_ne.
Qed.

Lemma parentNode_detach n s m :
  m ≠ n → Dom.parentNode (Dom.detach n s) m = Dom.parentNode s m.
Proof.
  intros Hm. unfold Dom.detach. destruct (Dom.parentNode s n) as [p|]; [|done].
  rewrite !parentNode_upd_node. rewrite bool_decide_eq_false_2 by done.
  case_bool_decide as Hp; [|done]. by subst m.
Qed.

Lemma dom_next_detach n s : dom_next (Dom.detach n s) = dom_next s.
Proof. unfold Dom.detach. by destruct (Dom.parentNode s n). Qed.
















Lemma getFirstDom_unfold inst :
  getFirstDom inst
  = match idom inst with
    | Some d => Some d
    | None => getFirstDomFromChildren (ichildren inst)
    end.
Proof.
  destruct inst as [addr kind dom node children key path].
  cbn [getFirstDom idom ichildren]. destruct dom as [d|]; [done|].
  induction children as [|[c|] cs IH]; cbn [getFirstDomFromChildren]; [done| |done].
  by rewrite IH.
Qed.


Section Mounting.
Context (components : nat → Component) (rec : Reconcile).







End Mounting.









(** * Further properties of the code *)

(** ** The hook store *)

Lemma useState_run init path c s :
  in_component path c s →
  useState init s
  = if bool_decide (length (slots_of path s) ≤ c)%nat then
      Done (slot_at (slots_of path s ++ [initial_value init]) c, mkSetter path c)
           (upd_cursor (λ m, <[path := c + 1]> m)
              (upd_hooks_state (Amap.set path (slots_of path s ++ [initial_value init])%list) s))
    else
      Done (slot_at (slots_of path s) c, mkSetter path c)
           (upd_cursor (λ m, <[path := c + 1]> m) s).
Proof.
  intros [Hlast Hcur]. unfold useState, currentCursor, currentHooks, currentPath, slots_of.
  munfold. repeat (progress (cbv beta iota; try rewrite Hlast; try rewrite Hcur)).
  destruct (bool_decide (length _ ≤ c)%nat); state_simpl; by destruct init.
Qed.






Lemma slot_write_length hooks c v : c < length (slot_write hooks c v).
Proof.
  unfold slot_write. case_bool_decide.
  - by rewrite length_insert.
  - rewrite !length_app, length_replicate. cbn [length]. lia.
Qed.

Lemma slot_at_write_ne hooks c v i :
  i ≠ c → slot_at (slot_write hooks c v) i = slot_at hooks i.
Proof.
  intros Hi. unfold slot_at, slot_write. case_bool_decide as Hc.
  - by rewrite list_lookup_insert_ne.
  - destruct (decide (i < length hooks)) as [Hlt|Hge].
    + by rewrite lookup_app_l.
    + rewrite lookup_app_r by lia. rewrite (lookup_ge_None_2 hooks i) by lia.
      destruct (decide (i < c)) as [Hic|Hic].
      * rewrite lookup_app_l by (rewrite length_replicate; lia).
        rewrite lookup_replicate_2 by lia. done.
      * rewrite lookup_app_r by (rewrite length_replicate; lia).
        rewrite length_replicate. rewrite lookup_ge_None_2; [done|].
        cbn [length]. lia.
Qed.

(** X2: a state update is what the next invocation reads.  When the
    setter of slot [c] of [path] is called with a value (or an updater
    result) that is not identical to the stored one, the slot holds the new
    value, the other slots and the other paths hold what they held, and the
    next [useState] call made for that slot returns the new value whatever
    its initial-value argument, without writing to the store. *)
Theorem setState_then_useState :
  ∀ path c next s,
    Object_is (slot_at (slots_of path s) c)
              (next_value next (slot_at (slots_of path s) c)) = false →
    ∃ s1,
      setState (mkSetter path c) next s = Done tt s1
      ∧ slot_at (slots_of path s1) c = next_value next (slot_at (slots_of path s) c)
      ∧ (∀ i, i ≠ c → slot_at (slots_of path s1) i = slot_at (slots_of path s) i)
      ∧ (∀ p, p ≠ path → Amap.get p (hooks_state s1) = Amap.get p (hooks_state s))
      ∧ ∀ init s2,
          in_component path c s2 → slots_of path s2 = slots_of path s1 →
          ∃ s3, useState init s2
                = Done (next_value next (slot_at (slots_of path s) c), mkSetter path c) s3
                ∧ hooks_state s3 = hooks_state s2.
Proof.
  intros path c next s Hdiff.
  set (hooks := slots_of path s) in *. set (v := next_value next (slot_at hooks c)) in *.
  assert (Hrun : setState (mkSetter path c) next s
                 = Done tt (upd_render true (S (render_requests s))
                              (upd_hooks_state (Amap.set path (slot_write hooks c v)) s))).
  { unfold setState, enqueueRender. munfold. cbn [set_path set_cursor].
    fold (slots_of path s). fold hooks.
    replace (match next with Updater f => f (slot_at hooks c) | Direct v0 => v0 end)
      with v by (by destruct next).
    by rewrite Hdiff. }
  eexists. split; [exact Hrun|].
  assert (Hslots : slots_of path (upd_render true (S (render_requests s))
                     (upd_hooks_state (Amap.set path (slot_write hooks c v)) s))
                   = slot_write hooks c v).
  { unfold slots_of. state_simpl. by rewrite Amap_get_set_eq. }
  rewrite Hslots. split; [apply slot_at_write|].
  split; [intros i Hi; by apply slot_at_write_ne|].
  split; [intros p Hp; state_simpl; by rewrite Amap_get_set_ne|].
  intros init s2 Hin Hstore.
  rewrite (useState_run init path c s2 Hin), Hstore.
  rewrite bool_decide_eq_false_2 by (pose proof (slot_write_length hooks c v); lia).
  eexists. split; [by rewrite slot_at_write|done].
Qed.

Lemma setState_then_useState_witness :
  ∃ s1, setState (mkSetter "0" 0) (Updater (λ _, VNum 5)) (first_render (component 0))
        = Done tt s1
    ∧ ∃ s3, useState (Eager (VNum 1)) (enter_component "0" s1)
            = Done (VNum 5, mkSetter "0" 0) s3.
Proof.
  destruct (setState_then_useState "0" 0 (Updater (λ _, VNum 5)) (first_render (component 0)))
    as (s1 & Hrun & _ & _ & _ & Hread); [vm_compute; reflexivity|].
  exists s1. split; [exact Hrun|].
  destruct (Hread (Eager (VNum 1)) (enter_component "0" s1)) as (s3 & Hrun3 & _).
  - split; unfold enter_component; state_simpl; [apply last_snoc|].
    by rewrite lookup_insert_eq.
  - reflexivity.
  - by exists s3.
Defined.

Lemma Amap_set_absent {V} (k : string) (v : V) (m : list (string * V)) :
  Amap.get k m = None → Amap.set k v m = (m ++ [(k, v)])%list.
Proof.
  induction m as [|[k' v'] m IH]; cbn [Amap.get Amap.set]; [done|].
  destruct (bool_decide (k' = k)); [done|]. intros Hnone. by rewrite IH.
Qed.

(** X3: a setter that outlives its component brings the path back.  When
    the store holds nothing for [path] (never mounted, or purged by the
    garbage collection), a setter call for slot [c] with a value other than
    [undefined] appends a new slot sequence for [path] to the store (the
    slots before [c] are [undefined]) and requests a render; a component
    mounted at [path] afterwards reads slot 0 of that sequence from its
    first [useState] call instead of its initial value. *)
Theorem stale_setter_recreates_path :
  ∀ path c v s,
    Amap.get path (hooks_state s) = None →
    Object_is VUndef v = false →
    ∃ s1,
      setState (mkSetter path c) (Direct v) s = Done tt s1
      ∧ hooks_state s1 = (hooks_state s ++ [(path, replicate c VUndef ++ [v])])%list
      ∧ render_scheduled s1 = true
      ∧ render_requests s1 = S (render_requests s)
      ∧ ∀ init, ∃ s2,
          useState init (enter_component path s1)
          = Done (match c with 0 => v | S _ => VUndef end, mkSetter path 0) s2.
Proof.
  intros path c v s Hnone Hdef.
  assert (Hslots : slots_of path s = []) by (unfold slots_of; by rewrite Hnone).
  assert (Hrun : setState (mkSetter path c) (Direct v) s
                 = Done tt (upd_render true (S (render_requests s))
                              (upd_hooks_state (Amap.set path (replicate c VUndef ++ [v])%list) s))).
  { unfold setState, enqueueRender. munfold. cbn [set_path set_cursor].
    rewrite Hnone. cbn [default from_option]. unfold slot_at at 1.
    rewrite lookup_nil. cbn [default from_option]. rewrite Hdef.
    unfold slot_write. rewrite bool_decide_eq_false_2 by (cbn [length]; lia).
    cbn [length app]. by replace (c - 0) with c by lia. }
  eexists. split; [exact Hrun|]. state_simpl.
  split; [by apply Amap_set_absent|]. split; [done|]. split; [done|].
  intros init.
  match goal with |- context [enter_component path ?st] => set (s1 := st) end.
  assert (Hin : in_component path 0 (enter_component path s1)).
  { split; unfold enter_component; state_simpl; [apply last_snoc|].
    by rewrite lookup_insert_eq. }
  rewrite (useState_run init path 0 _ Hin).
  assert (Hstore : slots_of path (enter_component path s1) = (replicate c VUndef ++ [v])%list).
  { unfold slots_of, enter_component, s1. state_simpl. by rewrite Amap_get_set_eq. }
  rewrite Hstore. rewrite bool_decide_eq_false_2
    by (rewrite length_app, length_replicate; cbn [length]; lia).
  eexists. f_equal. f_equal. by destruct c.
Qed.

Lemma stale_setter_recreates_path_witness :
  ∃ s1, setState (mkSetter "0.cA_3" 1) (Direct (VNum 9)) initial_state = Done tt s1
    ∧ hooks_state s1 = [("0.cA_3", [VUndef; VNum 9])]
    ∧ ∃ s2, useState (Eager (VNum 1)) (enter_component "0.cA_3" s1)
            = Done (VUndef, mkSetter "0.cA_3" 0) s2.
Proof.
  destruct (stale_setter_recreates_path "0.cA_3" 1 (VNum 9) initial_state)
    as (s1 & Hrun & Hstate & _ & _ & Hmount); [reflexivity|reflexivity|].
  exists s1. split; [exact Hrun|]. split; [exact Hstate|]. apply Hmount.
Defined.

Lemma useEffect_run effect deps path c s :
  in_component path c s →
  useEffect effect deps s
  = let hooks := slots_of path s in
    let prevHook := match hooks !! c with
                    | Some (VEffect _ pdeps pcleanup _) => Some (pdeps, pcleanup)
                    | _ => None
                    end in
    let shouldRun := match prevHook, deps with
                     | None, _ => true
                     | _, None => true
                     | Some (pdeps, _), Some d => negb (deps_equal pdeps d)
                     end in
    let effectHook :=
      VEffect (heap_next s) deps (match prevHook with Some (_, cl) => cl | None => None end)
              effect in
    let hooks' := if bool_decide (length hooks ≤ c)%nat then (hooks ++ [effectHook])%list
                  else <[c := effectHook]> hooks in
    Done tt (upd_cursor (λ m, <[path := c + 1]> m)
               (upd_queue (λ q, if shouldRun then (q ++ [(path, c)])%list else q)
                  (upd_hooks_state (Amap.set path hooks')
                     (upd_heap_next S s)))).
Proof.
  intros [Hlast Hcur]. unfold useEffect, currentCursor, currentHooks, currentPath,
    fresh_addr, slots_of.
  munfold. repeat (progress (cbv beta iota zeta; try rewrite Hlast; try rewrite Hcur)).
  state_simpl.
  destruct (match default [] (Amap.get path (hooks_state s)) !! c with
            | Some (VEffect _ pdeps pcleanup _) => Some (pdeps, pcleanup)
            | _ => None
            end) as [[pdeps pcl]|]; [destruct deps as [d|]|];
    try destruct (negb (deps_equal pdeps d)); reflexivity.
Qed.

(** X4: [useEffect] only records.  Called as hook number [c] of the
    component at [path] (with at least [c] slots stored), it calls neither
    the effect body nor a cleanup, stores a new effect record in slot [c]
    and leaves the other slots alone, and moves the cursor on by one.  The
    cleanup of an effect record already in the slot is carried into the new
    record.  The entry [(path, c)] is appended to the pending-effects queue
    when the slot held no effect record, when no dependency list is given,
    or when the list differs from the stored one; with an identical list
    the queue is left as it is. *)
Theorem useEffect_records_and_compares_deps :
  ∀ effect deps path c s,
    in_component path c s →
    (c ≤ length (slots_of path s))%nat →
    ∃ carried s',
      useEffect effect deps s = Done tt s'
      ∧ trace s' = trace s
      ∧ slots_of path s' !! c = Some (VEffect (heap_next s) deps carried effect)
      ∧ (∀ i, i ≠ c → slots_of path s' !! i = slots_of path s !! i)
      ∧ in_component path (c + 1) s'
      ∧ (∀ a d0 cl e0, slots_of path s !! c = Some (VEffect a d0 cl e0) → carried = cl)
      ∧ (∀ a d0 cl e0 d,
            slots_of path s !! c = Some (VEffect a (Some d0) cl e0) →
            deps = Some d → shallowEquals d0 d = true →
            effects_queue s' = effects_queue s)
      ∧ (deps = None
         ∨ (∀ a d0 cl e0, slots_of path s !! c ≠ Some (VEffect a d0 cl e0))
         ∨ (∃ a d0 cl e0 d, slots_of path s !! c = Some (VEffect a d0 cl e0)
                            ∧ deps = Some d ∧ deps_equal d0 d = false) →
         effects_queue s' = (effects_queue s ++ [(path, c)])%list).
Proof.
  intros effect deps path c s Hin Hlen.
  rewrite (useEffect_run effect deps path c s Hin). cbv zeta.
  set (hooks := slots_of path s) in *.
  set (prevHook := match hooks !! c with
                   | Some (VEffect _ pdeps pcleanup _) => Some (pdeps, pcleanup)
                   | _ => None
                   end).
  set (carried := match prevHook with Some (_, cl) => cl | None => None end).
  set (hook := VEffect (heap_next s) deps carried effect).
  set (hooks' := if bool_decide (length hooks ≤ c)%nat then (hooks ++ [hook])%list
                 else <[c := hook]> hooks).
  exists carried. eexists. split; [reflexivity|].
  assert (Hslots : ∀ st q f, slots_of path
            (upd_cursor f (upd_queue q (upd_hooks_state (Amap.set path hooks') st))) = hooks').
  { intros st q f. unfold slots_of. state_simpl. by rewrite Amap_get_set_eq. }
  rewrite Hslots. split; [done|]. split; [|split; [|split; [|split; [|split]]]].
  - unfold hooks'. case_bool_decide.
    + rewrite lookup_app_r by lia. by replace (c - length hooks) with 0 by lia.
    + apply list_lookup_insert_eq. lia.
  - intros i Hi. unfold hooks'. case_bool_decide.
    + destruct (decide (i < length hooks)); [by rewrite lookup_app_l|].
      rewrite lookup_app_r by lia. rewrite (lookup_ge_None_2 hooks i) by lia.
      apply lookup_ge_None_2. cbn [length]. lia.
    + by rewrite list_lookup_insert_ne.
  - destruct Hin as [Hlast _]. split; state_simpl; [done|]. by rewrite lookup_insert_eq.
  - intros a d0 cl e0 Hslot. unfold carried, prevHook. by rewrite Hslot.
  - intros a d0 cl e0 d Hslot -> Heq. state_simpl. unfold prevHook. rewrite Hslot.
    cbn [deps_equal]. by rewrite Heq.
  - state_simpl. intros [->|[Hnone|(a & d0 & cl & e0 & d & Hslot & -> & Hneq)]].
    + by destruct prevHook as [[? ?]|].
    + unfold prevHook. destruct (hooks !! c) as [[]|] eqn:E; try done.
      exfalso. by eapply Hnone.
    + unfold prevHook. rewrite Hslot. by rewrite Hneq.
Qed.

Lemma useEffect_records_and_compares_deps_witness :
  ∃ carried s',
    useEffect (mkEffect 7 None) (Some [VNum 1]) (enter_component "0" two_effects_flushed)
    = Done tt s'
    ∧ carried = Some (mkCleanup 10 false)
    ∧ effects_queue s' = [("0", 0)].
Proof.
  destruct (useEffect_records_and_compares_deps (mkEffect 7 None) (Some [VNum 1]) "0" 0
              (enter_component "0" two_effects_flushed))
    as (carried & s' & Hrun & _ & _ & _ & _ & Hcarried & _ & Hqueue).
  - split; vm_compute; reflexivity.
  - vm_compute. lia.
  - exists carried, s'. split; [exact Hrun|]. split.
    + apply (Hcarried 0 None (Some (mkCleanup 10 false))
               (mkEffect 1 (Some (RetCleanup (mkCleanup 10 false))))).
      vm_compute. reflexivity.
    + rewrite Hqueue; [vm_compute; reflexivity|].
      right; right.
      exists 0, None, (Some (mkCleanup 10 false)),
        (mkEffect 1 (Some (RetCleanup (mkCleanup 10 false)))), [VNum 1].
      split; [vm_compute; reflexivity|]. split; reflexivity.
Defined.

(** ** State migration *)

(** X5: the migration that [updateComponent] and [reconcile] run when an
    instance is reconciled at a path other than its own moves the hook
    state with it.  The slot sequence, the cursor and the visited mark of
    the old path go to the new path and the old path is left without any;
    every third path keeps what it had.  When the old path has no slot
    sequence the store is left as it is (so the new path keeps whatever it
    already held).  Nothing else of the context changes. *)
Theorem migrate_moves_hook_state :
  ∀ oldPath path s,
    oldPath ≠ path →
    ∃ s',
      migrate oldPath path s = Done tt s'
      ∧ (∀ hooks, Amap.get oldPath (hooks_state s) = Some hooks →
           Amap.get path (hooks_state s') = Some hooks
           ∧ Amap.get oldPath (hooks_state s') = None)
      ∧ (Amap.get oldPath (hooks_state s) = None → hooks_state s' = hooks_state s)
      ∧ (∀ p, p ≠ oldPath → p ≠ path →
           Amap.get p (hooks_state s') = Amap.get p (hooks_state s)
           ∧ hooks_cursor s' !! p = hooks_cursor s !! p
           ∧ (p ∈ hooks_visited s' ↔ p ∈ hooks_visited s))
      ∧ (∀ cursor, hooks_cursor s !! oldPath = Some cursor →
           hooks_cursor s' !! path = Some cursor ∧ hooks_cursor s' !! oldPath = None)
      ∧ (hooks_cursor s !! oldPath = None → hooks_cursor s' = hooks_cursor s)
      ∧ (oldPath ∈ hooks_visited s → path ∈ hooks_visited s' ∧ oldPath ∉ hooks_visited s')
      ∧ (oldPath ∉ hooks_visited s → hooks_visited s' = hooks_visited s)
      ∧ dom_nodes s' = dom_nodes s ∧ dom_log s' = dom_log s
      ∧ trace s' = trace s ∧ effects_queue s' = effects_queue s
      ∧ hooks_componentStack s' = hooks_componentStack s.
Proof.
  intros oldPath path s Hne. unfold migrate. munfold.
  destruct (Amap.get oldPath (hooks_state s)) as [oldState|] eqn:Hstate;
    destruct (hooks_cursor s !! oldPath) as [oldCursor|] eqn:Hcursor;
    destruct (bool_decide (oldPath ∈ hooks_visited s)) eqn:Hvisited;
    state_simpl; rewrite ?Hcursor; state_simpl; rewrite ?Hvisited;
    (eexists; split; [reflexivity|]); state_simpl;
    try apply bool_decide_eq_true_1 in Hvisited;
    try apply bool_decide_eq_false_1 in Hvisited;
    repeat split; try done;
    try (intros ? [= <-]);
    rewrite ?Amap_get_delete_eq, ?lookup_delete_eq; try done;
    try (rewrite Amap_get_delete_ne by done; by rewrite ?Amap_get_set_eq, ?Amap_get_set_ne by done);
    try (rewrite lookup_delete_ne by done; by rewrite ?lookup_insert_eq, ?lookup_insert_ne by done);
    try (rewrite ?elem_of_union, ?elem_of_difference, ?elem_of_singleton;
         intuition congruence).
Qed.

Lemma migrate_moves_hook_state_witness :
  ∃ s', migrate "0" "0.kx" counterA_at_5 = Done tt s'
    ∧ hooks_state s' = [("0.kx", [VNum 5])].
Proof.
  destruct (migrate_moves_hook_state "0" "0.kx" counterA_at_5) as (s' & Hrun & _);
    [discriminate|].
  exists s'. split; [exact Hrun|].
  vm_compute in Hrun. injection Hrun as <-. vm_compute. reflexivity.
Defined.

(** ** The effect flush on entries that are not effects *)

Lemma flushEntry_dead path cursor s :
  dead_entry s (path, cursor) = true → flushEntry path cursor s = Done tt s.
Proof.
  unfold dead_entry, flushEntry. munfold. cbn [fst snd].
  destruct (Amap.get path (hooks_state s)) as [hooks|]; [|done].
  destruct (hooks !! cursor) as [v|]; [|done].
  destruct v as [| |[]|z|[|a str]|f|a fields|a d cl e]; cbn [truthy negb orb]; try done.
  by destruct (bool_decide (z = 0%Z)).
Qed.

Lemma flushEntry_primitive path cursor s :
  primitive_entry s (path, cursor) = true → flushEntry path cursor s = Raised s.
Proof.
  unfold primitive_entry, flushEntry. munfold. cbn [fst snd].
  destruct (Amap.get path (hooks_state s)) as [hooks|]; [|done].
  destruct (hooks !! cursor) as [v|]; [|done].
  destruct v as [| |[]|z|[|a str]|f|a fields|a d cl e]; try done.
  by destruct (bool_decide (z = 0%Z)).
Qed.

Lemma flushQueue_dead pending : ∀ s,
  Forall (λ e, dead_entry s e = true) pending →
  pending ≠ [] →
  flushQueue pending s = Done tt (upd_queue (λ _, []) s).
Proof.
  induction pending as [|[path cursor] pending IH]; intros s Hdead Hne; [done|].
  apply Forall_cons in Hdead as [Hhere Hrest].
  cbn [flushQueue]. munfold.
  rewrite (flushEntry_dead path cursor (upd_queue (λ _, pending) s)) by done.
  destruct pending as [|e pending]; [done|].
  rewrite IH; [done| |done].
  eapply Forall_impl; [exact Hrest|]. by intros [p c].
Qed.

(** X6: the flush passes over queue entries that do not address an effect
    record.  When every queued entry points at a path without slots, at a
    missing slot, or at a slot holding a falsy value, a function or a plain
    object, [flushEffects] empties the queue and changes nothing else: no
    closure is called.  When the entries before some entry are of that kind
    and that entry's slot holds a truthy primitive, the ["kind" in hook]
    test throws there: the flush ends with the later entries still queued. *)
Theorem flushEffects_skips_non_effects :
  ∀ s,
    (Forall (λ e, dead_entry s e = true) (effects_queue s) →
     ∃ s', flushEffects s = Done tt s'
           ∧ effects_queue s' = []
           ∧ hooks_state s' = hooks_state s ∧ trace s' = trace s
           ∧ dom_log s' = dom_log s)
    ∧ (∀ pre bad post,
          effects_queue s = (pre ++ bad :: post)%list →
          Forall (λ e, dead_entry s e = true) pre →
          primitive_entry s bad = true →
          ∃ s', flushEffects s = Raised s'
                ∧ effects_queue s' = post
                ∧ hooks_state s' = hooks_state s ∧ trace s' = trace s).
Proof.
  intros s. split.
  - intros Hdead. unfold flushEffects. munfold.
    destruct (effects_queue s) as [|e q] eqn:Hq.
    + exists s. done.
    + rewrite flushQueue_dead by done. eexists. split; [reflexivity|]. done.
  - intros pre bad post Hq Hdead Hbad. unfold flushEffects. munfold. rewrite Hq.
    clear Hq. revert s Hdead Hbad.
    induction pre as [|[path cursor] pre IH]; intros s Hdead Hbad.
    + destruct bad as [path cursor]. cbn [app flushQueue]. munfold.
      rewrite (flushEntry_primitive path cursor (upd_queue (λ _, post) s)) by done.
      eexists. split; [reflexivity|]. done.
    + apply Forall_cons in Hdead as [Hhere Hrest].
      cbn [app flushQueue]. munfold.
      rewrite (flushEntry_dead path cursor (upd_queue (λ _, (pre ++ bad :: post)%list) s))
        by done.
      destruct (IH (upd_queue (λ _, (pre ++ bad :: post)%list) s)) as (s' & Hrun & Hrest');
        [|done|].
      * eapply Forall_impl; [exact Hrest|]. by intros [p c].
      * exists s'. split; [exact Hrun|]. exact Hrest'.
Qed.

Lemma flushEffects_skips_non_effects_witness :
  (∃ s', flushEffects (upd_queue (λ _, [("gone", 0); ("0", 5)]) counterA_at_5) = Done tt s'
         ∧ effects_queue s' = [])
  ∧ ∃ s', flushEffects (upd_queue (λ _, [("gone", 0); ("0", 0); ("0", 1)]) counterA_at_5)
          = Raised s'
          ∧ effects_queue s' = [("0", 1)].
Proof.
  split.
  - destruct (flushEffects_skips_non_effects
                (upd_queue (λ _, [("gone", 0); ("0", 5)]) counterA_at_5))
      as [Hskip _].
    destruct Hskip as (s' & Hrun & Hq & _).
    + vm_compute. repeat constructor.
    + by exists s'.
  - destruct (flushEffects_skips_non_effects
                (upd_queue (λ _, [("gone", 0); ("0", 0); ("0", 1)]) counterA_at_5))
      as [_ Hthrow].
    destruct (Hthrow [("gone", 0)] ("0", 0) [("0", 1)]) as (s' & Hrun & Hq & _).
    + reflexivity.
    + vm_compute. repeat constructor.
    + vm_compute. reflexivity.
    + by exists s'.
Defined.

(** ** Garbage collection outside a pass, and cleanups that throw *)

Lemma cleanupUnusedHooks_result s :
  Forall (λ c, cl_throws c = false) (stale_cleanups s) →
  ∃ s', cleanupUnusedHooks s = Done tt s'
        ∧ trace s' = (trace s ++ cleanup_events (stale_cleanups s))%list
        ∧ hooks_state s' = filter (λ e, e.1 ∈ hooks_visited s) (hooks_state s)
        ∧ hooks_visited s' = ∅.
Proof.
  intros Hok. unfold cleanupUnusedHooks. munfold.
  pose proof (gc_loop (hooks_state s) [] [] s Hok) as Hloop.
  rewrite gc_result_nil in Hloop. rewrite Hloop. rewrite !app_nil_l.
  eexists. split; [reflexivity|]. unfold gc_result. state_simpl.
  split; [done|]. split; [|done].
  rewrite foldl_Amap_delete. apply filter_ext_in. intros [k v] Hin. cbn [fst].
  unfold stale_of. rewrite list_elem_of_fmap. split.
  - intros Hn. destruct (decide (k ∈ hooks_visited s)) as [|Hnv]; [done|].
    exfalso. apply Hn. exists (k, v). split; [done|].
    apply list_elem_of_filter. by split.
  - intros Hv [[k' v'] [-> Hin']]. apply list_elem_of_filter in Hin' as [Hst _]. done.
Qed.

Lemma Forall_bind_filter {A B} (P : B → Prop) (Q : A → Prop) `{∀ x, Decision (Q x)}
    (f : A → list B) (l : list A) :
  Forall P (l ≫= f) → Forall P (filter Q l ≫= f).
Proof.
  induction l as [|x l IH]; [done|].
  cbn [mbind list_bind]. rewrite filter_cons. intros Hall.
  apply Forall_app in Hall as [Hx Hl].
  destruct (decide (Q x)); [|by apply IH].
  cbn [mbind list_bind]. apply Forall_app. split; [done|by apply IH].
Qed.

Lemma filter_none {A} (P : A → Prop) `{∀ x, Decision (P x)} (l : list A) :
  (∀ x, x ∈ l → ¬ P x) → filter P l = [].
Proof.
  induction l as [|x l IH]; intros Hnone; [done|].
  rewrite filter_cons_False by (apply Hnone; by left).
  apply IH. intros y Hy. apply Hnone. by right.
Qed.

(** X7: the garbage collection depends on the marks of a reconcile pass
    and consumes them.  Run a second time without a pass in between, it
    finds no path marked and purges the whole store: the cleanups of the
    components that are still mounted are called too, after those of the
    components the first run purged, and no slot sequence is left. *)
Theorem cleanupUnusedHooks_twice_empties_store :
  ∀ s,
    Forall (λ c, cl_throws c = false) (hooks_state s ≫= (λ e, hook_cleanups e.2)) →
    ∃ s1 s2,
      cleanupUnusedHooks s = Done tt s1
      ∧ cleanupUnusedHooks s1 = Done tt s2
      ∧ hooks_state s1 = filter (λ e, e.1 ∈ hooks_visited s) (hooks_state s)
      ∧ hooks_state s2 = []
      ∧ trace s2 = (trace s ++ cleanup_events (stale_cleanups s)
                      ++ cleanup_events (hooks_state s1 ≫= (λ e, hook_cleanups e.2)))%list.
Proof.
  intros s Hok.
  destruct (cleanupUnusedHooks_result s) as (s1 & Hrun1 & Htrace1 & Hstate1 & Hvisited1).
  { unfold stale_cleanups, stale_entries. by apply Forall_bind_filter. }
  assert (Hstale1 : stale_entries s1 = hooks_state s1).
  { unfold stale_entries. rewrite Hvisited1. apply filter_all.
    intros e _. apply not_elem_of_empty. }
  destruct (cleanupUnusedHooks_result s1) as (s2 & Hrun2 & Htrace2 & Hstate2 & _).
  { unfold stale_cleanups. rewrite Hstale1, Hstate1. by apply Forall_bind_filter. }
  exists s1, s2. split; [done|]. split; [done|]. split; [done|]. split.
  - rewrite Hstate2, Hvisited1. apply filter_none.
    intros e _. apply not_elem_of_empty.
  - rewrite Htrace2, Htrace1. unfold stale_cleanups at 2. rewrite Hstale1.
    by rewrite <- app_assoc.
Qed.

Lemma cleanupUnusedHooks_twice_empties_store_witness :
  hooks_state two_effects_flushed ≠ []
  ∧ ∃ s1 s2,
      cleanupUnusedHooks (upd_visited (λ _, {["0"]}) two_effects_flushed) = Done tt s1
      ∧ cleanupUnusedHooks s1 = Done tt s2
      ∧ hooks_state s1 = hooks_state two_effects_flushed
      ∧ hooks_state s2 = []
      ∧ trace s2 = [EvEffect 1; EvEffect 2; EvCleanup 10; EvCleanup 20].
Proof.
  split; [by vm_compute|].
  destruct (cleanupUnusedHooks_twice_empties_store
              (upd_visited (λ _, {["0"]}) two_effects_flushed))
    as (s1 & s2 & Hrun1 & Hrun2 & Hstate1 & Hstate2 & Htrace).
  - vm_compute. repeat constructor.
  - exists s1, s2. split; [done|]. split; [done|].
    assert (Hs1 : hooks_state s1 = hooks_state two_effects_flushed).
    { rewrite Hstate1. vm_compute. reflexivity. }
    split; [done|]. split; [done|].
    rewrite Htrace, Hs1. vm_compute. reflexivity.
Defined.

Lemma for_each_app {A} (l1 l2 : list A) (body : A → M unit) s :
  for_each (l1 ++ l2) body s
  = match for_each l1 body s with
    | Done _ s' => for_each l2 body s'
    | Raised s' => Raised s'
    | Starved => Starved
    end.
Proof.
  revert s. induction l1 as [|x l1 IH]; intros s; [done|].
  cbn [app]. rewrite !for_each_cons. destruct (body x s); [apply IH|done|done].
Qed.

Lemma for_each_cleanupHook_throws hooks : ∀ ok c rest s,
  hook_cleanups hooks = (ok ++ c :: rest)%list →
  Forall (λ c, cl_throws c = false) ok →
  cl_throws c = true →
  for_each hooks cleanupHook s
  = Raised (upd_trace (λ t, (t ++ cleanup_events (ok ++ [c]))%list) s).
Proof.
  induction hooks as [|h hooks IH]; intros ok c rest s Hsplit Hok Hc.
  - by destruct ok.
  - rewrite for_each_cons.
    destruct h as [| | | | | | |addr deps [c0|] effect];
      try (change (hook_cleanups (_ :: hooks)) with (hook_cleanups hooks) in Hsplit;
           cbn [cleanupHook]; munfold; by apply (IH ok c rest)).
    change (hook_cleanups (VEffect addr deps (Some c0) effect :: hooks))
      with (c0 :: hook_cleanups hooks) in Hsplit.
    cbn [cleanupHook]. unfold call_cleanup. munfold. state_simpl.
    destruct ok as [|c1 ok]; cbn [app] in Hsplit; injection Hsplit as -> Hsplit.
    + by rewrite Hc.
    + apply Forall_cons in Hok as [Hc1 Hok]. rewrite Hc1.
      rewrite (IH ok c rest _ Hsplit Hok Hc).
      destruct s. state_simpl. unfold cleanup_events. cbn [app fmap list_fmap].
      by rewrite <- app_assoc.
Qed.

(** X8: a cleanup that throws aborts the garbage collection half way.
    The unvisited paths before the one whose cleanup throws have been
    purged; that path keeps its slot sequence, its cleanups up to the
    throwing one have been called and the later ones have not; the paths
    after it are not looked at; and the marker set is not cleared, so the
    marks of this pass are still there at the next one. *)
Theorem cleanupUnusedHooks_stops_at_throwing_cleanup :
  ∀ s pre path hooks post ok c rest,
    hooks_state s = (pre ++ (path, hooks) :: post)%list →
    NoDup (hooks_state s).*1 →
    path ∉ hooks_visited s →
    Forall (λ c, cl_throws c = false)
           (stale_of (hooks_visited s) pre ≫= (λ e, hook_cleanups e.2)) →
    hook_cleanups hooks = (ok ++ c :: rest)%list →
    Forall (λ c, cl_throws c = false) ok →
    cl_throws c = true →
    ∃ s',
      cleanupUnusedHooks s = Raised s'
      ∧ hooks_state s'
        = (filter (λ e, e.1 ∈ hooks_visited s) pre ++ (path, hooks) :: post)%list
      ∧ hooks_visited s' = hooks_visited s
      ∧ trace s'
        = (trace s
             ++ cleanup_events (stale_of (hooks_visited s) pre ≫= (λ e, hook_cleanups e.2))
             ++ cleanup_events (ok ++ [c]))%list.
Proof.
  intros s pre path hooks post ok c rest Hstate Hnd Hstale Hpre Hsplit Hok Hc.
  unfold cleanupUnusedHooks. munfold. rewrite Hstate.
  rewrite for_each_app.
  pose proof (gc_loop pre [] [] s Hpre) as Hloop.
  rewrite gc_result_nil in Hloop. rewrite Hloop. rewrite !app_nil_l.
  rewrite for_each_cons. unfold cleanupEntry at 1. munfold.
  match goal with |- context [hooks_visited (gc_result ?p ?e s)] =>
    change (hooks_visited (gc_result p e s)) with (hooks_visited s) end.
  rewrite bool_decide_eq_false_2 by done.
  rewrite (for_each_cleanupHook_throws hooks ok c rest _ Hsplit Hok Hc).
  eexists. split; [reflexivity|]. unfold gc_result. state_simpl.
  split; [|split; [done|by rewrite <- app_assoc]].
  rewrite foldl_Amap_delete, Hstate, filter_app.
  rewrite Hstate in Hnd. rewrite fmap_app in Hnd.
  apply NoDup_app in Hnd as (_ & Hdisj & _).
  set (purged := (stale_of (hooks_visited s) pre).*1).
  assert (Hpurged : ∀ k, k ∈ purged → k ∈ pre.*1 ∧ k ∉ hooks_visited s).
  { intros k Hk. unfold purged, stale_of in Hk.
    apply list_elem_of_fmap in Hk as [[k' v'] [-> Hin]].
    apply list_elem_of_filter in Hin as [Hst Hin]. split; [|done].
    by apply (list_elem_of_fmap_2 fst) in Hin. }
  f_equal.
  - apply filter_ext_in. intros [k v] Hin. cbn [fst]. split.
    + intros Hn. destruct (decide (k ∈ hooks_visited s)) as [|Hnv]; [done|].
      exfalso. apply Hn. unfold purged, stale_of. apply list_elem_of_fmap.
      exists (k, v). split; [done|]. apply list_elem_of_filter. by split.
    + intros Hv Hk. by apply Hpurged in Hk as [_ Hk].
  - apply filter_all. intros [k v] Hin Hk. cbn [fst] in Hk.
    apply Hpurged in Hk as [Hk _]. apply (Hdisj k Hk).
    by apply (list_elem_of_fmap_2 fst) in Hin.
Qed.

Lemma cleanupUnusedHooks_stops_at_throwing_cleanup_witness :
  ∃ s',
    cleanupUnusedHooks
      (upd_hooks_state
         (λ _, [("a", [VNum 1]);
                ("b", [VEffect 0 None (Some (mkCleanup 1 true)) (mkEffect 1 None)]);
                ("c", [VNum 3])])
         initial_state)
    = Raised s'
    ∧ hooks_state s'
      = [("b", [VEffect 0 None (Some (mkCleanup 1 true)) (mkEffect 1 None)]);
         ("c", [VNum 3])]
    ∧ trace s' = [EvCleanup 1].
Proof.
  destruct (cleanupUnusedHooks_stops_at_throwing_cleanup
              (upd_hooks_state
                 (λ _, [("a", [VNum 1]);
                        ("b", [VEffect 0 None (Some (mkCleanup 1 true)) (mkEffect 1 None)]);
                        ("c", [VNum 3])])
                 initial_state)
              [("a", [VNum 1])] "b"
              [VEffect 0 None (Some (mkCleanup 1 true)) (mkEffect 1 None)]
              [("c", [VNum 3])] [] (mkCleanup 1 true) [])
    as (s' & Hrun & Hstate & _ & Htrace).
  - reflexivity.
  - apply (bool_decide_unpack _). vm_compute. exact I.
  - apply (bool_decide_unpack _). vm_compute. exact I.
  - vm_compute. constructor.
  - reflexivity.
  - constructor.
  - reflexivity.
  - exists s'. split; [exact Hrun|]. split.
    + rewrite Hstate. vm_compute. reflexivity.
    + rewrite Htrace. vm_compute. reflexivity.
Defined.

(** ** An effect whose flush is overtaken by another pass *)

Lemma shallowEquals_refl deps : shallowEquals deps deps = true.
Proof.
  induction deps as [|v deps IH]; [done|].
  cbn [shallowEquals]. by rewrite Object_is_refl, IH.
Qed.

(** X9: an effect with a dependency list is lost when a second pass runs
    before the flush of the first.  The first [useEffect] call for a slot
    stores the effect record and queues the entry.  [render] starts every
    pass by emptying the queue; if the component is invoked again before
    the queued flush has run, the call finds its record in the slot with
    the same dependency list and queues nothing, so the flush that follows
    calls no closure: the effect body registered in the first pass is never
    run while the dependencies stay as they are. *)
Theorem effect_lost_when_pass_overtakes_flush :
  ∀ effect effect' deps path c s,
    in_component path c s →
    (c ≤ length (slots_of path s))%nat →
    (∀ a d0 cl e0, slots_of path s !! c ≠ Some (VEffect a d0 cl e0)) →
    ∃ s1,
      useEffect effect (Some deps) s = Done tt s1
      ∧ effects_queue s1 = (effects_queue s ++ [(path, c)])%list
      ∧ trace s1 = trace s
      ∧ ∀ s2,
          hooks_state s2 = hooks_state s1 →
          in_component path c s2 →
          effects_queue s2 = [] →
          ∃ s3 s4,
            useEffect effect' (Some deps) s2 = Done tt s3
            ∧ effects_queue s3 = []
            ∧ flushEffects s3 = Done tt s4
            ∧ trace s4 = trace s2.
Proof.
  intros effect effect' deps path c s Hin Hlen Hfirst.
  rewrite (useEffect_run effect (Some deps) path c s Hin). cbv zeta.
  assert (Hprev : match slots_of path s !! c with
                  | Some (VEffect _ pdeps pcleanup _) => Some (pdeps, pcleanup)
                  | _ => None
                  end = None).
  { destruct (slots_of path s !! c) as [[]|] eqn:E; try done. exfalso. by eapply Hfirst. }
  rewrite Hprev. eexists. split; [reflexivity|]. state_simpl.
  split; [done|]. split; [done|].
  intros s2 Hstore Hin2 Hq.
  assert (Hslot : slots_of path s2 !! c
                  = Some (VEffect (heap_next s) (Some deps) None effect)).
  { unfold slots_of at 1. rewrite Hstore. state_simpl. rewrite Amap_get_set_eq.
    cbn [default from_option id]. case_bool_decide.
    - rewrite lookup_app_r by lia.
      by replace (c - length (slots_of path s)) with 0 by lia.
    - apply list_lookup_insert_eq. lia. }
  rewrite (useEffect_run effect' (Some deps) path c s2 Hin2). cbv zeta.
  rewrite Hslot. cbn [deps_equal]. rewrite shallowEquals_refl. cbn [negb].
  eexists _, _. split; [reflexivity|]. state_simpl. split; [done|].
  unfold flushEffects. munfold. state_simpl. rewrite Hq. cbn [flushQueue].
  split; [reflexivity|]. done.
Qed.

Lemma effect_lost_when_pass_overtakes_flush_witness :
  ∃ s1,
    useEffect (mkEffect 1 (Some RetOther)) (Some [VNum 1]) (enter_component "0" initial_state)
    = Done tt s1
    ∧ effects_queue s1 = [("0", 0)]
    ∧ ∃ s3 s4,
        useEffect (mkEffect 1 (Some RetOther)) (Some [VNum 1])
          (enter_component "0" (reset_pass s1)) = Done tt s3
        ∧ flushEffects s3 = Done tt s4
        ∧ trace s4 = [].
Proof.
  destruct (effect_lost_when_pass_overtakes_flush
              (mkEffect 1 (Some RetOther)) (mkEffect 1 (Some RetOther)) [VNum 1] "0" 0
              (enter_component "0" initial_state))
    as (s1 & Hrun & Hq & Htrace & Hnext).
  - split; vm_compute; reflexivity.
  - vm_compute. lia.
  - intros a d0 cl e0. vm_compute. discriminate.
  - exists s1. split; [exact Hrun|]. split; [exact Hq|].
    destruct (Hnext (enter_component "0" (reset_pass s1))) as (s3 & s4 & Hrun3 & _ & Hrun4 & Htrace4).
    + reflexivity.
    + split; unfold enter_component, reset_pass; state_simpl; [apply last_snoc|].
      by rewrite lookup_insert_eq.
    + reflexivity.
    + exists s3, s4. split; [exact Hrun3|]. split; [exact Hrun4|].
      rewrite Htrace4. unfold enter_component, reset_pass. state_simpl. exact Htrace.
Defined.

(** ** Props and handler slots of an element *)









Lemma applies_props_nil dom (m : M unit) :
  (∀ s, ∃ s', m s = Done tt s'
              ∧ ∀ name, Dom.getField s' dom name = Dom.getField s dom name) →
  ∀ kv, isEventProp kv.1 = false → applies_props dom [kv] m.
Proof.
  intros Hm kv Hev s. destruct (Hm s) as (s' & Hrun & Hsame).
  exists s'. split; [done|]. intros name _. cbn [foldl]. unfold slot_step.
  rewrite Hev. cbn [andb]. apply Hsame.
Qed.




Lemma keeps_slots_get dom : keeps_slots dom get.
Proof. intros s. by exists s, s. Qed.









Lemma appends_log_ret {A} (a : A) : appends_log (mret a).
Proof. intros s. exists a, s, []. by rewrite app_nil_r. Qed.

Lemma appends_log_bind {A B} (m : M A) (k : A → M B) :
  appends_log m → (∀ a, appends_log (k a)) → appends_log (m ≫= k).
Proof.
  intros Hm Hk s. destruct (Hm s) as (a & s1 & l1 & Hrun & Hlog1).
  destruct (Hk a s1) as (b & s2 & l2 & Hrun2 & Hlog2).
  exists b, s2, (l1 ++ l2)%list. split; [by erewrite bind_Done by exact Hrun|].
  by rewrite Hlog2, Hlog1, app_assoc.
Qed.

Lemma appends_log_get : appends_log get.
Proof. intros s. exists s, s, []. by rewrite app_nil_r. Qed.

Lemma appends_log_when b (m : M unit) : appends_log m → appends_log (when b m).
Proof. intros Hm. destruct b; [done|]. apply appends_log_ret. Qed.

Lemma appends_log_for_each {A} (xs : list A) (body : A → M unit) :
  (∀ x, appends_log (body x)) → appends_log (for_each xs body).
Proof.
  intros Hbody. induction xs as [|x xs IH]; cbn [for_each].
  - apply appends_log_ret.
  - apply appends_log_bind; [apply Hbody|]. by intros _.
Qed.

Lemma appends_log_log_op op : appends_log (Dom.log_op op).
Proof. intros s. by exists tt, (upd_log (λ l, (l ++ [op])%list) s), [op]. Qed.

Lemma appends_log_setField dom name v : appends_log (Dom.setField dom name v).
Proof.
  intros s. unfold Dom.setField, Dom.log_op. munfold.
  eexists tt, _, [OpSetField dom name v]. split; [reflexivity|]. done.
Qed.

Lemma appends_log_deleteField dom name : appends_log (Dom.deleteField dom name).
Proof.
  intros s. unfold Dom.deleteField, Dom.log_op. munfold.
  eexists tt, _, [OpDeleteField dom name]. split; [reflexivity|]. done.
Qed.

Ltac appends_step :=
  match goal with
  | |- appends_log (mret _) => apply appends_log_ret
  | |- appends_log get => apply appends_log_get
  | |- appends_log (mbind _ _) => apply appends_log_bind; [|intros ?]
  | |- appends_log (when _ _) => apply appends_log_when
  | |- appends_log (for_each _ _) => apply appends_log_for_each; intros ?
  | |- appends_log (Dom.log_op _) => apply appends_log_log_op
  | |- appends_log (Dom.setAttribute _ _ _) => apply appends_log_log_op
  | |- appends_log (Dom.removeAttribute _ _) => apply appends_log_log_op
  | |- appends_log (Dom.addEventListener _ _ _) => apply appends_log_log_op
  | |- appends_log (Dom.removeEventListener _ _ _) => apply appends_log_log_op
  | |- appends_log (Dom.setField _ _ _) => apply appends_log_setField
  | |- appends_log (Dom.deleteField _ _) => apply appends_log_deleteField
  | |- appends_log (if ?b then _ else _) => destruct b
  | |- appends_log (match ?v with _ => _ end) => destruct v
  | |- appends_log (let _ := _ in _) => cbv zeta
  end.

Lemma appends_log_setDomProp dom key value : appends_log (setDomProp dom key value).
Proof. unfold setDomProp. repeat appends_step. Qed.

















(** ** Taking an instance out of the render target *)

Lemma childNodes_detach n p s :
  n ≠ p →
  childNodes (Dom.detach n s) p
  = if bool_decide (Dom.parentNode s n = Some p)
    then Dom.remove_from n (childNodes s p) else childNodes s p.
Proof.
  intros Hne. unfold Dom.detach, childNodes.
  destruct (Dom.parentNode s n) as [q|] eqn:Hparent.
  - unfold Dom.node_of at 1, Dom.upd_node. state_simpl.
    rewrite lookup_insert_ne by done.
    destruct (decide (q = p)) as [->|Hq].
    + rewrite lookup_insert_eq. by rewrite bool_decide_eq_true_2.
    + rewrite lookup_insert_ne by done.
      rewrite bool_decide_eq_false_2 by congruence. done.
  - by rewrite bool_decide_eq_false_2.
Qed.

Lemma removeNodes_step parentDom n s :
  n ≠ parentDom →
  ∃ s1, (s0 ← get;
         when (bool_decide (Dom.parentNode s0 n = Some parentDom))
              (Dom.removeChild parentDom n)) s = Done tt s1
        ∧ (∀ m, Dom.parentNode s1 m
                = if bool_decide (m = n ∧ Dom.parentNode s n = Some parentDom)
                  then None else Dom.parentNode s m)
        ∧ childNodes s1 parentDom
          = (if bool_decide (Dom.parentNode s n = Some parentDom)
             then Dom.remove_from n (childNodes s parentDom) else childNodes s parentDom)
        ∧ dom_log s1
          = (dom_log s ++ if bool_decide (Dom.parentNode s n = Some parentDom)
                          then [OpRemoveChild parentDom n] else [])%list
        ∧ hooks_state s1 = hooks_state s ∧ trace s1 = trace s
        ∧ dom_next s1 = dom_next s.
Proof.
  intros Hne. munfold.
  destruct (bool_decide (Dom.parentNode s n = Some parentDom)) eqn:E.
  - unfold Dom.removeChild. rewrite E. eexists. split; [reflexivity|].
    apply bool_decide_eq_true_1 in E.
    split; [|split; [|split; [|split; [|split]]]].
    + intros m. unfold Dom.parentNode at 1, Dom.node_of at 1. state_simpl.
      fold (Dom.node_of (Dom.detach n s) m). fold (Dom.parentNode (Dom.detach n s) m).
      destruct (decide (m = n)) as [->|Hm].
      * rewrite bool_decide_eq_true_2 by done.
        unfold Dom.detach. rewrite E. rewrite parentNode_upd_node.
        by rewrite bool_decide_eq_true_2.
      * rewrite bool_decide_eq_false_2 by (intros [? _]; done).
        by apply parentNode_detach.
    + unfold childNodes at 1, Dom.node_of at 1. state_simpl.
      fold (Dom.node_of (Dom.detach n s) parentDom).
      fold (childNodes (Dom.detach n s) parentDom).
      rewrite childNodes_detach by done. by rewrite bool_decide_eq_true_2.
    + state_simpl. unfold Dom.detach. rewrite E. done.
    + state_simpl. unfold Dom.detach. by rewrite E.
    + state_simpl. unfold Dom.detach. by rewrite E.
    + state_simpl. apply dom_next_detach.
  - exists s. split; [done|]. apply bool_decide_eq_false_1 in E.
    split; [|by rewrite app_nil_r].
    intros m. rewrite bool_decide_eq_false_2; [done|]. by intros [_ ?].
Qed.

Lemma removeNodes_spec parentDom nodes :
  parentDom ∉ nodes →
  ∀ s, ∃ s' l,
    removeNodes parentDom nodes s = Done tt s'
    ∧ (∀ m, removed_from s parentDom nodes m → Dom.parentNode s' m = None)
    ∧ (∀ m, ¬ removed_from s parentDom nodes m → Dom.parentNode s' m = Dom.parentNode s m)
    ∧ childNodes s' parentDom
      = filter (λ m, ¬ removed_from s parentDom nodes m) (childNodes s parentDom)
    ∧ dom_log s' = (dom_log s ++ l)%list
    ∧ Forall (λ op, ∃ n, op = OpRemoveChild parentDom n ∧ removed_from s parentDom nodes n) l
    ∧ hooks_state s' = hooks_state s ∧ trace s' = trace s
    ∧ dom_next s' = dom_next s.
Proof.
  unfold removeNodes. induction nodes as [|n nodes IH]; intros Hnot s.
  - exists s, []. split; [done|]. split; [|split; [|split; [|split]]].
    + intros m [Hin _]. by apply elem_of_nil in Hin.
    + done.
    + symmetry. apply filter_all. intros m _ [Hin _]. by apply elem_of_nil in Hin.
    + by rewrite app_nil_r.
    + done.
  - apply not_elem_of_cons in Hnot as [Hne Hnot].
    destruct (removeNodes_step parentDom n s)
      as (s1 & Hstep & Hpar1 & Hkids1 & Hlog1 & Hst1 & Htr1 & Hnx1); [done|].
    destruct (IH Hnot s1) as (s' & l & Hrest & Hgone & Hkept & Hkids & Hlog & Hops & Hst & Htr & Hnx).
    assert (Hother : ∀ m, m ≠ n → Dom.parentNode s1 m = Dom.parentNode s m).
    { intros m Hm. rewrite (Hpar1 m). rewrite bool_decide_eq_false_2; [done|].
      by intros [? _]. }
    assert (Hiff : ∀ m, removed_from s parentDom (n :: nodes) m
                        ↔ (m = n ∧ Dom.parentNode s n = Some parentDom)
                          ∨ (m ≠ n ∧ removed_from s1 parentDom nodes m)).
    { intros m. unfold removed_from. rewrite elem_of_cons.
      destruct (decide (m = n)) as [->|Hm].
      - split; [intros [_ ?]; by left|]. intros [[_ ?]|[? _]]; [|done]. split; [by left|done].
      - rewrite (Hother m Hm).
        split; [intros [[?|?] ?]; [done|by right]|].
        intros [[? _]|[_ [? ?]]]; [done|]. split; [by right|done]. }
    assert (Hself : Dom.parentNode s n = Some parentDom → Dom.parentNode s1 n = None).
    { intros Hp. rewrite (Hpar1 n). by rewrite bool_decide_eq_true_2. }
    assert (Hstay : Dom.parentNode s n ≠ Some parentDom →
                    Dom.parentNode s1 n = Dom.parentNode s n).
    { intros Hp. rewrite (Hpar1 n). rewrite bool_decide_eq_false_2; [done|].
      by intros [_ ?]. }
    eexists s', _. split; [by rewrite for_each_cons, Hstep|].
    split; [|split; [|split; [|split; [|split]]]].
    + intros m Hm. apply Hiff in Hm as [[-> Hp]|[Hm Hlater]].
      * destruct (decide (removed_from s1 parentDom nodes n)) as [Hl|Hl].
        -- by apply Hgone.
        -- rewrite (Hkept n Hl). by apply Hself.
      * by apply Hgone.
    + intros m Hm.
      assert (Hl : ¬ removed_from s1 parentDom nodes m).
      { intros Hl. destruct (decide (m = n)) as [->|Hmn].
        - destruct Hl as [_ Hp]. destruct (decide (Dom.parentNode s n = Some parentDom)) as [Hq|Hq].
          + rewrite (Hself Hq) in Hp. done.
          + rewrite (Hstay Hq) in Hp. done.
        - apply Hm. apply Hiff. by right. }
      rewrite (Hkept m Hl). destruct (decide (m = n)) as [->|Hmn]; [|by apply Hother].
      apply Hstay. intros Hp. apply Hm. apply Hiff. by left.
    + rewrite Hkids, Hkids1.
      destruct (decide (Dom.parentNode s n = Some parentDom)) as [Hp|Hp].
      * rewrite (bool_decide_eq_true_2 _ Hp). unfold Dom.remove_from.
        rewrite list_filter_filter. apply list_filter_iff. intros m.
        rewrite Hiff. split.
        -- intros [Hlater Hm] [[? _]|[_ ?]]; done.
        -- intros Hno. split.
           ++ intros Hlater. destruct (decide (m = n)) as [->|Hm].
              ** apply Hno. by left.
              ** apply Hno. by right.
           ++ intros ->. apply Hno. by left.
      * rewrite (bool_decide_eq_false_2 _ Hp). apply list_filter_iff. intros m.
        rewrite Hiff. split.
        -- intros Hlater [[_ ?]|[_ ?]]; done.
        -- intros Hno Hlater. destruct (decide (m = n)) as [->|Hm].
           ++ destruct Hlater as [_ Hp']. rewrite (Hstay Hp) in Hp'. done.
           ++ apply Hno. by right.
    + rewrite Hlog, Hlog1, <- app_assoc. reflexivity.
    + apply Forall_app. split.
      * destruct (decide (Dom.parentNode s n = Some parentDom)) as [Hp|Hp].
        -- rewrite (bool_decide_eq_true_2 _ Hp). constructor; [|constructor].
           exists n. split; [done|]. apply Hiff. by left.
        -- rewrite (bool_decide_eq_false_2 _ Hp). constructor.
      * eapply Forall_impl; [exact Hops|]. intros op (k & -> & Hk).
        exists k. split; [done|]. apply Hiff.
        destruct (decide (k = n)) as [->|Hkn]; [|by right].
        left. split; [done|]. destruct Hk as [_ Hp'].
        destruct (decide (Dom.parentNode s n = Some parentDom)) as [Hp|Hp]; [done|].
        rewrite (Hstay Hp) in Hp'. done.
    + split; [congruence|]. split; congruence.
Qed.

(** X13: [removeInstance] takes the nodes of an instance out of the parent
    and does nothing else.  It never throws.  Afterwards exactly those
    render-target nodes of the instance that were children of [parentDom]
    have no parent; every other node has the parent it had; the child list
    of [parentDom] is the old one without the removed nodes, in the old
    order; the mutation log grows by [removeChild] calls on removed nodes
    only; and neither the hook store nor the trace of effect and cleanup
    calls changes: unmounting runs no cleanup. *)
Theorem removeInstance_detaches_nodes :
  ∀ parentDom inst s,
    parentDom ∉ getDomNodes inst →
    ∃ s' l,
      removeInstance parentDom (Some inst) s = Done tt s'
      ∧ (∀ m, removed_from s parentDom (getDomNodes inst) m → Dom.parentNode s' m = None)
      ∧ (∀ m, ¬ removed_from s parentDom (getDomNodes inst) m →
              Dom.parentNode s' m = Dom.parentNode s m)
      ∧ childNodes s' parentDom
        = filter (λ m, ¬ removed_from s parentDom (getDomNodes inst) m)
                 (childNodes s parentDom)
      ∧ dom_log s' = (dom_log s ++ l)%list
      ∧ Forall (λ op, ∃ n, op = OpRemoveChild parentDom n
                           ∧ removed_from s parentDom (getDomNodes inst) n) l
      ∧ hooks_state s' = hooks_state s ∧ trace s' = trace s.
Proof.
  intros parentDom inst s Hnot. unfold removeInstance.
  destruct (removeNodes_spec parentDom (getDomNodes inst) Hnot s)
    as (s' & l & Hrun & Hgone & Hkept & Hkids & Hlog & Hops & Hst & Htr & _).
  exists s', l. done.
Qed.

Lemma removeInstance_detaches_nodes_witness :
  childNodes (mounted_state span_and_text) 0 = [1]
  ∧ ∃ s',
      removeInstance 0 (Some (mounted_instance span_and_text)) (mounted_state span_and_text)
      = Done tt s'
      ∧ childNodes s' 0 = []
      ∧ Dom.parentNode s' 1 = None
      ∧ Dom.parentNode s' 2 = Some 1.
Proof.
  split; [vm_compute; reflexivity|].
  destruct (removeInstance_detaches_nodes 0 (mounted_instance span_and_text)
              (mounted_state span_and_text))
    as (s' & l & Hrun & Hgone & Hkept & Hkids & _).
  - apply (bool_decide_unpack _). vm_compute. exact I.
  - exists s'. split; [exact Hrun|]. split; [|split].
    + rewrite Hkids. vm_compute. reflexivity.
    + apply Hgone. split; vm_compute; [by left|reflexivity].
    + rewrite Hkept; [vm_compute; reflexivity|].
      intros [Hin _]. vm_compute in Hin. apply list_elem_of_singleton in Hin. discriminate.
Defined.

(** ** Putting an instance into the render target *)










(** ** The first node of an instance *)

Lemma Instance_nested_ind (P : Instance → Prop) :
  (∀ addr kind dom node children key path,
      Forall (λ c, match c with Some i => P i | None => True end) children →
      P (mkInstance addr kind dom node children key path)) →
  ∀ i, P i.
Proof.
  intros Hstep. fix IH 1. intros [addr kind dom node children key path].
  apply Hstep. induction children as [|[c|] cs IHcs]; constructor; auto.
Qed.

Lemma getDomNodes_unfold inst :
  getDomNodes inst
  = match ikind inst with
    | KFragment | KComponent =>
        mjoin ((λ c, match c with Some i => getDomNodes i | None => [] end)
                 <$> ichildren inst)
    | KHost | KText => option_list (idom inst)
    end.
Proof.
  destruct inst as [addr kind dom node children key path].
  cbn [getDomNodes ikind idom ichildren].
  assert (Hcollect : (fix collect (cs : list (option Instance)) : list nat :=
                        match cs with
                        | [] => []
                        | Some child :: rest => (getDomNodes child ++ collect rest)%list
                        | None :: rest => collect rest
                        end) children
                     = mjoin ((λ c, match c with Some i => getDomNodes i | None => [] end)
                                <$> children)).
  { induction children as [|[c|] cs IH]; cbn [fmap list_fmap mjoin list_join app]; [done| |done].
    by rewrite IH. }
  destruct kind; try exact Hcollect; by destruct dom.
Qed.

(** X15: [getFirstDom] is the first of [getDomNodes].  On an instance tree
    whose [dom] fields are accurate (every Host and Text instance has its
    node; a Fragment or Component instance caches nothing or its first
    node), [getFirstDom] returns the first element of [getDomNodes], and
    [null] exactly when the instance has no render-target node. *)
Theorem getFirstDom_is_head_of_getDomNodes :
  ∀ inst, dom_cached inst = true → getFirstDom inst = head (getDomNodes inst).
Proof.
  induction inst as [addr kind dom node children key path IH] using Instance_nested_ind.
  intros Hcached.
  rewrite getFirstDom_unfold, getDomNodes_unfold.
  cbn [idom ikind ichildren]. cbn [dom_cached] in Hcached.
  destruct kind.
  - apply bool_decide_eq_true_1 in Hcached as [d ->]. done.
  - apply andb_true_iff in Hcached as [Hdom Hkids].
    apply bool_decide_eq_true_1 in Hdom.
    rewrite getDomNodes_unfold in Hdom. cbn [ikind ichildren] in Hdom.
    destruct dom as [d|].
    + destruct Hdom as [|<-]; done.
    + clear Hdom. induction children as [|[c|] cs IHcs];
        cbn [getFirstDomFromChildren fmap list_fmap mjoin list_join]; [done| |].
      * apply Forall_cons in IH as [Hc IH]. apply andb_true_iff in Hkids as [Hck Hkids].
        rewrite (Hc Hck). destruct (getDomNodes c) as [|d ds]; cbn [head app]; [|done].
        by apply IHcs.
      * apply Forall_cons in IH as [_ IH]. cbn [app]. by apply IHcs.
  - apply andb_true_iff in Hcached as [Hdom Hkids].
    apply bool_decide_eq_true_1 in Hdom.
    rewrite getDomNodes_unfold in Hdom. cbn [ikind ichildren] in Hdom.
    destruct dom as [d|].
    + destruct Hdom as [|<-]; done.
    + clear Hdom. induction children as [|[c|] cs IHcs];
        cbn [getFirstDomFromChildren fmap list_fmap mjoin list_join]; [done| |].
      * apply Forall_cons in IH as [Hc IH]. apply andb_true_iff in Hkids as [Hck Hkids].
        rewrite (Hc Hck). destruct (getDomNodes c) as [|d ds]; cbn [head app]; [|done].
        by apply IHcs.
      * apply Forall_cons in IH as [_ IH]. cbn [app]. by apply IHcs.
  - apply bool_decide_eq_true_1 in Hcached as [d ->]. done.
Qed.

Lemma getFirstDom_is_head_of_getDomNodes_witness :
  getDomNodes (mounted_instance (mkVNode TFragment None [] (Some [text_node "a"; three_keyed])))
  = [6; 1]
  ∧ getFirstDom
      (mounted_instance (mkVNode TFragment None [] (Some [text_node "a"; three_keyed])))
    = Some 6.
Proof.
  split; [vm_compute; reflexivity|].
  rewrite getFirstDom_is_head_of_getDomNodes; vm_compute; reflexivity.
Defined.

Lemma set_idom_cached d inst :
  idom inst = Some d → idom (set_idom (getFirstDom inst) inst) = Some d.
Proof. destruct inst as [a k dom n c ky p]. cbn [idom]. by intros ->. Qed.

(** X16: the cached first node of a Component or Fragment instance is
    computed at mount and never again.  [updateComponent] and
    [updateFragment] end with [instance.dom = getFirstDom(instance)], and
    [getFirstDom] answers with [instance.dom] when it is set: whenever
    either function returns, an instance that entered with a cached node
    leaves with the same one, whatever happened to its children.  When the
    child that owned the node has been replaced, the cache is stale: after
    [Toggle] has switched from [<span/>] to [<p/>], its instance still
    caches the removed [<span/>] node, which has no parent and is not among
    the nodes of the instance, and [getFirstDom] returns it. *)
Theorem cached_dom_survives_updates :
  (∀ components rec parentDom instance node path s inst' s' d,
      updateComponent components rec parentDom instance node path s = Done inst' s' →
      idom instance = Some d → idom inst' = Some d ∧ getFirstDom inst' = Some d)
  ∧ (∀ components rec parentDom instance node path s inst' s' d,
        updateFragment components rec parentDom instance node path s = Done inst' s' →
        idom instance = Some d → idom inst' = Some d ∧ getFirstDom inst' = Some d)
  ∧ ∃ inst,
      root_instance toggle_rerendered = Some inst
      ∧ getFirstDom inst = Some 1
      ∧ getDomNodes inst = [2]
      ∧ Dom.parentNode toggle_rerendered 1 = None
      ∧ childNodes toggle_rerendered 0 = [2].
Proof.
  split; [|split].
  - intros components rec parentDom instance node path s inst' s' d Hrun Hd.
    unfold updateComponent in Hrun.
    apply bind_Done_inv in Hrun as (? & s1 & _ & Hrun).
    apply bind_Done_inv in Hrun as (? & s2 & _ & Hrun).
    apply bind_Done_inv in Hrun as (prevCursor & s3 & _ & Hrun).
    apply bind_Done_inv in Hrun as (? & s4 & _ & Hrun).
    apply bind_Done_inv in Hrun as (? & s5 & _ & Hrun).
    apply try_finally_Done_inv in Hrun as (s6 & Hbody & _).
    apply bind_Done_inv in Hbody as (raw & s7 & _ & Hbody). cbv zeta in Hbody.
    apply bind_Done_inv in Hbody as (childInstance & s8 & _ & Hret).
    injection Hret as <- _.
    assert (Hcached : idom (set_idom
              (getFirstDom (set_ipath path (set_ichildren
                 match childInstance with Some c => [Some c] | None => [] end
                 (set_inode node instance))))
              (set_ipath path (set_ichildren
                 match childInstance with Some c => [Some c] | None => [] end
                 (set_inode node instance)))) = Some d).
    { apply set_idom_cached. by destruct instance. }
    split; [exact Hcached|]. rewrite getFirstDom_unfold. by rewrite Hcached.
  - intros components rec parentDom instance node path s inst' s' d Hrun Hd.
    unfold updateFragment in Hrun. cbv zeta in Hrun.
    destruct (matchChildrenFragment components path (ichildren instance)
                (children_or_empty node)) as [childInstances used].
    apply bind_Done_inv in Hrun as (s0 & s1 & _ & Hrun).
    apply bind_Done_inv in Hrun as (newChildren & s2 & _ & Hrun).
    apply bind_Done_inv in Hrun as (? & s3 & _ & Hret).
    injection Hret as <- _.
    assert (Hcached : idom (set_idom
              (getFirstDom (set_ichildren newChildren (set_inode node instance)))
              (set_ichildren newChildren (set_inode node instance))) = Some d).
    { apply set_idom_cached. by destruct instance. }
    assert (Hpath : ∀ i, idom (set_ipath path i) = idom i) by (by intros []).
    split; [by rewrite Hpath|]. rewrite getFirstDom_unfold. by rewrite Hpath, Hcached.
  - eexists. split; [vm_compute; reflexivity|].
    repeat split; vm_compute; reflexivity.
Qed.

Lemma cached_dom_survives_updates_witness :
  ∃ inst' s',
    root_instance toggle_rendered
    = Some (mkInstance 1 KComponent (Some 1) (component 0)
              [Some (mkInstance 0 KHost (Some 1) (host "span" None [] []) [] None "0.c0")]
              None "0")
    ∧ updateComponent toggle_program (reconcile toggle_program 7) 0
        (mkInstance 1 KComponent (Some 1) (component 0)
           [Some (mkInstance 0 KHost (Some 1) (host "span" None [] []) [] None "0.c0")]
           None "0")
        (component 0) "0" (reset_pass toggle_switched) = Done inst' s'
    ∧ idom inst' = Some 1
    ∧ getDomNodes inst' = [2].
Proof.
  destruct cached_dom_survives_updates as (Hcomponent & _ & _).
  eassert (Hrun : updateComponent toggle_program (reconcile toggle_program 7) 0
                    (mkInstance 1 KComponent (Some 1) (component 0)
                       [Some (mkInstance 0 KHost (Some 1) (host "span" None [] []) [] None
                                "0.c0")]
                       None "0")
                    (component 0) "0" (reset_pass toggle_switched) = Done _ _)
    by (vm_compute; reflexivity).
  eexists _, _. split; [vm_compute; reflexivity|]. split; [exact Hrun|]. split.
  - apply (Hcomponent _ _ _ _ _ _ _ _ _ 1 Hrun). reflexivity.
  - vm_compute. reflexivity.
Defined.

(** ** Identity paths of siblings and their collisions *)

Lemma string_app_assoc (a b c : string) : (a ++ b) ++ c = a ++ (b ++ c).
Proof.
  induction a as [|x a IH]; [done|].
  change (String x ((a ++ b) ++ c) = String x (a ++ (b ++ c))). by rewrite IH.
Qed.

(** X17: [createChildPath] tells the children of one parent apart.  Two
    unkeyed children at different indices get different paths whatever
    their types; a keyed child never gets the path of an unkeyed one; two
    keyed children with different keys get different paths; and every
    child path is the parent path followed by a non-empty suffix. *)
Theorem createChildPath_separates_siblings :
  ∀ parentPath,
    (∀ i j t u, i ≠ j →
        createChildPath parentPath None i t ≠ createChildPath parentPath None j u)
    ∧ (∀ key i j t u,
          createChildPath parentPath (Some key) i t ≠ createChildPath parentPath None j u)
    ∧ (∀ key key' i j t u, key ≠ key' →
          createChildPath parentPath (Some key) i t
          ≠ createChildPath parentPath (Some key') j u)
    ∧ (∀ key i t, ∃ c suffix,
          createChildPath parentPath key i t = parentPath ++ String c suffix).
Proof.
  intros parentPath. split; [|split; [|split]].
  - intros i j t u Hne Heq. by apply createChildPath_index_inj in Heq.
  - intros key i j t u. rewrite createChildPath_unkeyed. cbn [createChildPath].
    intros Heq. apply string_app_inv_head in Heq. unfold unkeyed_suffix in Heq.
    destruct u as [|[|c s]| |name]; simpl in Heq; discriminate.
  - intros key key' i j t u Hne Heq. cbn [createChildPath] in Heq.
    apply string_app_inv_head in Heq. simpl in Heq. by injection Heq.
  - intros [key|] i t.
    + eexists _, _. cbn [createChildPath]. simpl. reflexivity.
    + rewrite createChildPath_unkeyed. eexists _, _. simpl. reflexivity.
Qed.

(** X18: identity paths are not unique across the tree and do not
    identify the type.  A keyed child whose key ends in what
    [createChildPath] appends for an unkeyed child (a dot, a type name, an
    index) gets the path of a grandchild: the unkeyed child at that index
    under its sibling with the shorter key.  And at one index, an anonymous
    component and a component named ["Component"], a symbol type (Fragment
    or Text) and a host tag ["Unknown"], a component named [name] and a
    host tag [name] all get the same path. *)
Theorem createChildPath_collisions :
  ∀ parentPath i,
    (∀ key t j u j' u',
        createChildPath parentPath (Some (key ++ "." ++ unkeyed_suffix i t)) j u
        = createChildPath (createChildPath parentPath (Some key) j' u') None i t)
    ∧ createChildPath parentPath None i (PFunction "")
      = createChildPath parentPath None i (PFunction "Component")
    ∧ createChildPath parentPath None i PSymbol
      = createChildPath parentPath None i (PString "Unknown")
    ∧ (∀ name, name ≠ "" →
         createChildPath parentPath None i (PFunction name)
         = createChildPath parentPath None i (PString name)).
Proof.
  intros parentPath i. split; [|split; [|split]].
  - intros key t j u j' u'. rewrite createChildPath_unkeyed. cbn [createChildPath].
    by rewrite !string_app_assoc.
  - done.
  - done.
  - intros name Hname. cbn [createChildPath].
    rewrite bool_decide_eq_false_2 by done. by destruct name.
Qed.

Lemma createChildPath_separates_siblings_witness :
  createChildPath "0" None 0 (PString "li") ≠ createChildPath "0" None 1 (PString "li")
  ∧ createChildPath "0" (Some "a") 0 PSymbol ≠ createChildPath "0" (Some "b") 0 PSymbol.
Proof.
  destruct (createChildPath_separates_siblings "0") as (Hindex & _ & Hkey & _).
  split; [apply Hindex; lia | apply Hkey; discriminate].
Defined.

Lemma createChildPath_collisions_witness :
  createChildPath "0" None 2 (PFunction "Item")
  = createChildPath "0" None 2 (PString "Item").
Proof.
  destruct (createChildPath_collisions "0" 2) as (_ & _ & _ & Hname).
  apply Hname. discriminate.
Defined.

(** ** Building elements *)

Import Jsx.

Lemma flattenChild_array items :
  flattenChild (CArray items) = flattenChildren items.
Proof. induction items as [|c rest IH]; [done|]. simpl in *. by rewrite IH. Qed.

Lemma flattenChildren_app xs ys :
  flattenChildren (xs ++ ys) = (flattenChildren xs ++ flattenChildren ys)%list.
Proof.
  induction xs as [|c rest IH]; [done|].
  cbn [flattenChildren app]. by rewrite IH, app_assoc.
Qed.

Lemma leaves_of_array items : leaves_of (CArray items) = leaves items.
Proof.
  unfold leaves. induction items as [|c rest IH]; [done|].
  simpl in *. by rewrite IH.
Qed.

Lemma Child_nested_ind (P : Child → Prop) :
  P CNull → P CUndefined → (∀ b, P (CBool b)) → (∀ z, P (CNum z)) →
  (∀ s, P (CStr s)) → (∀ n, P (CNode n)) →
  (∀ items, Forall P items → P (CArray items)) →
  ∀ c, P c.
Proof.
  intros Hnull Hundef Hbool Hnum Hstr Hnode Harray.
  fix IH 1. intros [| |b|z|s|n|items].
  - exact Hnull.
  - exact Hundef.
  - apply Hbool.
  - apply Hnum.
  - apply Hstr.
  - apply Hnode.
  - apply Harray. induction items as [|c rest IHrest]; constructor;
      [apply IH | exact IHrest].
Qed.

Lemma flattenChild_leaves c :
  flattenChild c = omap child_node (leaves_of c).
Proof.
  induction c as [| |b|z|s|n|items IH] using Child_nested_ind; try done.
  rewrite flattenChild_array, leaves_of_array. unfold leaves.
  induction IH as [|c rest Hc _ IHrest]; [done|].
  cbn [flattenChildren mbind list_bind]. rewrite omap_app. by rewrite Hc, IHrest.
Qed.

(** X19: [flattenChildren] returns, in order, the nodes of the non-array
    values found at any depth of nesting: a string or a number becomes a
    text node of its [String] (so [0] and the empty string are kept), a
    node is kept as it is, and [null], [undefined] and booleans leave
    nothing.  So the result does not depend on how the children are grouped
    into arrays. *)
Theorem flattenChildren_collects_leaves :
  ∀ children, flattenChildren children = omap child_node (leaves children).
Proof.
  intros children. unfold leaves.
  induction children as [|c rest IH]; [done|].
  cbn [flattenChildren mbind list_bind]. by rewrite omap_app, flattenChild_leaves, IH.
Qed.

(** X20: the children of a created element are the rest arguments followed
    by the [children] property, flattened together; a [children] property
    of [0] or of the empty string is dropped, although the same value
    passed as a rest argument becomes a text node.  A host, Fragment or
    text element always gets the list, empty or not; a component element
    gets it only when it is not empty. *)
Theorem createElement_children :
  ∀ type originProps rawChildren,
    let children := flattenChildren (rawChildren ++ prop_children originProps) in
    nchildren (createElement type originProps rawChildren)
    = (if is_component type && bool_decide (children = []) then None else Some children)
    ∧ flattenChildren [CNum 0; CStr ""] = [text_node "0"; text_node ""]
    ∧ prop_children (Some (mkProps [] (Some (CNum 0)))) = []
    ∧ prop_children (Some (mkProps [] (Some (CStr "")))) = [].
Proof.
  intros type originProps rawChildren children. split; [|done].
  subst children. rewrite flattenChildren_app.
  assert (Hkids :
    match children_prop (default (mkProps [] None) originProps) with
    | Some c =>
        if raw_truthy (raw_of c) then
          match c with
          | CArray items => (flattenChildren rawChildren ++ flattenChildren items)%list
          | _ => (flattenChildren rawChildren ++ option_list (normalizeNode (raw_of c)))%list
          end
        else flattenChildren rawChildren
    | None => flattenChildren rawChildren
    end = (flattenChildren rawChildren ++ flattenChildren (prop_children originProps))%list).
  { unfold prop_children.
    destruct originProps as [[es [c|]]|]; cbn; rewrite ?app_nil_r; try done.
    destruct c as [| |[]|z|s|n|items]; cbn; rewrite ?app_nil_r; try done.
    - destruct z; cbn; by rewrite ?app_nil_r.
    - destruct s; cbn; by rewrite ?app_nil_r. }
  unfold createElement. cbn [nchildren]. rewrite Hkids.
  destruct (flattenChildren rawChildren ++ flattenChildren (prop_children originProps))%list
    as [|k ks] eqn:E; destruct type; cbn; try done.
Qed.





(** ** What a reconciliation leaves alone *)

Section Frame.
Context {T : Type} (view : State → T).

Lemma keeps_ret {A} (a : A) : keeps view (mret a).
Proof. by intros s. Qed.

Lemma keeps_bind {A B} (m : M A) (k : A → M B) :
  keeps view m → (∀ a, keeps view (k a)) → keeps view (m ≫= k).
Proof.
  intros Hm Hk s. specialize (Hm s). unfold mbind, M_bind.
  destruct (m s) as [a s1|s1|]; [|done..].
  specialize (Hk a s1). destruct (k a s1); congruence.
Qed.

Lemma keeps_fmap {A B} (f : A → B) (m : M A) : keeps view m → keeps view (f <$> m).
Proof. intros Hm s. specialize (Hm s). unfold fmap, M_fmap. by destruct (m s). Qed.

Lemma keeps_try_finally {A} (body : M A) (fin : M unit) :
  keeps view body → keeps view fin → keeps view (try_finally body fin).
Proof.
  intros Hb Hf s. specialize (Hb s). unfold try_finally.
  destruct (body s) as [a s1|s1|]; [| |done];
    specialize (Hf s1); destruct (fin s1); congruence.
Qed.

Lemma keeps_for_each {A} (xs : list A) (body : A → M unit) :
  (∀ x, keeps view (body x)) → keeps view (for_each xs body).
Proof.
  intros Hbody. induction xs as [|x xs IH]; [apply keeps_ret|].
  cbn [for_each]. apply keeps_bind; [apply Hbody|by intros _].
Qed.

Lemma keeps_when b (m : M unit) : keeps view m → keeps view (when b m).
Proof. destruct b; [done|]. intros _. apply keeps_ret. Qed.

Lemma keeps_get : keeps view get.
Proof. by intros s. Qed.

Lemma keeps_gets {A} (f : State → A) : keeps view (gets f).
Proof. by intros s. Qed.

Lemma keeps_raise {A} : keeps view (@raise A).
Proof. by intros s. Qed.

Lemma keeps_starve {A} : keeps view (@starve A).
Proof. by intros s. Qed.

Lemma keeps_modify f : (∀ s, view (f s) = view s) → keeps view (modify f).
Proof. intros Hf s. apply Hf. Qed.

Lemma keeps_currentPath : keeps view currentPath.
Proof. intros s. unfold currentPath. by destruct (last _). Qed.

End Frame.

Create HintDb frame.

#[export] Hint Resolve keeps_ret keeps_get keeps_gets keeps_raise keeps_starve
  keeps_currentPath : frame.

(** The writes that a balanced view does not see. *)
Ltac blind_writes :=
  match goal with
  | Hview : balanced_view _ |- _ =>
      repeat first
        [ rewrite (view_dom _ Hview) | rewrite (view_dom_next _ Hview)
        | rewrite (view_log _ Hview) | rewrite (view_hooks_state _ Hview)
        | rewrite (view_cursor _ Hview) | rewrite (view_visited _ Hview)
        | rewrite (view_queue _ Hview) | rewrite (view_heap_next _ Hview)
        | rewrite (view_refs _ Hview) ]
  end.

Ltac frame_step :=
  match goal with
  | |- keeps _ (mbind _ _) => apply keeps_bind; [|intros ?]
  | |- keeps _ (fmap _ _) => apply keeps_fmap
  | |- keeps _ (try_finally _ _) => apply keeps_try_finally
  | |- keeps _ (for_each _ _) => apply keeps_for_each; intros ?
  | |- keeps _ (when _ _) => apply keeps_when
  | |- keeps _ (modify _) =>
      apply keeps_modify; intros ?; unfold Dom.upd_node;
      first [reflexivity | by blind_writes]
  | |- keeps _ (if ?b then _ else _) => destruct b
  | |- keeps _ (match ?x with _ => _ end) => destruct x
  | |- keeps _ _ => solve [auto with frame]
  end.

Ltac frame_tac := repeat frame_step.

Section Balanced.
Context {T : Type} (view : State → T).
Hypothesis Hview : balanced_view view.

Lemma view_detach n s : view (Dom.detach n s) = view s.
Proof.
  unfold Dom.detach, Dom.upd_node. destruct (Dom.parentNode s n); [|done].
  by blind_writes.
Qed.

Lemma view_attach p n anchor s : view (Dom.attach p n anchor s) = view s.
Proof. unfold Dom.attach, Dom.upd_node. blind_writes. apply view_detach. Qed.

Lemma keeps_log_op op : keeps view (Dom.log_op op).
Proof. unfold Dom.log_op. frame_tac. Qed.

Lemma keeps_createElement tag : keeps view (Dom.createElement tag).
Proof. intros s. unfold Dom.createElement. cbv beta zeta. by blind_writes. Qed.

Lemma keeps_createTextNode text : keeps view (Dom.createTextNode text).
Proof. intros s. unfold Dom.createTextNode. cbv beta zeta. by blind_writes. Qed.

Lemma keeps_insertBefore p n a : keeps view (Dom.insertBefore p n a).
Proof.
  intros s. unfold Dom.insertBefore. case_bool_decide; [|done].
  blind_writes. apply view_attach.
Qed.

Lemma keeps_appendChild p n : keeps view (Dom.appendChild p n).
Proof. intros s. unfold Dom.appendChild. blind_writes. apply view_attach. Qed.

Lemma keeps_removeChild p n : keeps view (Dom.removeChild p n).
Proof.
  intros s. unfold Dom.removeChild. case_bool_decide; [|done].
  blind_writes. apply view_detach.
Qed.

Lemma keeps_fresh_addr : keeps view fresh_addr.
Proof. intros s. unfold fresh_addr. cbv beta zeta. by blind_writes. Qed.

#[local] Hint Resolve keeps_log_op keeps_createElement keeps_createTextNode
  keeps_insertBefore keeps_appendChild keeps_removeChild keeps_fresh_addr : frame.

Lemma keeps_setField n name v : keeps view (Dom.setField n name v).
Proof. unfold Dom.setField. frame_tac. Qed.

Lemma keeps_deleteField n name : keeps view (Dom.deleteField n name).
Proof. unfold Dom.deleteField. frame_tac. Qed.

Lemma keeps_setNodeValue n v : keeps view (Dom.setNodeValue n v).
Proof. unfold Dom.setNodeValue. frame_tac. Qed.

Lemma keeps_setAttribute n k v : keeps view (Dom.setAttribute n k v).
Proof. apply keeps_log_op. Qed.

Lemma keeps_removeAttribute n k : keeps view (Dom.removeAttribute n k).
Proof. apply keeps_log_op. Qed.

Lemma keeps_addEventListener n e h : keeps view (Dom.addEventListener n e h).
Proof. apply keeps_log_op. Qed.

Lemma keeps_removeEventListener n e h : keeps view (Dom.removeEventListener n e h).
Proof. apply keeps_log_op. Qed.

#[local] Hint Resolve keeps_setField keeps_deleteField keeps_setNodeValue
  keeps_setAttribute keeps_removeAttribute keeps_addEventListener
  keeps_removeEventListener : frame.

Lemma keeps_setDomProps dom props : keeps view (setDomProps dom props).
Proof. unfold setDomProps, setDomProp. frame_tac. Qed.

Lemma keeps_updateDomProps dom prev next : keeps view (updateDomProps dom prev next).
Proof. unfold updateDomProps, removeOldProp, applyNewProp. frame_tac. Qed.

Lemma keeps_removeNodes parentDom nodes : keeps view (removeNodes parentDom nodes).
Proof. unfold removeNodes. frame_tac. Qed.

#[local] Hint Resolve keeps_setDomProps keeps_updateDomProps keeps_removeNodes : frame.

Lemma keeps_removeInstance parentDom inst : keeps view (removeInstance parentDom inst).
Proof. unfold removeInstance. frame_tac. Qed.

Lemma keeps_insertInstance parentDom inst anchor :
  keeps view (insertInstance parentDom inst anchor).
Proof. unfold insertInstance. frame_tac. Qed.

Lemma keeps_removeUnused parentDom prev used keyed :
  keeps view (removeUnused parentDom prev used keyed).
Proof. unfold removeUnused. frame_tac. Qed.

Lemma keeps_migrate oldPath path : keeps view (migrate oldPath path).
Proof. unfold migrate. frame_tac. Qed.

Lemma keeps_set_ref ref dom : keeps view (set_ref ref dom).
Proof. unfold set_ref. frame_tac. Qed.

Lemma keeps_moveKeyedChild dom i cur anchor : keeps view (moveKeyedChild dom i cur anchor).
Proof. unfold moveKeyedChild. frame_tac. Qed.

Lemma keeps_useState init : keeps view (useState init).
Proof. unfold useState, currentCursor, currentHooks. frame_tac. Qed.

Lemma keeps_useEffect effect deps : keeps view (useEffect effect deps).
Proof. unfold useEffect, currentCursor, currentHooks. frame_tac. Qed.

#[local] Hint Resolve keeps_removeInstance keeps_removeUnused keeps_migrate keeps_set_ref
  keeps_moveKeyedChild : frame.

Section Functions.
Context (components : nat → Component) (rec : Reconcile).
Hypothesis Hbodies : bodies_keep view components.
Hypothesis Hrec : ∀ parentDom instance node path anchor,
  keeps view (rec parentDom instance node path anchor).

Lemma keeps_mountHostChildren dom path childNodes :
  ∀ i, keeps view (mountHostChildren components rec dom path i childNodes).
Proof.
  induction childNodes as [|c cs IH]; intros i; cbn [mountHostChildren]; [frame_tac|].
  frame_step; [apply Hrec|]. frame_step; [apply IH|]. frame_tac.
Qed.

Lemma keeps_mountFragmentChildren parentDom path childNodes anchor :
  ∀ i, keeps view (mountFragmentChildren components rec parentDom path i childNodes anchor).
Proof.
  induction childNodes as [|c cs IH]; intros i; cbn [mountFragmentChildren]; [frame_tac|].
  frame_step; [apply IH|]. destruct a as [more currentAnchor].
  frame_step; [apply Hrec|]. frame_tac.
Qed.

Lemma keeps_updateHostChildren dom path slots :
  ∀ i, keeps view (updateHostChildren components rec dom path i slots).
Proof.
  induction slots as [|[[c ci] anchor] slots IH]; intros i; cbn [updateHostChildren];
    [frame_tac|].
  frame_step.
  - unfold updateHostChild. frame_step; [frame_tac|].
    frame_step; [apply Hrec|]. frame_tac.
  - frame_step; [apply IH|]. frame_tac.
Qed.

Lemma keeps_updateFragmentChildren parentDom path slots :
  ∀ i, keeps view (updateFragmentChildren components rec parentDom path i slots).
Proof.
  induction slots as [|[[c ci] anchor] slots IH]; intros i; cbn [updateFragmentChildren];
    [frame_tac|].
  frame_step; [apply Hrec|]. frame_step; [apply IH|]. frame_tac.
Qed.

Lemma keeps_mountHost parentDom node path anchor :
  keeps view (mountHost components rec parentDom node path anchor).
Proof.
  unfold mountHost. do 3 (frame_step; [frame_tac|]).
  frame_step; [apply keeps_mountHostChildren|]. frame_tac.
Qed.

Lemma keeps_mountFragment parentDom node path anchor :
  keeps view (mountFragment components rec parentDom node path anchor).
Proof.
  unfold mountFragment. frame_step; [apply keeps_mountFragmentChildren|]. frame_tac.
Qed.

Lemma keeps_updateHost parentDom instance node path :
  keeps view (updateHost components rec parentDom instance node path).
Proof.
  unfold updateHost. destruct (idom instance) as [dom|]; [|frame_tac].
  do 2 (frame_step; [frame_tac|]).
  destruct (matchChildrenHost _ _ _ _) as [cis used].
  frame_step; [frame_tac|].
  frame_step; [apply keeps_updateHostChildren|]. frame_tac.
Qed.

Lemma keeps_updateFragment parentDom instance node path :
  keeps view (updateFragment components rec parentDom instance node path).
Proof.
  unfold updateFragment. destruct (matchChildrenFragment _ _ _ _) as [cis used].
  frame_step; [frame_tac|].
  frame_step; [apply keeps_updateFragmentChildren|]. frame_tac.
Qed.

Lemma keeps_mountText parentDom node anchor : keeps view (mountText parentDom node anchor).
Proof. unfold mountText. frame_tac. Qed.

Lemma keeps_updateText instance node : keeps view (updateText instance node).
Proof. unfold updateText. frame_tac. Qed.

Lemma keeps_mountComponent parentDom node path anchor :
  keeps view (mountComponent components rec parentDom node path anchor).
Proof.
  unfold mountComponent.
  match goal with |- context [try_finally ?b ?f] => set (body := b); set (fin := f) end.
  assert (Hbody : keeps view body).
  { subst body. frame_step.
    - destruct (ntype node); [frame_tac..|apply Hbodies].
    - frame_step; [|frame_tac].
      destruct (raw_truthy a); [|frame_tac].
      unfold reconcile_raw. destruct a; try apply Hrec; frame_tac. }
  intros s. unfold mbind, M_bind, modify, try_finally.
  set (s0 := upd_visited _ _).
  assert (Hs0 : view s0 = view (upd_stack (λ st, (st ++ [path])%list) s)).
  { subst s0. by blind_writes. }
  specialize (Hbody s0).
  destruct (body s0) as [a s1|s1|]; [| |done]; subst fin; unfold modify;
    apply (view_scope _ Hview path); congruence.
Qed.

Lemma keeps_updateComponent parentDom instance node path :
  keeps view (updateComponent components rec parentDom instance node path).
Proof.
  unfold updateComponent.
  match goal with |- context [try_finally ?b _] => set (body := b) end.
  assert (Hbody : keeps view body).
  { subst body. frame_step.
    - destruct (ntype node); [frame_tac..|apply Hbodies].
    - frame_step; [|frame_tac].
      destruct (match normalizeNode a with Some _ => _ | None => _ end); apply Hrec. }
  apply keeps_bind; [frame_tac|]. intros _ s.
  unfold mbind, M_bind, modify, gets, try_finally.
  set (s0 := upd_visited _ _).
  assert (Hs0 : view s0 = view (upd_stack (λ st, (st ++ [path])%list) s)).
  { subst s0. by blind_writes. }
  specialize (Hbody s0).
  destruct (body s0) as [a s1|s1|]; [| |done]; blind_writes;
    apply (view_scope _ Hview path); congruence.
Qed.

Lemma keeps_mountNode parentDom node path anchor :
  keeps view (mountNode components rec parentDom node path anchor).
Proof.
  unfold mountNode. destruct (ntype node).
  - apply keeps_fmap, keeps_mountText.
  - apply keeps_fmap, keeps_mountFragment.
  - apply keeps_fmap, keeps_mountHost.
  - apply keeps_mountComponent.
Qed.

Lemma keeps_reconcile_body parentDom instance node path anchor :
  keeps view (reconcile_body components rec parentDom instance node path anchor).
Proof.
  unfold reconcile_body. destruct node as [node|]; [|frame_tac].
  destruct instance as [instance|]; [|apply keeps_mountNode].
  destruct (negb _ || negb _).
  - frame_step; [frame_tac|]. apply keeps_mountNode.
  - frame_step; [|frame_tac].
    destruct (ntype node).
    + apply keeps_updateText.
    + apply keeps_updateFragment.
    + apply keeps_updateHost.
    + apply keeps_updateComponent.
Qed.

End Functions.

Lemma keeps_reconcile components :
  bodies_keep view components →
  ∀ fuel parentDom instance node path anchor,
    keeps view (reconcile components fuel parentDom instance node path anchor).
Proof.
  intros Hbodies. induction fuel as [|fuel IH]; intros parentDom instance node path anchor.
  - apply keeps_starve.
  - cbn [reconcile]. by apply keeps_reconcile_body.
Qed.

End Balanced.

Lemma stack_balanced : balanced_view hooks_componentStack.
Proof.
  split; try done. intros path s s'. state_simpl. intros ->. apply removelast_last.
Qed.

Lemma trace_balanced : balanced_view trace.
Proof. by split. Qed.

Lemma program_bodies_keep {T} (view : State → T) :
  balanced_view view → bodies_keep view program.
Proof.
  intros Hview cid props children.
  destruct cid as [|[|[|cid]]]; cbn; frame_tac;
    first [by apply keeps_useState | by apply keeps_useEffect].
Qed.

Lemma keeps_stack_cleanupUnusedHooks : keeps hooks_componentStack cleanupUnusedHooks.
Proof.
  unfold cleanupUnusedHooks, cleanupEntry, cleanupHook, call_cleanup. frame_tac.
Qed.

(** X22: the stack of active paths is balanced.  When no component
    function touches the stack itself, [reconcile] leaves it as it found
    it, whether it returns or a component, a ref or a render-target call
    throws: the [finally] blocks of [mountComponent] and [updateComponent]
    pop what they pushed.  So after [render], finished or failed, the stack
    is empty and a hook called outside a component throws.  [useState] and
    [useEffect] do not touch the stack. *)
Theorem reconcile_balances_stack :
  ∀ components,
    bodies_keep hooks_componentStack components →
    (∀ fuel parentDom instance node path anchor,
        keeps hooks_componentStack
          (reconcile components fuel parentDom instance node path anchor))
    ∧ (∀ fuel s,
          is_Some (root_container s) → is_Some (root_node s) →
          match render components fuel s with
          | Done _ s' | Raised s' =>
              hooks_componentStack s' = []
              ∧ (∀ init, ∃ s'', useState init s' = Raised s'')
          | Starved => True
          end)
    ∧ (∀ init, keeps hooks_componentStack (useState init))
    ∧ (∀ effect deps, keeps hooks_componentStack (useEffect effect deps)).
Proof.
  intros components Hbodies.
  split; [by apply keeps_reconcile; [apply stack_balanced|]|].
  split; [|split; intros; [apply keeps_useState|apply keeps_useEffect];
           apply stack_balanced].
  intros fuel s [container Hc] [node Hn]. unfold render.
  unfold mbind at 1, M_bind at 1, get. rewrite Hc, Hn.
  match goal with
  | |- context [reconcile ?c ?f ?a ?b ?d ?e ?g ≫= ?k] =>
      set (tail := reconcile c f a b d e g ≫= k)
  end.
  assert (Htail : keeps hooks_componentStack tail).
  { subst tail. frame_step; [by apply keeps_reconcile; [apply stack_balanced|]|].
    frame_step; [frame_tac|]. frame_step; [apply keeps_stack_cleanupUnusedHooks|].
    unfold enqueue_flushEffects. frame_tac. }
  unfold mbind, M_bind, modify.
  match goal with |- context [tail ?s0] => specialize (Htail s0); destruct (tail s0) end;
    [| |done]; state_simpl in Htail; (split; [done|]);
    intros init; eexists; unfold useState, currentPath, mbind, M_bind;
    by rewrite Htail.
Qed.

Lemma reconcile_balances_stack_witness :
  keeps hooks_componentStack (reconcile program 8 0 None (Some counter_box) "0" None)
  ∧ hooks_componentStack (first_render counter_box) = [].
Proof.
  destruct (reconcile_balances_stack program (program_bodies_keep _ stack_balanced))
    as (Hrec & Hrender & _).
  split; [apply Hrec|].
  specialize (Hrender 8 (with_root counter_box)).
  unfold first_render.
  destruct (render program 8 (with_root counter_box)) as [[] s'|s'|] eqn:E.
  - apply Hrender; by eexists.
  - apply Hrender; by eexists.
  - reflexivity.
Defined.

(** X23: a reconciliation runs no effect and no cleanup.  When no
    component function calls one itself, [reconcile] leaves the trace of
    effect and cleanup calls as it found it, whatever it mounts, updates or
    removes and whether it returns or throws: an effect registered by
    [useEffect] is only queued, and the cleanup of a component that is
    unmounted is not called by the reconciler. *)
Theorem reconcile_runs_no_effect :
  ∀ components,
    bodies_keep trace components →
    (∀ fuel parentDom instance node path anchor,
        keeps trace (reconcile components fuel parentDom instance node path anchor))
    ∧ (∀ effect deps, keeps trace (useEffect effect deps))
    ∧ (∀ init, keeps trace (useState init)).
Proof.
  intros components Hbodies.
  split; [by apply keeps_reconcile; [apply trace_balanced|]|].
  split; intros; [apply keeps_useEffect|apply keeps_useState]; apply trace_balanced.
Qed.

Lemma reconcile_runs_no_effect_witness :
  keeps trace (reconcile program 8 0 None (Some (component 3)) "0" None).
Proof.
  destruct (reconcile_runs_no_effect program (program_bodies_keep _ trace_balanced))
    as (Hrec & _).
  apply Hrec.
Defined.

(** ** Unmounting through [reconcile] *)

Lemma for_each_mjoin {A B} (f : A → list B) (cs : list A) (body : B → M unit) s :
  for_each (mjoin (f <$> cs)) body s = for_each cs (λ c, for_each (f c) body) s.
Proof.
  revert s. induction cs as [|c cs IH]; intros s; [done|].
  cbn [fmap list_fmap mjoin list_join]. rewrite for_each_app, for_each_cons.
  destruct (for_each (f c) body s); [apply IH|done..].
Qed.

Lemma for_each_ext {A} (xs : list A) (body body' : A → M unit) s :
  (∀ x s', body x s' = body' x s') → for_each xs body s = for_each xs body' s.
Proof.
  intros Hext. revert s. induction xs as [|x xs IH]; intros s; [done|].
  rewrite !for_each_cons, Hext. destruct (body' x s); [apply IH|done..].
Qed.

(** X24: unmounting through [reconcile] is [removeInstance].  A call of
    [reconcile] with a [null] node and a previous instance of any kind ends
    in the state in which [removeInstance] on that instance ends, and
    returns [null]; the separate loop that [reconcile] has for a Fragment
    removes the same nodes in the same order.  Neither throws. *)
Theorem reconcile_null_is_removeInstance :
  ∀ components fuel parentDom instance path anchor s,
    ∃ s', removeInstance parentDom instance s = Done tt s'
          ∧ reconcile components (S fuel) parentDom instance None path anchor s
            = Done None s'.
Proof.
  intros components fuel parentDom instance path anchor s.
  assert (Hsame : reconcile components (S fuel) parentDom instance None path anchor s
                  = (_ ← removeInstance parentDom instance; mret None) s).
  { cbn [reconcile]. unfold reconcile_body.
    destruct instance as [inst|]; [|done].
    case_bool_decide as Hkind; [|done].
    unfold mbind, M_bind, removeInstance, removeNodes.
    rewrite getDomNodes_unfold, Hkind, for_each_mjoin.
    match goal with
    | |- match ?a with _ => _ end = match ?b with _ => _ end =>
        replace b with a; [done|]
    end.
    apply for_each_ext. intros [c|] s'; done. }
  rewrite Hsame. unfold removeInstance.
  destruct instance as [inst|]; [|by exists s].
  destruct (removeNodes_returns parentDom (getDomNodes inst) s) as [s' Hrun].
  exists s'. split; [done|]. unfold mbind, M_bind. by rewrite Hrun.
Qed.

(** ** Mounting, then reconciling the same tree again *)














Section MountMirrors.
Context (components : nat → Component) (rec : Reconcile).




End MountMirrors.





(** ** A pass that fails *)





